(** * Flux compiler front-end: lexer, name resolution, type checker, IR emitter

    A shallow embedding of the analytic pipeline of the Flux compiler
    (lib/Lexer/Lexer.cpp, lib/Sema/NameResolution.cpp, lib/Sema/Sema.cpp,
    lib/Sema/TypeChecker.cpp, lib/CodeGen/IREmitter.cpp, tools/flux/main.cpp)
    together with the properties of it that the specification states. *)

From Stdlib Require Import ZArith NArith Lia Bool Ascii String List.
From stdpp Require Import base option gmap strings list pretty.

Local Open Scope string_scope.
Local Open Scope list_scope.
Local Open Scope N_scope.

(* ===================================================================== *)
(** ** Machine integers *)
(* ===================================================================== *)

(** [uint32_t] values are naturals below [2^32]; arithmetic wraps. *)
Definition UINT32_MOD : N := 4294967296.

Definition wrap32 (n : N) : N := n mod UINT32_MOD.
Definition inc32 (n : N) : N := wrap32 (n + 1).
Definition dec32 (n : N) : N := wrap32 (n + (UINT32_MOD - 1)).
Definition sub32 (a b : N) : N := wrap32 (a + (UINT32_MOD - wrap32 b)).

(** [long long] upper bound used by [std::stoll]. *)
Definition INT64_MAX : N := 9223372036854775807.

(* ===================================================================== *)
(** ** Common: source locations and the diagnostic engine *)
(* ===================================================================== *)

(** include/flux/Common/SourceLocation.h *)
Record SourceLocation := mkLoc {
  loc_filename : string;
  loc_line : N;
  loc_column : N;
  loc_offset : N
}.

(** The default-constructed location [SourceLocation{}]. *)
Definition defaultLoc : SourceLocation :=
  {| loc_filename := ""; loc_line := 1; loc_column := 1; loc_offset := 0 |}.

(** include/flux/Common/Diagnostics.h *)
Inductive DiagnosticSeverity := Note | Warning | Error | Fatal.

Record Diagnostic := mkDiag {
  severity : DiagnosticSeverity;
  dlocation : SourceLocation;
  message : string;
  notes : list (SourceLocation * string);
  fixes : list (string * string)
}.

(** The engine keeps the recorded diagnostics and two [uint32_t] counters.
    The handler (by default a printer to the error stream) has no effect on
    the engine and is left out. *)
Record DiagnosticEngine := mkEngine {
  diagnostics_ : list Diagnostic;
  errorCount_ : N;
  warningCount_ : N
}.

Definition newEngine : DiagnosticEngine :=
  {| diagnostics_ := []; errorCount_ := 0; warningCount_ := 0 |}.

(** [DiagnosticEngine::emit] *)
Definition emit (diag : Diagnostic) (d : DiagnosticEngine) : DiagnosticEngine :=
  let d1 :=
    match severity diag with
    | Error | Fatal =>
        {| diagnostics_ := diagnostics_ d;
           errorCount_ := inc32 (errorCount_ d);
           warningCount_ := warningCount_ d |}
    | Warning =>
        {| diagnostics_ := diagnostics_ d;
           errorCount_ := errorCount_ d;
           warningCount_ := inc32 (warningCount_ d) |}
    | Note => d
    end in
  {| diagnostics_ := diagnostics_ d1 ++ [diag];
     errorCount_ := errorCount_ d1;
     warningCount_ := warningCount_ d1 |}.

(** [DiagnosticEngine::emitError] *)
Definition emitError (loc : SourceLocation) (msg : string)
    (d : DiagnosticEngine) : DiagnosticEngine :=
  emit {| severity := Error; dlocation := loc; message := msg;
          notes := []; fixes := [] |} d.

Definition getErrorCount (d : DiagnosticEngine) : N := errorCount_ d.
Definition hasErrors (d : DiagnosticEngine) : bool := 0 <? errorCount_ d.

(** Replaying a list of diagnostics into an engine, oldest first. *)
Definition emitAll (log : list Diagnostic) (d : DiagnosticEngine)
    : DiagnosticEngine :=
  fold_left (fun d x => emit x d) log d.

(* ===================================================================== *)
(** ** Tokens (include/flux/Lexer/Token.h) *)
(* ===================================================================== *)

Inductive TokenKind :=
  (* Special *)
  | Eof | Invalid | Newline
  (* Literals *)
  | IntLiteral | FloatLiteral | StringLiteral | CharLiteral | BoolLiteral
  (* Identifier *)
  | Identifier
  (* Keywords *)
  | KwModule | KwImport | KwFunc | KwLet | KwMut | KwConst | KwStruct
  | KwClass | KwEnum | KwTrait | KwImpl | KwType | KwSelf | KwSelfType
  | KwIf | KwElse | KwMatch | KwFor | KwWhile | KwLoop | KwBreak
  | KwContinue | KwReturn | KwIn
  | KwMove | KwRef | KwDrop
  | KwAsync | KwAwait | KwSpawn | KwUnsafe
  | KwPub | KwPublic | KwPrivate
  | KwTrue | KwFalse | KwAnd | KwOr | KwNot
  | KwAs | KwIs | KwWhere | KwUse | KwVoid | KwPanic | KwAssert
  | KwDoc | KwDeprecated | KwTest
  (* Delimiters and separators *)
  | LParen | RParen | LBracket | RBracket | LBrace | RBrace
  | Comma | Semicolon | Colon | ColonColon | Dot | DotDot | DotDotDot
  | Arrow | FatArrow | At | Hash | HashBang
  (* Arithmetic *)
  | Plus | Minus | Star | Slash | Percent
  (* Comparison *)
  | Equal | EqualEqual | BangEqual | Less | LessEqual | Greater | GreaterEqual
  (* Bitwise *)
  | Ampersand | Pipe | Caret | Tilde | ShiftLeft | ShiftRight
  (* Compound assignment *)
  | PlusEqual | MinusEqual | StarEqual | SlashEqual | PercentEqual
  | AmpersandEqual | PipeEqual | CaretEqual
  (* Special operators, lifetime *)
  | Question | Underscore | Apostrophe.

Definition isEofKind (k : TokenKind) : bool :=
  match k with Eof => true | _ => false end.

Definition isInvalidKind (k : TokenKind) : bool :=
  match k with Invalid => true | _ => false end.

(** The anonymous union [{ int64_t intValue; double floatValue; }].  A
    [double] is kept as the cleaned numeral [std::stod] was given. *)
Inductive LiteralValue :=
  | IntValue (z : Z)
  | FloatValue (numeral : string).

Record Token := mkToken {
  kind : TokenKind;
  text : string;
  location : SourceLocation;
  litValue : LiteralValue
}.

(** The default-constructed [Token]. *)
Definition defaultToken : Token :=
  {| kind := Eof; text := ""; location := defaultLoc; litValue := IntValue 0 |}.

Definition setText (t : Token) (s : string) : Token :=
  {| kind := kind t; text := s; location := location t;
     litValue := litValue t |}.

Definition setLitValue (t : Token) (v : LiteralValue) : Token :=
  {| kind := kind t; text := text t; location := location t;
     litValue := v |}.

(** [Token::kindToString] is a printing table and is not needed here. *)

(* ===================================================================== *)
(** ** Character classification (<cctype>, "C" locale) *)
(* ===================================================================== *)

Definition NUL : ascii := "000"%char.
Definition LF : ascii := "010"%char.
Definition TAB : ascii := "009"%char.
Definition CR : ascii := "013"%char.
Definition DQUOTE : ascii := "034"%char.
Definition SQUOTE : ascii := "'"%char.
Definition BACKSLASH : ascii := "\"%char.

Definition in_range (lo hi : N) (c : ascii) : bool :=
  let n := N_of_ascii c in (lo <=? n) && (n <=? hi).

Definition isdigit (c : ascii) : bool := in_range 48 57 c.
Definition isupper (c : ascii) : bool := in_range 65 90 c.
Definition islower (c : ascii) : bool := in_range 97 122 c.
Definition isalpha (c : ascii) : bool := isupper c || islower c.
Definition isalnum (c : ascii) : bool := isalpha c || isdigit c.
Definition isxdigit (c : ascii) : bool :=
  isdigit c || in_range 65 70 c || in_range 97 102 c.
Definition isodigit (c : ascii) : bool := in_range 48 55 c.
Definition isbdigit (c : ascii) : bool := in_range 48 49 c.

Definition isIdentChar (c : ascii) : bool := isalnum c || Ascii.eqb c "_".
Definition isDecChar (c : ascii) : bool := isdigit c || Ascii.eqb c "_".
Definition isHexChar (c : ascii) : bool := isxdigit c || Ascii.eqb c "_".
Definition isBinChar (c : ascii) : bool :=
  Ascii.eqb c "0" || Ascii.eqb c "1" || Ascii.eqb c "_".
Definition isOctChar (c : ascii) : bool := isodigit c || Ascii.eqb c "_".

(* ===================================================================== *)
(** ** The keyword table (lib/Lexer/Lexer.cpp) *)
(* ===================================================================== *)

Definition keywords : list (string * TokenKind) :=
  [ ("module", KwModule); ("import", KwImport); ("func", KwFunc);
    ("let", KwLet); ("mut", KwMut); ("const", KwConst);
    ("struct", KwStruct); ("class", KwClass); ("enum", KwEnum);
    ("trait", KwTrait); ("impl", KwImpl); ("type", KwType);
    ("self", KwSelf); ("Self", KwSelfType); ("if", KwIf); ("else", KwElse);
    ("match", KwMatch); ("for", KwFor); ("while", KwWhile);
    ("loop", KwLoop); ("break", KwBreak); ("continue", KwContinue);
    ("return", KwReturn); ("in", KwIn); ("move", KwMove); ("ref", KwRef);
    ("drop", KwDrop); ("async", KwAsync); ("await", KwAwait);
    ("spawn", KwSpawn); ("unsafe", KwUnsafe); ("pub", KwPub);
    ("public", KwPublic); ("private", KwPrivate); ("true", KwTrue);
    ("false", KwFalse); ("and", KwAnd); ("or", KwOr); ("not", KwNot);
    ("as", KwAs); ("is", KwIs); ("where", KwWhere); ("use", KwUse);
    ("Void", KwVoid); ("panic", KwPanic); ("assert", KwAssert) ].

Fixpoint findKeyword (tbl : list (string * TokenKind)) (txt : string)
    : option TokenKind :=
  match tbl with
  | [] => None
  | (k, v) :: tbl' => if String.eqb k txt then Some v else findKeyword tbl' txt
  end.

(** [Lexer::identifierKind] *)
Definition identifierKind (txt : string) : TokenKind :=
  match findKeyword keywords txt with
  | Some k => k
  | None => Identifier
  end.

(* ===================================================================== *)
(** ** The lexer state and its monad *)
(* ===================================================================== *)

(** The data members of [class Lexer] other than the engine reference. *)
Record Lexer := mkLexer {
  source_ : string;
  filename_ : string;
  current_ : N;
  tokenStart_ : N;
  line_ : N;
  column_ : N;
  tokenLine_ : N;
  tokenColumn_ : N;
  hasPeeked_ : bool;
  peekedToken_ : Token
}.

(** [Lexer::Lexer] *)
Definition newLexer (source filename : string) : Lexer :=
  {| source_ := source; filename_ := filename;
     current_ := 0; tokenStart_ := 0; line_ := 1; column_ := 1;
     tokenLine_ := 1; tokenColumn_ := 1;
     hasPeeked_ := false; peekedToken_ := defaultToken |}.

(** [Lexer::State] *)
Record State := mkState {
  st_current : N;
  st_tokenStart : N;
  st_line : N;
  st_column : N;
  st_tokenLine : N;
  st_tokenColumn : N;
  st_hasPeeked : bool;
  st_peekedToken : Token
}.

(** [Lexer::saveState] *)
Definition saveState (L : Lexer) : State :=
  {| st_current := current_ L; st_tokenStart := tokenStart_ L;
     st_line := line_ L; st_column := column_ L;
     st_tokenLine := tokenLine_ L; st_tokenColumn := tokenColumn_ L;
     st_hasPeeked := hasPeeked_ L; st_peekedToken := peekedToken_ L |}.

(** [Lexer::restoreState] *)
Definition restoreState (s : State) (L : Lexer) : Lexer :=
  {| source_ := source_ L; filename_ := filename_ L;
     current_ := st_current s; tokenStart_ := st_tokenStart s;
     line_ := st_line s; column_ := st_column s;
     tokenLine_ := st_tokenLine s; tokenColumn_ := st_tokenColumn s;
     hasPeeked_ := st_hasPeeked s; peekedToken_ := st_peekedToken s |}.

(** Assignments to single members. *)
Definition set_current (v : N) (L : Lexer) : Lexer :=
  {| source_ := source_ L; filename_ := filename_ L;
     current_ := v; tokenStart_ := tokenStart_ L;
     line_ := line_ L; column_ := column_ L;
     tokenLine_ := tokenLine_ L; tokenColumn_ := tokenColumn_ L;
     hasPeeked_ := hasPeeked_ L; peekedToken_ := peekedToken_ L |}.

Definition set_line (v : N) (L : Lexer) : Lexer :=
  {| source_ := source_ L; filename_ := filename_ L;
     current_ := current_ L; tokenStart_ := tokenStart_ L;
     line_ := v; column_ := column_ L;
     tokenLine_ := tokenLine_ L; tokenColumn_ := tokenColumn_ L;
     hasPeeked_ := hasPeeked_ L; peekedToken_ := peekedToken_ L |}.

Definition set_column (v : N) (L : Lexer) : Lexer :=
  {| source_ := source_ L; filename_ := filename_ L;
     current_ := current_ L; tokenStart_ := tokenStart_ L;
     line_ := line_ L; column_ := v;
     tokenLine_ := tokenLine_ L; tokenColumn_ := tokenColumn_ L;
     hasPeeked_ := hasPeeked_ L; peekedToken_ := peekedToken_ L |}.

(** [tokenStart_ = current_; tokenLine_ = line_; tokenColumn_ = column_;] *)
Definition markTokenStart (L : Lexer) : Lexer :=
  {| source_ := source_ L; filename_ := filename_ L;
     current_ := current_ L; tokenStart_ := current_ L;
     line_ := line_ L; column_ := column_ L;
     tokenLine_ := line_ L; tokenColumn_ := column_ L;
     hasPeeked_ := hasPeeked_ L; peekedToken_ := peekedToken_ L |}.

Definition set_hasPeeked (v : bool) (L : Lexer) : Lexer :=
  {| source_ := source_ L; filename_ := filename_ L;
     current_ := current_ L; tokenStart_ := tokenStart_ L;
     line_ := line_ L; column_ := column_ L;
     tokenLine_ := tokenLine_ L; tokenColumn_ := tokenColumn_ L;
     hasPeeked_ := v; peekedToken_ := peekedToken_ L |}.

Definition set_peekedToken (v : Token) (L : Lexer) : Lexer :=
  {| source_ := source_ L; filename_ := filename_ L;
     current_ := current_ L; tokenStart_ := tokenStart_ L;
     line_ := line_ L; column_ := column_ L;
     tokenLine_ := tokenLine_ L; tokenColumn_ := tokenColumn_ L;
     hasPeeked_ := hasPeeked_ L; peekedToken_ := v |}.

(** Exceptions of the C++ standard library that the lexer can raise. *)
Inductive Exn := invalid_argument | out_of_range.

(** A call returns a value, leaves by an exception, or is still inside one
    of its loops when the fuel of the model is used up. *)
Inductive Outcome (A : Type) :=
  | Ok (a : A)
  | Throw (e : Exn)
  | Diverge.
Arguments Ok {A} a.
Arguments Throw {A} e.
Arguments Diverge {A}.

(** Member functions act on the lexer and on the engine it refers to. *)
Definition M (A : Type) : Type :=
  Lexer -> DiagnosticEngine -> Outcome A * Lexer * DiagnosticEngine.

#[global] Instance M_ret : MRet M := fun A a L d => (Ok a, L, d).

#[global] Instance M_bind : MBind M := fun A B k m L d =>
  match m L d with
  | (Ok a, L', d') => k a L' d'
  | (Throw e, L', d') => (Throw e, L', d')
  | (Diverge, L', d') => (Diverge, L', d')
  end.

Definition throw {A} (e : Exn) : M A := fun L d => (Throw e, L, d).
Definition diverge {A} : M A := fun L d => (Diverge, L, d).
Definition gets {A} (f : Lexer -> A) : M A := fun L d => (Ok (f L), L, d).
Definition modify (f : Lexer -> Lexer) : M unit := fun L d => (Ok tt, f L, d).
Definition getLexer : M Lexer := gets (fun L => L).
Definition diagError (loc : SourceLocation) (msg : string) : M unit :=
  fun L d => (Ok tt, L, emitError loc msg d).

(* ===================================================================== *)
(** ** Lexer implementation (lib/Lexer/Lexer.cpp) *)
(* ===================================================================== *)

Definition sourceSize (L : Lexer) : N := N.of_nat (String.length (source_ L)).

(** [source_[i]]; reading past the end is not defined by the language and
    never happens on the paths below, the model answers NUL there. *)
Definition charAt (s : string) (i : N) : ascii :=
  match String.get (N.to_nat i) s with
  | Some c => c
  | None => NUL
  end.

(** [Lexer::isAtEnd] *)
Definition isAtEnd (L : Lexer) : bool := sourceSize L <=? current_ L.

(** [Lexer::peek] *)
Definition peek (L : Lexer) : ascii :=
  if isAtEnd L then NUL else charAt (source_ L) (current_ L).

(** [Lexer::peekNext]; [current_ + 1] is computed in 32 bits. *)
Definition peekNext (L : Lexer) : ascii :=
  if sourceSize L <=? inc32 (current_ L) then NUL
  else charAt (source_ L) (inc32 (current_ L)).

Definition advanceL (L : Lexer) : ascii * Lexer :=
  let c := charAt (source_ L) (current_ L) in
  let L1 := set_current (inc32 (current_ L)) L in
  if Ascii.eqb c LF
  then (c, set_column 1 (set_line (inc32 (line_ L1)) L1))
  else (c, set_column (inc32 (column_ L1)) L1).

(** [Lexer::advance] *)
Definition advance : M ascii :=
  fun L d => let (c, L') := advanceL L in (Ok c, L', d).

(** [Lexer::match] *)
Definition matchChar (expected : ascii) : M bool :=
  e ← gets isAtEnd;
  c ← gets (fun L => charAt (source_ L) (current_ L));
  if e || negb (Ascii.eqb c expected) then mret false
  else advance;; mret true.

(** The loop [while (!isAtEnd() && p(peek())) advance();] which the token
    producers repeat with different character classes. *)
Fixpoint advanceWhile (fuel : nat) (p : ascii -> bool) : M unit :=
  match fuel with
  | O => diverge
  | S fuel' =>
      e ← gets isAtEnd;
      c ← gets peek;
      if negb e && p c then advance;; advanceWhile fuel' p
      else mret tt
  end.

(** [Lexer::skipLineComment] *)
Definition skipLineComment (fuel : nat) : M unit :=
  advance;; advance;;
  advanceWhile fuel (fun c => negb (Ascii.eqb c LF)).

Fixpoint skipBlockCommentLoop (fuel : nat) (depth : N) : M N :=
  match fuel with
  | O => diverge
  | S fuel' =>
      e ← gets isAtEnd;
      if negb e && (0 <? depth) then
        c ← gets peek;
        n ← gets peekNext;
        if Ascii.eqb c "/" && Ascii.eqb n "*" then
          advance;; advance;; skipBlockCommentLoop fuel' (depth + 1)
        else if Ascii.eqb c "*" && Ascii.eqb n "/" then
          advance;; advance;; skipBlockCommentLoop fuel' (depth - 1)
        else
          advance;; skipBlockCommentLoop fuel' depth
      else mret depth
  end.

(** [Lexer::skipBlockComment] *)
Definition skipBlockComment (fuel : nat) : M bool :=
  advance;; advance;;
  depth ← skipBlockCommentLoop fuel 1;
  if 0 <? depth then
    loc ← gets (fun L => {| loc_filename := filename_ L; loc_line := line_ L;
                            loc_column := column_ L; loc_offset := 0 |});
    diagError loc "unterminated block comment";;
    mret false
  else mret true.

(** [Lexer::skipWhitespace] *)
Fixpoint skipWhitespace (fuel : nat) : M unit :=
  match fuel with
  | O => diverge
  | S fuel' =>
      e ← gets isAtEnd;
      if (e : bool) then mret tt else
      c ← gets peek;
      if Ascii.eqb c " " || Ascii.eqb c TAB || Ascii.eqb c CR || Ascii.eqb c LF
      then advance;; skipWhitespace fuel'
      else if Ascii.eqb c "/" then
        n ← gets peekNext;
        if Ascii.eqb n "/" then
          skipLineComment fuel';; skipWhitespace fuel'
        else if Ascii.eqb n "*" then
          ok ← skipBlockComment fuel';
          if (ok : bool) then skipWhitespace fuel' else mret tt
        else mret tt
      else mret tt
  end.

(** [std::string_view::substr]: raises [out_of_range] when [pos > size()],
    otherwise clips the count to the end of the view. *)
Definition substr (s : string) (pos n : N) : M string :=
  if N.of_nat (String.length s) <? pos then throw out_of_range
  else mret (String.substring (N.to_nat pos) (N.to_nat n) s).

Definition tokenLoc (L : Lexer) : SourceLocation :=
  {| loc_filename := filename_ L; loc_line := tokenLine_ L;
     loc_column := tokenColumn_ L; loc_offset := tokenStart_ L |}.

(** The lexeme [source_.substr(tokenStart_, current_ - tokenStart_)]. *)
Definition lexeme : M string :=
  L ← getLexer;
  substr (source_ L) (tokenStart_ L) (sub32 (current_ L) (tokenStart_ L)).

(** [Lexer::makeToken(TokenKind, std::string_view)] *)
Definition makeTokenText (k : TokenKind) (txt : string) : M Token :=
  loc ← gets tokenLoc;
  mret {| kind := k; text := txt; location := loc; litValue := IntValue 0 |}.

(** [Lexer::makeToken(TokenKind)] *)
Definition makeToken (k : TokenKind) : M Token :=
  txt ← lexeme;
  makeTokenText k txt.

(** [Lexer::errorToken] *)
Definition errorToken (msg : string) : M Token :=
  loc ← gets tokenLoc;
  diagError loc msg;;
  txt ← lexeme;
  mret {| kind := Invalid; text := txt; location := loc;
          litValue := IntValue 0 |}.

(** [Lexer::lexIdentifierOrKeyword] *)
Definition lexIdentifierOrKeyword (fuel : nat) : M Token :=
  advanceWhile fuel isIdentChar;;
  txt ← lexeme;
  makeTokenText (identifierKind txt) txt.

(** The copies [clean] of a lexeme without its underscores. *)
Fixpoint removeUnderscores (s : string) : string :=
  match s with
  | EmptyString => EmptyString
  | String c s' =>
      if Ascii.eqb c "_" then removeUnderscores s'
      else String c (removeUnderscores s')
  end.

Fixpoint dropString (n : nat) (s : string) : string :=
  match n, s with
  | O, _ => s
  | S n', EmptyString => EmptyString
  | S n', String _ s' => dropString n' s'
  end.

(** Digit values as [strtoll] reads them. *)
Definition digitValue (c : ascii) : option N :=
  if isdigit c then Some (N_of_ascii c - 48)
  else if isupper c then Some (N_of_ascii c - 55)
  else if islower c then Some (N_of_ascii c - 87)
  else None.

(** The value of the longest prefix of digits of the base, [None] when
    that prefix is empty. *)
Fixpoint parseDigits (base : N) (s : string) (acc : option N) : option N :=
  match s with
  | EmptyString => acc
  | String c s' =>
      match digitValue c with
      | Some v =>
          if v <? base
          then parseDigits base s' (Some (default 0 acc * base + v))
          else acc
      | None => acc
      end
  end.

(** [std::stoll(str, nullptr, base)] on the strings [lexNumber] builds,
    which hold digits only: no white space, sign or base prefix.  It raises
    [invalid_argument] when no digit can be read and [out_of_range] when the
    value does not fit [long long]. *)
Definition stoll (s : string) (base : N) : M Z :=
  match parseDigits base s None with
  | None => throw invalid_argument
  | Some v => if INT64_MAX <? v then throw out_of_range else mret (Z.of_N v)
  end.

Section LexerImpl.

(** [std::stod] rounds a numeral to a [double] and raises [out_of_range]
    when the C library reports a range error; which numerals those are
    depends on the platform. *)
Variable stod_out_of_range : string -> bool.

Definition stod (s : string) : M LiteralValue :=
  if stod_out_of_range s then throw out_of_range
  else mret (FloatValue s).

(** The three prefixed forms of [lexNumber] end alike. *)
Definition finishPrefixed (base : N) : M Token :=
  token ← makeToken IntLiteral;
  let clean := removeUnderscores (dropString 2 (text token)) in
  v ← stoll clean base;
  mret (setLitValue token (IntValue v)).

(** [Lexer::lexNumber], from "Decimal integer or float" on. *)
Definition lexDecimal (fuel : nat) : M Token :=
  advanceWhile fuel isDecChar;;
  c ← gets peek;
  n ← gets peekNext;
  isFloat ←
    (if Ascii.eqb c "." && negb (Ascii.eqb n ".") then
       advance;; advanceWhile fuel isDecChar;; mret true
     else mret false);
  c ← gets peek;
  let finish (isFloat : bool) : M Token :=
    if isFloat then
      token ← makeToken FloatLiteral;
      let clean := removeUnderscores (text token) in
      v ← stod clean;
      mret (setLitValue token v)
    else
      token ← makeToken IntLiteral;
      let clean := removeUnderscores (text token) in
      v ← stoll clean 10;
      mret (setLitValue token (IntValue v)) in
  if Ascii.eqb c "e" || Ascii.eqb c "E" then
    advance;;
    c ← gets peek;
    (if Ascii.eqb c "+" || Ascii.eqb c "-" then advance;; mret tt
     else mret tt);;
    c ← gets peek;
    if negb (isdigit c) then errorToken "expected digit in exponent"
    else advanceWhile fuel isDecChar;; finish true
  else finish isFloat.

(** [Lexer::lexNumber] *)
Definition lexNumber (fuel : nat) : M Token :=
  c ← gets peek;
  e ← gets isAtEnd;
  if Ascii.eqb c "0" && negb e then
    next ← gets peekNext;
    if Ascii.eqb next "x" || Ascii.eqb next "X" then
      advance;; advance;;
      e ← gets isAtEnd;
      c ← gets peek;
      if negb e && negb (isxdigit c)
      then errorToken "expected hexadecimal digit after '0x'"
      else advanceWhile fuel isHexChar;; finishPrefixed 16
    else if Ascii.eqb next "b" || Ascii.eqb next "B" then
      advance;; advance;;
      e ← gets isAtEnd;
      c ← gets peek;
      if negb e && negb (Ascii.eqb c "0") && negb (Ascii.eqb c "1")
      then errorToken "expected binary digit after '0b'"
      else advanceWhile fuel isBinChar;; finishPrefixed 2
    else if Ascii.eqb next "o" || Ascii.eqb next "O" then
      advance;; advance;;
      advanceWhile fuel isOctChar;; finishPrefixed 8
    else lexDecimal fuel
  else lexDecimal fuel.

Fixpoint lexStringLoop (fuel : nat) : M (option Token) :=
  match fuel with
  | O => diverge
  | S fuel' =>
      e ← gets isAtEnd;
      c ← gets peek;
      if negb e && negb (Ascii.eqb c DQUOTE) then
        if Ascii.eqb c BACKSLASH then
          advance;;
          e ← gets isAtEnd;
          if (e : bool) then
            t ← errorToken "unterminated string literal"; mret (Some t)
          else advance;; lexStringLoop fuel'
        else if Ascii.eqb c LF then
          t ← errorToken "unterminated string literal (newline in string)";
          mret (Some t)
        else advance;; lexStringLoop fuel'
      else mret None
  end.

(** [Lexer::lexString] *)
Definition lexString (fuel : nat) : M Token :=
  advance;;
  contentStart ← gets current_;
  r ← lexStringLoop fuel;
  match (r : option Token) with
  | Some t => mret t
  | None =>
      e ← gets isAtEnd;
      if (e : bool) then errorToken "unterminated string literal"
      else
        contentEnd ← gets current_;
        advance;;
        token ← makeToken StringLiteral;
        src ← gets source_;
        txt ← substr src contentStart (sub32 contentEnd contentStart);
        mret (setText token txt)
  end.

(** [Lexer::lexChar] *)
Definition lexChar : M Token :=
  advance;;
  e ← gets isAtEnd;
  if (e : bool) then errorToken "unterminated character literal" else
  c ← gets peek;
  let closing : M Token :=
    e ← gets isAtEnd;
    c ← gets peek;
    if e || negb (Ascii.eqb c SQUOTE)
    then errorToken "unterminated character literal (expected closing ')"
    else advance;; makeToken CharLiteral in
  if Ascii.eqb c BACKSLASH then
    advance;;
    e ← gets isAtEnd;
    if (e : bool) then errorToken "unterminated character literal"
    else advance;; closing
  else advance;; closing.

(** [Lexer::lexAnnotation] *)
Definition lexAnnotation (fuel : nat) : M Token :=
  advance;;
  nameStart ← gets current_;
  advanceWhile fuel isIdentChar;;
  L ← getLexer;
  name ← substr (source_ L) nameStart (sub32 (current_ L) nameStart);
  if String.eqb name "doc" then makeToken KwDoc
  else if String.eqb name "deprecated" then makeToken KwDeprecated
  else if String.eqb name "test" then makeToken KwTest
  else
    modify (fun L => set_column (inc32 (tokenColumn_ L))
                       (set_line (tokenLine_ L) (set_current nameStart L)));;
    makeToken At.

(** The [switch] on operators and punctuation that ends [nextToken]. *)
Definition lexPunctuation (c : ascii) : M Token :=
  let two (second : ascii) (yes no : TokenKind) : M Token :=
    m ← matchChar second;
    if (m : bool) then makeToken yes else makeToken no in
  let three (s1 : ascii) (k1 : TokenKind) (s2 : ascii) (k2 : TokenKind)
      (no : TokenKind) : M Token :=
    m ← matchChar s1;
    if (m : bool) then makeToken k1 else two s2 k2 no in
  if Ascii.eqb c "(" then makeToken LParen
  else if Ascii.eqb c ")" then makeToken RParen
  else if Ascii.eqb c "[" then makeToken LBracket
  else if Ascii.eqb c "]" then makeToken RBracket
  else if Ascii.eqb c "{" then makeToken LBrace
  else if Ascii.eqb c "}" then makeToken RBrace
  else if Ascii.eqb c "," then makeToken Comma
  else if Ascii.eqb c ";" then makeToken Semicolon
  else if Ascii.eqb c "~" then makeToken Tilde
  else if Ascii.eqb c "?" then makeToken Question
  else if Ascii.eqb c ":" then two ":"%char ColonColon Colon
  else if Ascii.eqb c "." then
    m ← matchChar "."%char;
    if (m : bool) then two "."%char DotDotDot DotDot else makeToken Dot
  else if Ascii.eqb c "+" then two "="%char PlusEqual Plus
  else if Ascii.eqb c "-" then three ">"%char Arrow "="%char MinusEqual Minus
  else if Ascii.eqb c "*" then two "="%char StarEqual Star
  else if Ascii.eqb c "/" then two "="%char SlashEqual Slash
  else if Ascii.eqb c "%" then two "="%char PercentEqual Percent
  else if Ascii.eqb c "=" then three "="%char EqualEqual ">"%char FatArrow Equal
  else if Ascii.eqb c "!" then
    m ← matchChar "="%char;
    if (m : bool) then makeToken BangEqual
    else errorToken "unexpected character '!'"
  else if Ascii.eqb c "<" then three "="%char LessEqual "<"%char ShiftLeft Less
  else if Ascii.eqb c ">" then three "="%char GreaterEqual ">"%char ShiftRight Greater
  else if Ascii.eqb c "&" then two "="%char AmpersandEqual Ampersand
  else if Ascii.eqb c "|" then two "="%char PipeEqual Pipe
  else if Ascii.eqb c "^" then two "="%char CaretEqual Caret
  else if Ascii.eqb c "#" then two "!"%char HashBang Hash
  else errorToken ("unexpected character '" +:+ String c "'").

(** [--current_; --column_;] *)
Definition backUp : M unit :=
  modify (fun L => set_column (dec32 (column_ L))
                     (set_current (dec32 (current_ L)) L)).

(** [Lexer::nextToken] *)
Definition nextToken (fuel : nat) : M Token :=
  hp ← gets hasPeeked_;
  if (hp : bool) then
    modify (set_hasPeeked false);;
    gets peekedToken_
  else
    skipWhitespace fuel;;
    modify markTokenStart;;
    e ← gets isAtEnd;
    if (e : bool) then makeToken Eof else
    c ← advance;
    if isalpha c || Ascii.eqb c "_" then
      (* Identifiers and keywords *)
      e ← gets isAtEnd;
      p ← gets peek;
      if Ascii.eqb c "_" && (e || (negb (isalnum p) && negb (Ascii.eqb p "_")))
      then makeToken Underscore
      else lexIdentifierOrKeyword fuel
    else if isdigit c then
      (* Numbers *)
      modify (fun L => set_current (dec32 (current_ L)) L);;
      (if Ascii.eqb c LF
       then modify (fun L => set_line (dec32 (line_ L)) L)
       else modify (fun L => set_column (dec32 (column_ L)) L));;
      lexNumber fuel
    else if Ascii.eqb c DQUOTE then
      (* Strings *)
      backUp;; lexString fuel
    else if Ascii.eqb c SQUOTE then
      (* Characters or lifetime *)
      e ← gets isAtEnd;
      p ← gets peek;
      if negb e && isalpha p then
        saved ← gets (fun L => (current_ L, line_ L, column_ L));
        let '(savedCurrent, savedLine, savedColumn) := saved in
        _ ← advance;
        e ← gets isAtEnd;
        p ← gets peek;
        if negb e && Ascii.eqb p SQUOTE then
          modify (fun L => set_column savedColumn
                             (set_line savedLine
                                (set_current savedCurrent L)));;
          backUp;; lexChar
        else
          advanceWhile fuel isIdentChar;;
          makeToken Apostrophe
      else if negb e && Ascii.eqb p BACKSLASH then
        backUp;; lexChar
      else makeToken Apostrophe
    else if Ascii.eqb c "@" then
      (* Annotations *)
      e ← gets isAtEnd;
      p ← gets peek;
      if negb e && isalpha p then backUp;; lexAnnotation fuel
      else makeToken At
    else lexPunctuation c.

(** [Lexer::peekToken] *)
Definition peekToken (fuel : nat) : M Token :=
  hp ← gets hasPeeked_;
  (if (hp : bool) then mret tt
   else
     t ← nextToken fuel;
     modify (set_peekedToken t);;
     modify (set_hasPeeked true));;
  gets peekedToken_.

Fixpoint lexAllLoop (fuel : nat) (n : nat) (tokens : list Token)
    : M (list Token) :=
  match n with
  | O => diverge
  | S n' =>
      token ← nextToken fuel;
      let tokens := tokens ++ [token] in
      if isEofKind (kind token) then mret tokens
      else lexAllLoop fuel n' tokens
  end.

(** [Lexer::lexAll]; [fuel] bounds every loop, this one included. *)
Definition lexAll (fuel : nat) : M (list Token) :=
  lexAllLoop fuel fuel [].

End LexerImpl.

(** A fresh lexer over a fresh engine, as the tests build them. *)
Definition lex (stod_oor : string -> bool) (fuel : nat) (source : string)
    : Outcome (list Token) * Lexer * DiagnosticEngine :=
  lexAll stod_oor fuel (newLexer source "<test>") newEngine.

Definition kinds (r : Outcome (list Token) * Lexer * DiagnosticEngine)
    : Outcome (list TokenKind) :=
  match r with
  | (Ok ts, _, _) => Ok (map kind ts)
  | (Throw e, _, _) => Throw e
  | (Diverge, _, _) => Diverge
  end.

(* ===================================================================== *)
(** ** The abstract syntax tree (include/flux/AST) *)
(* ===================================================================== *)

(** Induction principles for the node types go through the containers that
    hold their children. *)
Scheme All for list.
Scheme All for option.
Scheme All for prod.

(** Type references (AST/Type.h).  The kinds [Option], [Result] and
    [Inferred] of [TypeNode::Kind] have no node class and cannot be built. *)
Inductive TypeNode :=
  | NamedType (loc : SourceLocation) (path : list string)
  | GenericType (loc : SourceLocation) (base : list string)
      (typeArguments : list TypeNode)
  | ReferenceType (loc : SourceLocation) (inner : TypeNode)
      (lifetime : option string)
  | MutRefType (loc : SourceLocation) (inner : TypeNode)
      (lifetime : option string)
  | TupleType (loc : SourceLocation) (elements : list TypeNode)
  | FunctionType (loc : SourceLocation) (paramTypes : list TypeNode)
      (returnType : TypeNode)
  | ArrayType (loc : SourceLocation) (elementType : TypeNode)
      (size : option N).

Module BinaryOp.
Inductive t :=
    | Add | Sub | Mul | Div | Mod
    | Equal | NotEqual | Less | LessEqual | Greater | GreaterEqual
    | And | Or | BitAnd | BitOr | BitXor | ShiftLeft | ShiftRight.
End BinaryOp.

Module UnaryOp.
Inductive t := Negate | Not | BitwiseNot.
End UnaryOp.

Module CompoundAssignOp.
Inductive t :=
    | AddAssign | SubAssign | MulAssign | DivAssign | ModAssign
    | AndAssign | OrAssign | XorAssign.
End CompoundAssignOp.

Record ClosureParam := mkClosureParam {
  cp_name : string;
  cp_type : option TypeNode
}.

(** Expressions (AST/Expr.h), statements (AST/Stmt.h) and patterns
    (AST/Pattern.h).  A child that the passes dereference without a test is
    a plain node, a child they test for null is an [option]. *)
Inductive Expr :=
  | IntLiteralExpr (loc : SourceLocation) (value : Z)
  | FloatLiteralExpr (loc : SourceLocation) (value : string)
  | StringLiteralExpr (loc : SourceLocation) (value : string)
  | CharLiteralExpr (loc : SourceLocation) (value : N)
  | BoolLiteralExpr (loc : SourceLocation) (value : bool)
  | IdentExpr (loc : SourceLocation) (name : string)
  | PathExpr (loc : SourceLocation) (segments : list string)
  | BinaryExpr (loc : SourceLocation) (op : BinaryOp.t) (lhs rhs : Expr)
  | UnaryExpr (loc : SourceLocation) (op : UnaryOp.t) (operand : Expr)
  | CallExpr (loc : SourceLocation) (callee : Expr) (arguments : list Expr)
  | MethodCallExpr (loc : SourceLocation) (object : Expr) (method : string)
      (arguments : list Expr)
  | MemberAccessExpr (loc : SourceLocation) (object : Expr) (member : string)
  | IndexExpr (loc : SourceLocation) (object index : Expr)
  | CastExpr (loc : SourceLocation) (expr : Expr) (targetType : TypeNode)
  | BlockExpr (loc : SourceLocation) (statements : list Stmt)
      (finalExpr : option Expr)
  | IfExpr (loc : SourceLocation) (condition thenExpr : Expr)
      (elseExpr : option Expr)
  | MatchExpr (loc : SourceLocation) (scrutinee : Expr) (arms : list MatchArm)
  | ClosureExpr (loc : SourceLocation) (params : list ClosureParam)
      (returnType : option TypeNode) (body : Expr) (isMoveCapture : bool)
  | ConstructExpr (loc : SourceLocation) (typePath : option Expr)
      (fields : list FieldInit)
  | StructLiteralExpr (loc : SourceLocation) (typeName : string)
      (fields : list (string * Expr))
  | TupleExpr (loc : SourceLocation) (elements : list Expr)
  | ArrayExpr (loc : SourceLocation) (elements : list Expr)
  | RangeExpr (loc : SourceLocation) (start end_ : option Expr)
      (inclusive : bool)
  | RefExpr (loc : SourceLocation) (operand : Expr)
  | MutRefExpr (loc : SourceLocation) (operand : Expr)
  | MoveExpr (loc : SourceLocation) (operand : Expr)
  | AwaitExpr (loc : SourceLocation) (operand : Expr)
  | TryExpr (loc : SourceLocation) (operand : Expr)
  | AssignExpr (loc : SourceLocation) (target value : Expr)
  | CompoundAssignExpr (loc : SourceLocation) (op : CompoundAssignOp.t)
      (target value : Expr)

with MatchArm :=
  | mkMatchArm (pattern : Pattern) (guard : option Expr) (body : Expr)
      (loc : SourceLocation)

with FieldInit :=
  | mkFieldInit (name : string) (value : Expr) (loc : SourceLocation)

with Pattern :=
  | WildcardPattern (loc : SourceLocation)
  | IdentPattern (loc : SourceLocation) (name : string) (isMutable : bool)
  | LiteralPattern (loc : SourceLocation) (literal : Expr)
  | TuplePattern (loc : SourceLocation) (elements : list Pattern)
  | ConstructorPattern (loc : SourceLocation) (path : list string)
      (positionalFields : list Pattern)
      (namedFields : list (string * Pattern))
  | OrPattern (loc : SourceLocation) (alternatives : list Pattern)

with Stmt :=
  | LetStmt (loc : SourceLocation) (name : string) (type : option TypeNode)
      (initializer : option Expr) (isMutable : bool)
  | ConstStmt (loc : SourceLocation) (name : string) (type : option TypeNode)
      (value : option Expr)
  | ReturnStmt (loc : SourceLocation) (value : option Expr)
  | IfStmt (loc : SourceLocation) (condition : Expr) (thenBranch : Stmt)
      (elseBranch : option Stmt)
  | MatchStmt (loc : SourceLocation) (scrutinee : Expr) (arms : list MatchArm)
  | ForStmt (loc : SourceLocation) (varName : string)
      (varType : option TypeNode) (iterable : Expr) (body : Stmt)
  | WhileStmt (loc : SourceLocation) (condition : Expr) (body : Stmt)
  | LoopStmt (loc : SourceLocation) (body : Stmt)
  | BreakStmt (loc : SourceLocation)
  | ContinueStmt (loc : SourceLocation)
  | BlockStmt (loc : SourceLocation) (statements : list Stmt)
  | ExprStmt (loc : SourceLocation) (expression : Expr).

Definition exprLoc (e : Expr) : SourceLocation :=
  match e with
  | IntLiteralExpr l _ | FloatLiteralExpr l _ | StringLiteralExpr l _
  | CharLiteralExpr l _ | BoolLiteralExpr l _ | IdentExpr l _ | PathExpr l _
  | BinaryExpr l _ _ _ | UnaryExpr l _ _ | CallExpr l _ _
  | MethodCallExpr l _ _ _ | MemberAccessExpr l _ _ | IndexExpr l _ _
  | CastExpr l _ _ | BlockExpr l _ _ | IfExpr l _ _ _ | MatchExpr l _ _
  | ClosureExpr l _ _ _ _ | ConstructExpr l _ _ | StructLiteralExpr l _ _
  | TupleExpr l _ | ArrayExpr l _ | RangeExpr l _ _ _ | RefExpr l _
  | MutRefExpr l _ | MoveExpr l _ | AwaitExpr l _ | TryExpr l _
  | AssignExpr l _ _ | CompoundAssignExpr l _ _ _ => l
  end.

(** Declarations (AST/Decl.h). *)
Inductive Visibility := Private | Public.

Record GenericParam := mkGenericParam {
  gp_name : string;
  gp_traitBounds : list string;
  gp_lifetime : option string;
  gp_location : SourceLocation
}.

Record FuncParam := mkFuncParam {
  fp_name : string;
  fp_type : option TypeNode;
  fp_isMutable : bool;
  fp_isSelf : bool;
  fp_isRef : bool;
  fp_isMutRef : bool;
  fp_location : SourceLocation
}.

Record FuncDecl := mkFuncDecl {
  fd_location : SourceLocation;
  fd_visibility : Visibility;
  fd_name : string;
  fd_genericParams : list GenericParam;
  fd_params : list FuncParam;
  fd_returnType : option TypeNode;
  fd_body : option (list Stmt);   (* the statements of the [BlockStmt] *)
  fd_isAsync : bool;
  fd_isUnsafe : bool
}.

Record FieldDecl := mkFieldDecl {
  fld_name : string;
  fld_type : option TypeNode;
  fld_visibility : Visibility;
  fld_location : SourceLocation
}.

Inductive VariantKind := UnitVariant | TupleVariant | StructVariant.

Record EnumVariant := mkEnumVariant {
  ev_name : string;
  ev_variantKind : VariantKind;
  ev_tupleFields : list (option TypeNode);
  ev_structFields : list FieldDecl;
  ev_location : SourceLocation
}.

Inductive Decl :=
  | ModuleDecl (loc : SourceLocation) (vis : Visibility) (path : list string)
  | ImportDecl (loc : SourceLocation) (vis : Visibility) (path : list string)
      (alias : option string)
  | FuncDeclD (fd : FuncDecl)
  | StructDecl (loc : SourceLocation) (vis : Visibility) (name : string)
      (genericParams : list GenericParam) (fields : list FieldDecl)
  | ClassDecl (loc : SourceLocation) (vis : Visibility) (name : string)
      (genericParams : list GenericParam) (fields : list FieldDecl)
      (methods : list FuncDecl)
  | EnumDecl (loc : SourceLocation) (vis : Visibility) (name : string)
      (genericParams : list GenericParam) (variants : list EnumVariant)
  | TraitDecl (loc : SourceLocation) (vis : Visibility) (name : string)
      (genericParams : list GenericParam) (superTraits : list string)
      (methods : list FuncDecl)
  | ImplDecl (loc : SourceLocation) (vis : Visibility)
      (targetType : option TypeNode) (traitName : option string)
      (genericParams : list GenericParam) (methods : list FuncDecl)
  | TypeAliasDecl (loc : SourceLocation) (vis : Visibility) (name : string)
      (genericParams : list GenericParam) (aliasedType : option TypeNode).

(** [ast::Module] *)
Record Module_ := mkModule {
  mod_name : string;
  mod_imports : list string;
  declarations : list Decl;
  mod_location : SourceLocation
}.

(* ===================================================================== *)
(** ** Symbols and scopes (include/flux/Sema/NameResolution.h) *)
(* ===================================================================== *)

Module SymbolKind.
Inductive t :=
    | Variable_ | Function | Struct | Class | Enum | Trait | TypeAlias
    | GenericParam | Module_ | EnumVariant.
End SymbolKind.

Record Symbol := mkSymbol {
  sym_kind : SymbolKind.t;
  sym_name : string;
  sym_qualifiedName : string;
  sym_location : SourceLocation;
  sym_visibility : Visibility;
  sym_isMutable : bool;
  sym_isConst : bool;
  sym_typeName : string;
  sym_paramTypes : list string;
  sym_returnType : string;
  sym_isAsync : bool;
  sym_genericParams : list string
}.

(** A [Symbol sym;] with [name], [kind], [location], [visibility] and
    [isMutable] assigned; the other members keep their initializers. *)
Definition symbolOf (k : SymbolKind.t) (name : string)
    (loc : SourceLocation) (vis : Visibility) (isMutable : bool) : Symbol :=
  {| sym_kind := k; sym_name := name; sym_qualifiedName := "";
     sym_location := loc; sym_visibility := vis;
     sym_isMutable := isMutable; sym_isConst := false;
     sym_typeName := ""; sym_paramTypes := []; sym_returnType := "";
     sym_isAsync := false; sym_genericParams := [] |}.

(** A scope with the child scopes attached to it so far. *)
Inductive Scope :=
  | mkScope (name : string) (symbols : gmap string Symbol)
      (children : list Scope).

Definition scopeName (s : Scope) : string :=
  match s with mkScope n _ _ => n end.
Definition symbols (s : Scope) : gmap string Symbol :=
  match s with mkScope _ m _ => m end.
Definition children (s : Scope) : list Scope :=
  match s with mkScope _ _ c => c end.

(** The resolver only ever follows [currentScope_] and its [parent] links,
    and moves [currentScope_] by [enterScope] and [exitScope].  The scope
    tree with that pointer into it is kept as the chain of open scopes:
    [currentScope_] first, then its parent, ..., the root last.  A scope is
    attached to its parent's [children] when it is left; until then it is
    the last child of its parent. *)
Definition ScopeChain := list Scope.

(** [Scope::lookup], from [currentScope_] through the [parent] links. *)
Fixpoint lookup (chain : ScopeChain) (symbolName : string) : option Symbol :=
  match chain with
  | [] => None
  | s :: parents =>
      match symbols s !! symbolName with
      | Some sym => Some sym
      | None => lookup parents symbolName
      end
  end.

(** [currentScope_->insert(name, sym)]: [emplace] keeps an existing entry
    and reports whether the new one went in. *)
Definition insert (symbolName : string) (sym : Symbol) (chain : ScopeChain)
    : bool * ScopeChain :=
  match chain with
  | [] => (false, [])
  | mkScope n syms ch :: parents =>
      match syms !! symbolName with
      | Some _ => (false, chain)
      | None => (true, mkScope n (<[symbolName := sym]> syms) ch :: parents)
      end
  end.

(** The state the resolver works on: the scope tree with [currentScope_],
    and the engine behind [diag_]. *)
Record Resolver := mkResolver {
  scopes : ScopeChain;
  rdiag : DiagnosticEngine
}.

Definition withScopes (c : ScopeChain) (r : Resolver) : Resolver :=
  {| scopes := c; rdiag := rdiag r |}.

Definition rError (loc : SourceLocation) (msg : string) (r : Resolver)
    : Resolver :=
  {| scopes := scopes r; rdiag := emitError loc msg (rdiag r) |}.

(** [NameResolver::enterScope] *)
Definition enterScope (name : string) (r : Resolver) : Resolver :=
  withScopes (mkScope name ∅ [] :: scopes r) r.

(** [NameResolver::exitScope]; it is only called on a scope that
    [enterScope] opened, which has a parent. *)
Definition exitScope (r : Resolver) : Resolver :=
  match scopes r with
  | child :: mkScope n syms ch :: ancestors =>
      withScopes (mkScope n syms (ch ++ [child]) :: ancestors) r
  | _ => r
  end.

(** [currentScope_->insert(name, sym)] with the result dropped. *)
Definition declare (name : string) (sym : Symbol) (r : Resolver) : Resolver :=
  withScopes (snd (insert name sym (scopes r))) r.

(** [if (!currentScope_->insert(name, sym)) diag_.emitError(loc, msg)] *)
Definition declareOrError (name : string) (sym : Symbol)
    (loc : SourceLocation) (msg : string) (r : Resolver) : Resolver :=
  let (inserted, chain) := insert name sym (scopes r) in
  if inserted then withScopes chain r else rError loc msg r.

(* ===================================================================== *)
(** ** Name resolution (lib/Sema/NameResolution.cpp) *)
(* ===================================================================== *)

Definition declareClosureParam (r : Resolver) (p : ClosureParam) : Resolver :=
  declare (cp_name p)
    (symbolOf SymbolKind.Variable_ (cp_name p) defaultLoc Public false) r.

(** [NameResolver::resolveExpr] and [NameResolver::resolveStmt] *)
Fixpoint resolveExpr (e : Expr) (r : Resolver) {struct e} : Resolver :=
  match e with
  | IdentExpr loc name =>
      match lookup (scopes r) name with
      | Some _ => r
      | None => rError loc ("use of undeclared identifier '" +:+ name +:+ "'") r
      end
  | BinaryExpr _ _ lhs rhs => resolveExpr rhs (resolveExpr lhs r)
  | UnaryExpr _ _ operand => resolveExpr operand r
  | CallExpr _ callee arguments =>
      fold_left (fun r arg => resolveExpr arg r) arguments
        (resolveExpr callee r)
  | MethodCallExpr _ object _ arguments =>
      fold_left (fun r arg => resolveExpr arg r) arguments
        (resolveExpr object r)
  | MemberAccessExpr _ object _ => resolveExpr object r
  | IndexExpr _ object index => resolveExpr index (resolveExpr object r)
  | BlockExpr _ statements finalExpr =>
      let r := enterScope "block_expr" r in
      let r := fold_left (fun r s => resolveStmt s r) statements r in
      let r := match finalExpr with
               | Some fe => resolveExpr fe r
               | None => r
               end in
      exitScope r
  | IfExpr _ condition thenExpr elseExpr =>
      let r := resolveExpr thenExpr (resolveExpr condition r) in
      match elseExpr with
      | Some ee => resolveExpr ee r
      | None => r
      end
  | ClosureExpr _ params _ body _ =>
      let r := enterScope "closure" r in
      let r := fold_left declareClosureParam params r in
      exitScope (resolveExpr body r)
  | AssignExpr _ target value => resolveExpr value (resolveExpr target r)
  | CompoundAssignExpr _ _ target value =>
      resolveExpr value (resolveExpr target r)
  | CastExpr _ expr _ => resolveExpr expr r
  | TupleExpr _ elements =>
      fold_left (fun r el => resolveExpr el r) elements r
  | ArrayExpr _ elements =>
      fold_left (fun r el => resolveExpr el r) elements r
  | RefExpr _ operand => resolveExpr operand r
  | MutRefExpr _ operand => resolveExpr operand r
  | MoveExpr _ operand => resolveExpr operand r
  | AwaitExpr _ operand => resolveExpr operand r
  | TryExpr _ operand => resolveExpr operand r
  | RangeExpr _ start end_ _ =>
      let r := match start with Some s => resolveExpr s r | None => r end in
      match end_ with Some e' => resolveExpr e' r | None => r end
  | ConstructExpr _ typePath fields =>
      let r := match typePath with
               | Some tp => resolveExpr tp r
               | None => r
               end in
      fold_left (fun r fi => match fi with
                             | mkFieldInit _ value _ => resolveExpr value r
                             end) fields r
  | MatchExpr _ scrutinee arms =>
      fold_left (fun r arm =>
                   match arm with
                   | mkMatchArm _ _ body _ =>
                       exitScope (resolveExpr body (enterScope "match_arm" r))
                   end) arms (resolveExpr scrutinee r)
  | IntLiteralExpr _ _ | FloatLiteralExpr _ _ | StringLiteralExpr _ _
  | CharLiteralExpr _ _ | BoolLiteralExpr _ _ | PathExpr _ _
  | StructLiteralExpr _ _ _ => r
  end

with resolveStmt (s : Stmt) (r : Resolver) {struct s} : Resolver :=
  match s with
  | LetStmt loc name _ initializer isMutable =>
      let r := match initializer with
               | Some init => resolveExpr init r
               | None => r
               end in
      declareOrError name
        (symbolOf SymbolKind.Variable_ name loc Public isMutable)
        loc ("redefinition of variable '" +:+ name +:+ "'") r
  | ConstStmt loc name _ value =>
      let r := match value with
               | Some v => resolveExpr v r
               | None => r
               end in
      declareOrError name
        (symbolOf SymbolKind.Variable_ name loc Public false)
        loc ("redefinition of constant '" +:+ name +:+ "'") r
  | ReturnStmt _ value =>
      match value with
      | Some v => resolveExpr v r
      | None => r
      end
  | IfStmt _ condition thenBranch elseBranch =>
      let r := resolveStmt thenBranch (resolveExpr condition r) in
      match elseBranch with
      | Some eb => resolveStmt eb r
      | None => r
      end
  | ForStmt loc varName _ iterable body =>
      let r := resolveExpr iterable r in
      let r := enterScope "for" r in
      let r := declare varName
                 (symbolOf SymbolKind.Variable_ varName loc Public false) r in
      exitScope (resolveStmt body r)
  | WhileStmt _ condition body => resolveStmt body (resolveExpr condition r)
  | LoopStmt _ body => resolveStmt body r
  | BlockStmt _ statements =>
      let r := enterScope "block" r in
      exitScope (fold_left (fun r s' => resolveStmt s' r) statements r)
  | ExprStmt _ expression => resolveExpr expression r
  | MatchStmt _ scrutinee _ =>
      (* Match arms need pattern scope resolution *)
      resolveExpr scrutinee r
  | BreakStmt _ | ContinueStmt _ => r
  end.

Definition declLoc (decl : Decl) : SourceLocation :=
  match decl with
  | ModuleDecl l _ _ | ImportDecl l _ _ _ | StructDecl l _ _ _ _
  | ClassDecl l _ _ _ _ _ | EnumDecl l _ _ _ _ | TraitDecl l _ _ _ _ _
  | ImplDecl l _ _ _ _ _ | TypeAliasDecl l _ _ _ _ => l
  | FuncDeclD fd => fd_location fd
  end.

(** [NameResolver::registerDecl] *)
Definition registerDecl (decl : Decl) (r : Resolver) : Resolver :=
  let register (k : SymbolKind.t) (name : string) (vis : Visibility) :=
    declareOrError name (symbolOf k name (declLoc decl) vis false)
      (declLoc decl) ("redefinition of '" +:+ name +:+ "'") r in
  match decl with
  | FuncDeclD fd => register SymbolKind.Function (fd_name fd) (fd_visibility fd)
  | StructDecl _ vis name _ _ => register SymbolKind.Struct name vis
  | ClassDecl _ vis name _ _ _ => register SymbolKind.Class name vis
  | EnumDecl _ vis name _ _ => register SymbolKind.Enum name vis
  | TraitDecl _ vis name _ _ _ => register SymbolKind.Trait name vis
  | TypeAliasDecl _ vis name _ _ => register SymbolKind.TypeAlias name vis
  | ModuleDecl _ _ _ | ImportDecl _ _ _ _ | ImplDecl _ _ _ _ _ _ => r
  end.

Definition declareGenericParam (loc : SourceLocation) (r : Resolver)
    (gp : GenericParam) : Resolver :=
  declare (gp_name gp)
    (symbolOf SymbolKind.GenericParam (gp_name gp) loc Public false) r.

(** [NameResolver::resolveFunc] *)
Definition resolveFunc (decl : FuncDecl) (r : Resolver) : Resolver :=
  let r := enterScope (fd_name decl) r in
  let r := fold_left (declareGenericParam (fd_location decl))
             (fd_genericParams decl) r in
  let r := fold_left
             (fun r param =>
                declare (fp_name param)
                  (symbolOf SymbolKind.Variable_ (fp_name param)
                     (fd_location decl) Public false) r)
             (fd_params decl) r in
  let r := match fd_body decl with
           | Some statements =>
               fold_left (fun r s => resolveStmt s r) statements r
           | None => r
           end in
  exitScope r.

(** [NameResolver::resolveStruct] *)
Definition resolveStruct (loc : SourceLocation) (name : string)
    (genericParams : list GenericParam) (r : Resolver) : Resolver :=
  let r := enterScope name r in
  exitScope (fold_left (declareGenericParam loc) genericParams r).

(** [NameResolver::resolveClass] *)
Definition resolveClass (loc : SourceLocation) (name : string)
    (genericParams : list GenericParam) (methods : list FuncDecl)
    (r : Resolver) : Resolver :=
  let r := enterScope name r in
  let r := fold_left (declareGenericParam loc) genericParams r in
  exitScope (fold_left (fun r m => resolveFunc m r) methods r).

(** [NameResolver::resolveEnum] *)
Definition resolveEnum (loc : SourceLocation) (name : string)
    (variants : list EnumVariant) (r : Resolver) : Resolver :=
  fold_left
    (fun r variant =>
       declare (ev_name variant)
         (symbolOf SymbolKind.EnumVariant (name +:+ "::" +:+ ev_name variant)
            loc Public false) r)
    variants r.

(** [NameResolver::resolveTrait] *)
Definition resolveTrait (name : string) (methods : list FuncDecl)
    (r : Resolver) : Resolver :=
  let r := enterScope name r in
  exitScope (fold_left (fun r m => registerDecl (FuncDeclD m) r) methods r).

(** [NameResolver::resolveImpl] *)
Definition resolveImpl (methods : list FuncDecl) (r : Resolver) : Resolver :=
  let r := enterScope "impl" r in
  exitScope (fold_left (fun r m => resolveFunc m r) methods r).

(** [NameResolver::resolveDecl]; [resolveImport] and [resolveTypeAlias]
    have empty bodies. *)
Definition resolveDecl (decl : Decl) (r : Resolver) : Resolver :=
  match decl with
  | ModuleDecl _ _ _ => r
  | ImportDecl _ _ _ _ => r
  | FuncDeclD fd => resolveFunc fd r
  | StructDecl loc _ name genericParams _ =>
      resolveStruct loc name genericParams r
  | ClassDecl loc _ name genericParams _ methods =>
      resolveClass loc name genericParams methods r
  | EnumDecl loc _ name _ variants => resolveEnum loc name variants r
  | TraitDecl _ _ name _ _ methods => resolveTrait name methods r
  | ImplDecl _ _ _ _ _ methods => resolveImpl methods r
  | TypeAliasDecl _ _ _ _ _ => r
  end.

(** [NameResolver::resolve] *)
Definition resolve (module : Module_) (r : Resolver) : Resolver :=
  (* First pass: register all top-level declarations *)
  let r := fold_left (fun r decl => registerDecl decl r)
             (declarations module) r in
  (* Second pass: resolve bodies *)
  fold_left (fun r decl => resolveDecl decl r) (declarations module) r.

(** [NameResolver::NameResolver(diag, globalScope)] *)
Definition newResolver (diag : DiagnosticEngine) (globalScope : Scope)
    : Resolver :=
  {| scopes := [globalScope]; rdiag := diag |}.

(** The root scope once every scope entered has been left again. *)
Definition rootScope (r : Resolver) : Scope :=
  List.last (scopes r) (mkScope "global" ∅ []).

(* ===================================================================== *)
(** ** Type checker (lib/Sema/TypeChecker.cpp) *)
(* ===================================================================== *)

Record TypeChecker := mkTypeChecker {
  tdiag : DiagnosticEngine;
  scope_ : Scope;
  knownTypes_ : gset string;
  currentReturnType_ : string
}.

Definition tError (loc : SourceLocation) (msg : string) (t : TypeChecker)
    : TypeChecker :=
  {| tdiag := emitError loc msg (tdiag t); scope_ := scope_ t;
     knownTypes_ := knownTypes_ t;
     currentReturnType_ := currentReturnType_ t |}.

Definition setKnownTypes (k : gset string) (t : TypeChecker) : TypeChecker :=
  {| tdiag := tdiag t; scope_ := scope_ t; knownTypes_ := k;
     currentReturnType_ := currentReturnType_ t |}.

Definition setCurrentReturnType (s : string) (t : TypeChecker) : TypeChecker :=
  {| tdiag := tdiag t; scope_ := scope_ t; knownTypes_ := knownTypes_ t;
     currentReturnType_ := s |}.

(** [TypeChecker::registerBuiltinTypes] *)
Definition builtinTypes : list string :=
  [ "Int8"; "Int16"; "Int32"; "Int64"; "UInt8"; "UInt16"; "UInt32"; "UInt64";
    "Float32"; "Float64"; "Bool"; "Char"; "String"; "Void";
    "Option"; "Result"; "Vec"; "Map"; "Set"; "Box"; "Rc"; "Arc"; "Mutex";
    "Channel"; "Future" ].

(** [TypeChecker::TypeChecker(diag, scope)] *)
Definition newTypeChecker (diag : DiagnosticEngine) (scope : Scope)
    : TypeChecker :=
  {| tdiag := diag; scope_ := scope;
     knownTypes_ := list_to_set builtinTypes;
     currentReturnType_ := "" |}.

(** [TypeChecker::isValidType] *)
Definition isValidType (t : TypeChecker) (typeName : string) : bool :=
  bool_decide (typeName ∈ knownTypes_ t).

(** [TypeChecker::typesCompatible] *)
Definition typesCompatible (expected actual : string) : bool :=
  if String.eqb expected actual then true
  else if String.eqb actual "Int64" &&
          (String.eqb expected "Int8" || String.eqb expected "Int16" ||
           String.eqb expected "Int32" || String.eqb expected "UInt8" ||
           String.eqb expected "UInt16" || String.eqb expected "UInt32" ||
           String.eqb expected "UInt64")
  then true
  else if String.eqb actual "Float64" && String.eqb expected "Float32"
  then true
  else false.

(** The path of a [NamedType] joined with "::". *)
Fixpoint joinPath (path : list string) : string :=
  match path with
  | [] => ""
  | [x] => x
  | x :: rest => x +:+ "::" +:+ joinPath rest
  end.

(** [TypeChecker::typeToString] *)
Fixpoint typeToString (type : TypeNode) : string :=
  match type with
  | NamedType _ path => joinPath path
  | GenericType _ base _ => joinPath base
  | ReferenceType _ inner _ => "&" +:+ typeToString inner
  | MutRefType _ inner _ => "&mut " +:+ typeToString inner
  | ArrayType _ elementType _ => "[" +:+ typeToString elementType +:+ "]"
  | TupleType _ _ => "(tuple)"
  | FunctionType _ _ _ => "(func)"
  end.

Definition isEmpty (s : string) : bool :=
  match s with EmptyString => true | _ => false end.

(** [TypeChecker::checkIdentExpr]; [scope_] is the global scope, which has
    no parent. *)
Definition checkIdentExpr (name : string) (t : TypeChecker) : string :=
  match lookup [scope_ t] name with
  | Some sym => if negb (isEmpty (sym_typeName sym)) then sym_typeName sym
                else ""
  | None => ""
  end.

Definition yieldsBool (op : BinaryOp.t) : bool :=
  match op with
  | BinaryOp.Equal | BinaryOp.NotEqual | BinaryOp.Less | BinaryOp.LessEqual
  | BinaryOp.Greater | BinaryOp.GreaterEqual | BinaryOp.And | BinaryOp.Or =>
      true
  | _ => false
  end.

(** [TypeChecker::checkExpr] with [checkBinaryExpr] and [checkCallExpr] *)
Fixpoint checkExpr (e : Expr) (t : TypeChecker) {struct e}
    : string * TypeChecker :=
  match e with
  | IntLiteralExpr _ _ => ("Int64", t)
  | FloatLiteralExpr _ _ => ("Float64", t)
  | StringLiteralExpr _ _ => ("String", t)
  | CharLiteralExpr _ _ => ("Char", t)
  | BoolLiteralExpr _ _ => ("Bool", t)
  | IdentExpr _ name => (checkIdentExpr name t, t)
  | BinaryExpr loc op lhs rhs =>
      let (lhsType, t) := checkExpr lhs t in
      let (rhsType, t) := checkExpr rhs t in
      if yieldsBool op then ("Bool", t)
      else
        let t :=
          if negb (isEmpty lhsType) && negb (isEmpty rhsType) &&
             negb (typesCompatible lhsType rhsType)
          then tError loc ("binary expression type mismatch: '" +:+ lhsType
                           +:+ "' vs '" +:+ rhsType +:+ "'") t
          else t in
        (if isEmpty lhsType then rhsType else lhsType, t)
  | CallExpr _ callee arguments =>
      let t := snd (checkExpr callee t) in
      let t := fold_left (fun t arg => snd (checkExpr arg t)) arguments t in
      ("", t)
  | _ => ("", t)
  end.

Definition checkCondition (loc : SourceLocation) (condition : Expr)
    (t : TypeChecker) : TypeChecker :=
  let (condType, t) := checkExpr condition t in
  if negb (isEmpty condType) && negb (String.eqb condType "Bool")
  then tError loc ("condition must be of type 'Bool', got '" +:+ condType
                   +:+ "'") t
  else t.

(** [TypeChecker::checkStmt] with [checkLetStmt], [checkReturnStmt],
    [checkIfStmt], [checkForStmt], [checkWhileStmt], [checkBlockStmt] *)
Fixpoint checkStmt (s : Stmt) (t : TypeChecker) {struct s} : TypeChecker :=
  match s with
  | LetStmt loc name type initializer _ =>
      match type with
      | Some ty =>
          let declType := typeToString ty in
          let t :=
            if negb (isValidType t declType)
            then tError loc ("unknown type '" +:+ declType
                             +:+ "' in let binding") t
            else t in
          match initializer with
          | Some init =>
              let (initType, t) := checkExpr init t in
              if negb (isEmpty initType) &&
                 negb (typesCompatible declType initType)
              then tError loc ("type mismatch: expected '" +:+ declType
                               +:+ "', got '" +:+ initType +:+ "'") t
              else t
          | None => t
          end
      | None =>
          tError loc ("variable '" +:+ name
                      +:+ "' must have an explicit type annotation") t
      end
  | ReturnStmt loc value =>
      match value with
      | Some v =>
          let (retType, t) := checkExpr v t in
          if negb (isEmpty (currentReturnType_ t)) && negb (isEmpty retType) &&
             negb (typesCompatible (currentReturnType_ t) retType)
          then tError loc ("return type mismatch: expected '"
                           +:+ currentReturnType_ t +:+ "', got '"
                           +:+ retType +:+ "'") t
          else t
      | None =>
          if negb (isEmpty (currentReturnType_ t)) &&
             negb (String.eqb (currentReturnType_ t) "Void")
          then tError loc "non-void function must return a value" t
          else t
      end
  | IfStmt loc condition thenBranch elseBranch =>
      let t := checkStmt thenBranch (checkCondition loc condition t) in
      match elseBranch with
      | Some eb => checkStmt eb t
      | None => t
      end
  | ForStmt _ _ _ iterable body =>
      checkStmt body (snd (checkExpr iterable t))
  | WhileStmt loc condition body =>
      checkStmt body (checkCondition loc condition t)
  | BlockStmt _ statements =>
      fold_left (fun t s' => checkStmt s' t) statements t
  | ExprStmt _ expression => snd (checkExpr expression t)
  | ConstStmt _ _ _ _ | MatchStmt _ _ _ | LoopStmt _ _
  | BreakStmt _ | ContinueStmt _ => t
  end.

(** [TypeChecker::checkFuncDecl] *)
Definition checkFuncDecl (decl : FuncDecl) (t : TypeChecker) : TypeChecker :=
  let t :=
    match fd_returnType decl with
    | Some rt =>
        let retType := typeToString rt in
        let t :=
          if negb (isValidType t retType)
          then tError (fd_location decl)
                 ("unknown return type '" +:+ retType +:+ "' in function '"
                  +:+ fd_name decl +:+ "'") t
          else t in
        setCurrentReturnType retType t
    | None => setCurrentReturnType "Void" t
    end in
  let t :=
    fold_left
      (fun t param =>
         match fp_type param with
         | Some pt =>
             let paramType := typeToString pt in
             if negb (isValidType t paramType)
             then tError (fd_location decl)
                    ("unknown parameter type '" +:+ paramType
                     +:+ "' for parameter '" +:+ fp_name param +:+ "'") t
             else t
         | None =>
             tError (fd_location decl)
               ("parameter '" +:+ fp_name param
                +:+ "' must have an explicit type annotation") t
         end)
      (fd_params decl) t in
  let t :=
    match fd_body decl with
    | Some statements => fold_left (fun t s => checkStmt s t) statements t
    | None => t
    end in
  setCurrentReturnType "" t.

Definition checkFields (loc : SourceLocation) (what owner : string)
    (fields : list FieldDecl) (t : TypeChecker) : TypeChecker :=
  fold_left
    (fun t field =>
       match fld_type field with
       | Some ft =>
           let fieldType := typeToString ft in
           if negb (isValidType t fieldType)
           then tError loc ("unknown field type '" +:+ fieldType
                            +:+ "' for field '" +:+ fld_name field
                            +:+ "' in " +:+ what +:+ " '" +:+ owner +:+ "'") t
           else t
       | None => t
       end)
    fields t.

(** [TypeChecker::checkEnumDecl] *)
Definition checkEnumDecl (loc : SourceLocation) (variants : list EnumVariant)
    (t : TypeChecker) : TypeChecker :=
  fold_left
    (fun t variant =>
       let unknown (ty : TypeNode) (t : TypeChecker) :=
         let ft := typeToString ty in
         if negb (isValidType t ft)
         then tError loc ("unknown type '" +:+ ft +:+ "' in enum variant '"
                          +:+ ev_name variant +:+ "'") t
         else t in
       let t := fold_left
                  (fun t fieldType =>
                     match fieldType with
                     | Some ty => unknown ty t
                     | None => t
                     end)
                  (ev_tupleFields variant) t in
       fold_left
         (fun t field =>
            match fld_type field with
            | Some ty => unknown ty t
            | None => t
            end)
         (ev_structFields variant) t)
    variants t.

(** [TypeChecker::checkDecl] with [checkStructDecl], [checkClassDecl],
    [checkTraitDecl] and [checkImplDecl] *)
Definition checkDecl (decl : Decl) (t : TypeChecker) : TypeChecker :=
  match decl with
  | FuncDeclD fd => checkFuncDecl fd t
  | StructDecl loc _ name _ fields => checkFields loc "struct" name fields t
  | ClassDecl loc _ name _ fields methods =>
      fold_left (fun t m => checkFuncDecl m t) methods
        (checkFields loc "class" name fields t)
  | EnumDecl loc _ _ _ variants => checkEnumDecl loc variants t
  | TraitDecl _ _ _ _ _ methods =>
      fold_left (fun t m => checkFuncDecl m t) methods t
  | ImplDecl _ _ _ _ _ methods =>
      fold_left (fun t m => checkFuncDecl m t) methods t
  | ModuleDecl _ _ _ | ImportDecl _ _ _ _ | TypeAliasDecl _ _ _ _ _ => t
  end.

Definition namesType (sym : Symbol) : bool :=
  match sym_kind sym with
  | SymbolKind.Struct | SymbolKind.Class | SymbolKind.Enum
  | SymbolKind.Trait | SymbolKind.TypeAlias => true
  | _ => false
  end.

(** [TypeChecker::check] *)
Definition check (module : Module_) (t : TypeChecker) : TypeChecker :=
  let userTypes : gset string :=
    dom (filter (fun kv => namesType (snd kv) = true) (symbols (scope_ t))) in
  let t := setKnownTypes (knownTypes_ t ∪ userTypes) t in
  fold_left (fun t decl => checkDecl decl t) (declarations module) t.

(* ===================================================================== *)
(** ** Semantic analysis driver (lib/Sema/Sema.cpp) *)
(* ===================================================================== *)

Record Sema := mkSema {
  sdiag : DiagnosticEngine;
  globalScope_ : Scope
}.

(** [Sema::Sema(diag)] *)
Definition newSema (diag : DiagnosticEngine) : Sema :=
  {| sdiag := diag; globalScope_ := mkScope "global" ∅ [] |}.

(** [Sema::analyze] *)
Definition analyze (module : Module_) (s : Sema) : bool * Sema :=
  let errorsBefore := getErrorCount (sdiag s) in
  (* Phase 1: Name resolution *)
  let resolver := resolve module (newResolver (sdiag s) (globalScope_ s)) in
  let s := {| sdiag := rdiag resolver; globalScope_ := rootScope resolver |} in
  if errorsBefore <? getErrorCount (sdiag s) then
    (false, s)   (* Name resolution errors prevent type checking *)
  else
    (* Phase 2: Type checking *)
    let checker := check module (newTypeChecker (sdiag s) (globalScope_ s)) in
    let s := {| sdiag := tdiag checker; globalScope_ := globalScope_ s |} in
    (getErrorCount (sdiag s) =? errorsBefore, s).

(* ===================================================================== *)
(** ** The backend surface the emitter is written against *)
(* ===================================================================== *)

(** The emitter drives an [llvm::IRBuilder].  The model keeps what the
    emitter can observe of it: the type of every value, the instructions it
    asked for in each basic block (constant folding by the builder is not
    modelled: a folded operation is still listed), the layout of blocks in
    functions, and the functions of the module. *)
Inductive LType :=
  | VoidTy
  | IntTy (bits : N)
  | FloatTy
  | DoubleTy
  | PtrTy
  | StructTy (elements : list LType)
  | ArrayTy (element : LType) (size : N).

Definition isVoidTy (t : LType) : bool :=
  match t with VoidTy => true | _ => false end.
Definition isIntegerTy (t : LType) : bool :=
  match t with IntTy _ => true | _ => false end.
Definition isFloatingPointTy (t : LType) : bool :=
  match t with FloatTy | DoubleTy => true | _ => false end.
Definition getIntegerBitWidth (t : LType) : N :=
  match t with IntTy b => b | _ => 0 end.

Fixpoint LType_eqb (a b : LType) {struct a} : bool :=
  match a, b with
  | VoidTy, VoidTy | FloatTy, FloatTy | DoubleTy, DoubleTy | PtrTy, PtrTy =>
      true
  | IntTy x, IntTy y => x =? y
  | StructTy xs, StructTy ys =>
      (fix eqs (xs ys : list LType) {struct xs} : bool :=
         match xs, ys with
         | [], [] => true
         | x :: xs', y :: ys' => LType_eqb x y && eqs xs' ys'
         | _, _ => false
         end) xs ys
  | ArrayTy x n, ArrayTy y m => LType_eqb x y && (n =? m)
  | _, _ => false
  end.

Definition BlockId := nat.
Definition FuncId := nat.

Inductive Value :=
  | ConstantInt (ty : LType) (v : Z)
  | ConstantFP (ty : LType) (numeral : string)
  | NullValue (ty : LType)              (* [Constant::getNullValue(ty)] *)
  | GlobalString (s : string)
  | FunctionRef (f : FuncId)
  | Argument (f : FuncId) (index : nat) (ty : LType)
  | InstrResult (id : nat) (ty : LType).

Definition typeOf (v : Value) : LType :=
  match v with
  | ConstantInt ty _ | ConstantFP ty _ | NullValue ty | Argument _ _ ty
  | InstrResult _ ty => ty
  | GlobalString _ | FunctionRef _ => PtrTy
  end.

Inductive Opcode :=
  | OpAlloca (allocated : LType)
  | OpLoad | OpTrunc | OpSExt
  | OpAdd | OpFAdd | OpSub | OpFSub | OpMul | OpFMul | OpSDiv | OpFDiv
  | OpSRem | OpFRem
  | OpICmpEQ | OpFCmpOEQ | OpICmpNE | OpFCmpONE | OpICmpSLT | OpFCmpOLT
  | OpICmpSLE | OpFCmpOLE | OpICmpSGT | OpFCmpOGT | OpICmpSGE | OpFCmpOGE
  | OpAnd | OpOr | OpXor | OpShl | OpAShr
  | OpNeg | OpFNeg | OpNot
  | OpCall (callee : FuncId)
  | OpPHI (incoming : list (Value * BlockId)).

Inductive Instr :=
  | Op (id : nat) (opc : Opcode) (operands : list Value) (ty : LType)
      (name : string)
  | Store (v ptr : Value)
  | Br (dest : BlockId)
  | CondBr (cond : Value) (ifTrue ifFalse : BlockId)
  | Ret (v : option Value).

Definition isTerminator (i : Instr) : bool :=
  match i with
  | Br _ | CondBr _ _ _ | Ret _ => true
  | Op _ _ _ _ _ | Store _ _ => false
  end.

Record BasicBlock := mkBlock {
  bb_name : string;
  bb_parent : option FuncId;
  bb_instrs : list Instr
}.

Inductive Linkage := ExternalLinkage | InternalLinkage.

Record Function := mkFunction {
  fn_name : string;
  fn_returnType : LType;
  fn_paramTypes : list LType;
  fn_linkage : Linkage;
  fn_argNames : list string;
  fn_blocks : list BlockId
}.

(* ===================================================================== *)
(** ** Type lowering (lib/CodeGen/TypeMapper.cpp) *)
(* ===================================================================== *)

(** [TypeMapper::getBuiltinType] over the table of [initBuiltinTypes] *)
Definition getBuiltinType (name : string) : option LType :=
  if String.eqb name "Int8" then Some (IntTy 8)
  else if String.eqb name "Int16" then Some (IntTy 16)
  else if String.eqb name "Int32" then Some (IntTy 32)
  else if String.eqb name "Int64" then Some (IntTy 64)
  else if String.eqb name "UInt8" then Some (IntTy 8)
  else if String.eqb name "UInt16" then Some (IntTy 16)
  else if String.eqb name "UInt32" then Some (IntTy 32)
  else if String.eqb name "UInt64" then Some (IntTy 64)
  else if String.eqb name "Float32" then Some FloatTy
  else if String.eqb name "Float64" then Some DoubleTy
  else if String.eqb name "Bool" then Some (IntTy 1)
  else if String.eqb name "Char" then Some (IntTy 32)
  else if String.eqb name "String" then Some PtrTy
  else if String.eqb name "Void" then Some VoidTy
  else None.

(** [TypeMapper::getVoidType] *)
Definition getVoidType : LType := VoidTy.

Definition mapNamed (path : list string) : LType :=
  match path with
  | [name] => match getBuiltinType name with
              | Some builtin => builtin
              | None => PtrTy
              end
  | _ => PtrTy
  end.

(** [TypeMapper::mapType] *)
Fixpoint mapType (type : TypeNode) : LType :=
  match type with
  | NamedType _ path => mapNamed path
  | GenericType _ base _ => mapNamed base
  | ReferenceType _ _ _ | MutRefType _ _ _ => PtrTy
  | TupleType _ elements => StructTy (map mapType elements)
  | FunctionType _ _ _ => PtrTy
  | ArrayType _ elementType size =>
      match size with
      | Some n => ArrayTy (mapType elementType) n
      | None => PtrTy
      end
  end.

(* ===================================================================== *)
(** ** IR emitter (lib/CodeGen/IREmitter.cpp) *)
(* ===================================================================== *)

(** [IREmitter::LoopContext] *)
Record LoopContext := mkLoopContext {
  breakBlock : BlockId;
  continueBlock : BlockId
}.

(** The emitter with the module, the builder and the engine it refers to. *)
Record IREmitter := mkEmitter {
  functions : list (FuncId * Function);      (* [module_], creation order *)
  structTypes : list (string * list LType);
  globalStrings : list string;
  blocks : gmap nat BasicBlock;
  nextId : nat;                              (* fresh blocks and values *)
  insertBlock : option BlockId;              (* [builder_] insert point *)
  namedValues_ : gmap string (Value * LType);
  loopStack_ : list LoopContext;
  ediag : DiagnosticEngine
}.

(** [IREmitter::IREmitter] over an empty module. *)
Definition newEmitter (diag : DiagnosticEngine) : IREmitter :=
  {| functions := []; structTypes := []; globalStrings := [];
     blocks := ∅; nextId := 0; insertBlock := None;
     namedValues_ := ∅; loopStack_ := []; ediag := diag |}.

Definition setFunctions (v : list (FuncId * Function)) (E : IREmitter) :=
  {| functions := v; structTypes := structTypes E;
     globalStrings := globalStrings E; blocks := blocks E;
     nextId := nextId E; insertBlock := insertBlock E;
     namedValues_ := namedValues_ E; loopStack_ := loopStack_ E;
     ediag := ediag E |}.

Definition setStructTypes (v : list (string * list LType)) (E : IREmitter) :=
  {| functions := functions E; structTypes := v;
     globalStrings := globalStrings E; blocks := blocks E;
     nextId := nextId E; insertBlock := insertBlock E;
     namedValues_ := namedValues_ E; loopStack_ := loopStack_ E;
     ediag := ediag E |}.

Definition setGlobalStrings (v : list string) (E : IREmitter) :=
  {| functions := functions E; structTypes := structTypes E;
     globalStrings := v; blocks := blocks E;
     nextId := nextId E; insertBlock := insertBlock E;
     namedValues_ := namedValues_ E; loopStack_ := loopStack_ E;
     ediag := ediag E |}.

Definition setBlocks (v : gmap nat BasicBlock) (E : IREmitter) :=
  {| functions := functions E; structTypes := structTypes E;
     globalStrings := globalStrings E; blocks := v;
     nextId := nextId E; insertBlock := insertBlock E;
     namedValues_ := namedValues_ E; loopStack_ := loopStack_ E;
     ediag := ediag E |}.

Definition setNextId (v : nat) (E : IREmitter) :=
  {| functions := functions E; structTypes := structTypes E;
     globalStrings := globalStrings E; blocks := blocks E;
     nextId := v; insertBlock := insertBlock E;
     namedValues_ := namedValues_ E; loopStack_ := loopStack_ E;
     ediag := ediag E |}.

(** [builder_.SetInsertPoint(bb)] *)
Definition SetInsertPoint (bb : BlockId) (E : IREmitter) :=
  {| functions := functions E; structTypes := structTypes E;
     globalStrings := globalStrings E; blocks := blocks E;
     nextId := nextId E; insertBlock := Some bb;
     namedValues_ := namedValues_ E; loopStack_ := loopStack_ E;
     ediag := ediag E |}.

Definition setNamedValues (v : gmap string (Value * LType)) (E : IREmitter) :=
  {| functions := functions E; structTypes := structTypes E;
     globalStrings := globalStrings E; blocks := blocks E;
     nextId := nextId E; insertBlock := insertBlock E;
     namedValues_ := v; loopStack_ := loopStack_ E;
     ediag := ediag E |}.

Definition setLoopStack (v : list LoopContext) (E : IREmitter) :=
  {| functions := functions E; structTypes := structTypes E;
     globalStrings := globalStrings E; blocks := blocks E;
     nextId := nextId E; insertBlock := insertBlock E;
     namedValues_ := namedValues_ E; loopStack_ := v;
     ediag := ediag E |}.

Definition eError (loc : SourceLocation) (msg : string) (E : IREmitter) :=
  {| functions := functions E; structTypes := structTypes E;
     globalStrings := globalStrings E; blocks := blocks E;
     nextId := nextId E; insertBlock := insertBlock E;
     namedValues_ := namedValues_ E; loopStack_ := loopStack_ E;
     ediag := emitError loc msg (ediag E) |}.

Definition fresh (E : IREmitter) : nat * IREmitter :=
  (nextId E, setNextId (S (nextId E)) E).

Definition addInstr (i : Instr) (bb : BasicBlock) : BasicBlock :=
  {| bb_name := bb_name bb; bb_parent := bb_parent bb;
     bb_instrs := bb_instrs bb ++ [i] |}.

(** An instruction created by [builder_] goes to the end of the block the
    insert point is in. *)
Definition appendInstr (i : Instr) (E : IREmitter) : IREmitter :=
  match insertBlock E with
  | Some b => setBlocks (alter (addInstr i) b (blocks E)) E
  | None => E
  end.

(** [builder_.GetInsertBlock()->getTerminator()] is not null: the last
    instruction of the block is a terminator. *)
Definition blockTerminated (bb : BasicBlock) : bool :=
  match List.last (map Some (bb_instrs bb)) None with
  | Some i => isTerminator i
  | None => false
  end.

Definition getTerminator (E : IREmitter) : bool :=
  match insertBlock E with
  | Some b => match blocks E !! b with
              | Some bb => blockTerminated bb
              | None => false
              end
  | None => false
  end.

(** [builder_.GetInsertBlock()->getParent()] *)
Definition currentFunction (E : IREmitter) : option FuncId :=
  match insertBlock E with
  | Some b => match blocks E !! b with
              | Some bb => bb_parent bb
              | None => None
              end
  | None => None
  end.

Definition addBlockToFunction (f : FuncId) (bb : BlockId)
    (fs : list (FuncId * Function)) : list (FuncId * Function) :=
  map (fun p : FuncId * Function =>
         let (id, fn) := p in
         if Nat.eqb id f
         then (id, {| fn_name := fn_name fn; fn_returnType := fn_returnType fn;
                      fn_paramTypes := fn_paramTypes fn;
                      fn_linkage := fn_linkage fn;
                      fn_argNames := fn_argNames fn;
                      fn_blocks := fn_blocks fn ++ [bb] |})
         else p) fs.

(** [func->insert(func->end(), bb)] *)
Definition insertIntoFunction (func : option FuncId) (bb : BlockId)
    (E : IREmitter) : IREmitter :=
  match func with
  | Some f =>
      let E := setBlocks
                 (alter (fun b => {| bb_name := bb_name b;
                                     bb_parent := Some f;
                                     bb_instrs := bb_instrs b |}) bb
                    (blocks E)) E in
      setFunctions (addBlockToFunction f bb (functions E)) E
  | None => E
  end.

(** [llvm::BasicBlock::Create(ctx_, name)], a block outside any function *)
Definition createBlock (name : string) (E : IREmitter) : BlockId * IREmitter :=
  let (id, E) := fresh E in
  (id, setBlocks (<[id := {| bb_name := name; bb_parent := None;
                             bb_instrs := [] |}]> (blocks E)) E).

(** [llvm::BasicBlock::Create(ctx_, name, func)] *)
Definition createBlockIn (name : string) (func : option FuncId)
    (E : IREmitter) : BlockId * IREmitter :=
  let (id, E) := createBlock name E in
  (id, insertIntoFunction func id E).

(** A value-producing instruction at the insert point. *)
Definition createOp (opc : Opcode) (operands : list Value) (ty : LType)
    (name : string) (E : IREmitter) : Value * IREmitter :=
  let (id, E) := fresh E in
  (InstrResult id ty, appendInstr (Op id opc operands ty name) E).

Definition CreateStore (v ptr : Value) (E : IREmitter) : IREmitter :=
  appendInstr (Store v ptr) E.
Definition CreateBr (dest : BlockId) (E : IREmitter) : IREmitter :=
  appendInstr (Br dest) E.
Definition CreateCondBr (cond : Value) (ifTrue ifFalse : BlockId)
    (E : IREmitter) : IREmitter :=
  appendInstr (CondBr cond ifTrue ifFalse) E.
Definition CreateRet (v : Value) (E : IREmitter) : IREmitter :=
  appendInstr (Ret (Some v)) E.
Definition CreateRetVoid (E : IREmitter) : IREmitter :=
  appendInstr (Ret None) E.

Definition findFunction (f : FuncId) (E : IREmitter) : option Function :=
  snd <$> List.find (fun p : FuncId * Function => Nat.eqb (fst p) f)
            (functions E).

(** [module_.getFunction(name)] *)
Definition getFunction (name : string) (E : IREmitter)
    : option (FuncId * Function) :=
  List.find (fun p : FuncId * Function => String.eqb (fn_name (snd p)) name)
    (functions E).

(** [IREmitter::createEntryBlockAlloca]: the [alloca] goes to the front of
    the entry block of the function. *)
Definition createEntryBlockAlloca (func : option FuncId) (name : string)
    (type : LType) (E : IREmitter) : Value * IREmitter :=
  let (id, E) := fresh E in
  let alloca := Op id (OpAlloca type) [] PtrTy name in
  let E :=
    match func with
    | Some f =>
        match findFunction f E with
        | Some fn =>
            match fn_blocks fn with
            | entry :: _ =>
                setBlocks
                  (alter (fun b => {| bb_name := bb_name b;
                                      bb_parent := bb_parent b;
                                      bb_instrs := alloca :: bb_instrs b |})
                     entry (blocks E)) E
            | [] => E
            end
        | None => E
        end
    | None => E
    end in
  (InstrResult id PtrTy, E).

(** The instruction a binary operator lowers to and whether it yields
    [i1]. *)
Definition binaryOpcode (op : BinaryOp.t) (isFloat : bool) : Opcode * bool :=
  match op with
  | BinaryOp.Add => (if isFloat then OpFAdd else OpAdd, false)
  | BinaryOp.Sub => (if isFloat then OpFSub else OpSub, false)
  | BinaryOp.Mul => (if isFloat then OpFMul else OpMul, false)
  | BinaryOp.Div => (if isFloat then OpFDiv else OpSDiv, false)
  | BinaryOp.Mod => (if isFloat then OpFRem else OpSRem, false)
  | BinaryOp.Equal => (if isFloat then OpFCmpOEQ else OpICmpEQ, true)
  | BinaryOp.NotEqual => (if isFloat then OpFCmpONE else OpICmpNE, true)
  | BinaryOp.Less => (if isFloat then OpFCmpOLT else OpICmpSLT, true)
  | BinaryOp.LessEqual => (if isFloat then OpFCmpOLE else OpICmpSLE, true)
  | BinaryOp.Greater => (if isFloat then OpFCmpOGT else OpICmpSGT, true)
  | BinaryOp.GreaterEqual => (if isFloat then OpFCmpOGE else OpICmpSGE, true)
  | BinaryOp.And => (OpAnd, false)
  | BinaryOp.Or => (OpOr, false)
  | BinaryOp.BitAnd => (OpAnd, false)
  | BinaryOp.BitOr => (OpOr, false)
  | BinaryOp.BitXor => (OpXor, false)
  | BinaryOp.ShiftLeft => (OpShl, false)
  | BinaryOp.ShiftRight => (OpAShr, false)
  end.

Definition binaryName (op : BinaryOp.t) : string :=
  match op with
  | BinaryOp.Add => "addtmp" | BinaryOp.Sub => "subtmp"
  | BinaryOp.Mul => "multmp" | BinaryOp.Div => "divtmp"
  | BinaryOp.Mod => "modtmp" | BinaryOp.Equal => "eqtmp"
  | BinaryOp.NotEqual => "netmp" | BinaryOp.Less => "lttmp"
  | BinaryOp.LessEqual => "letmp" | BinaryOp.Greater => "gttmp"
  | BinaryOp.GreaterEqual => "getmp" | BinaryOp.And => "andtmp"
  | BinaryOp.Or => "ortmp" | BinaryOp.BitAnd => "bandtmp"
  | BinaryOp.BitOr => "bortmp" | BinaryOp.BitXor => "bxortmp"
  | BinaryOp.ShiftLeft => "shltmp" | BinaryOp.ShiftRight => "ashrtmp"
  end.

(** The part of [emitBinaryExpr] after both operands are there. *)
Definition emitBinaryOp (op : BinaryOp.t) (lhs rhs : Value) (E : IREmitter)
    : option Value * IREmitter :=
  let '(lhs, rhs, E) :=
    if isIntegerTy (typeOf lhs) && isIntegerTy (typeOf rhs) &&
       negb (LType_eqb (typeOf lhs) (typeOf rhs))
    then
      if getIntegerBitWidth (typeOf rhs) <? getIntegerBitWidth (typeOf lhs)
      then let (rhs', E) := createOp OpSExt [rhs] (typeOf lhs) "sext" E in
           (lhs, rhs', E)
      else let (lhs', E) := createOp OpSExt [lhs] (typeOf rhs) "sext" E in
           (lhs', rhs, E)
    else (lhs, rhs, E) in
  let isFloat := isFloatingPointTy (typeOf lhs) in
  let (opc, yieldsI1) := binaryOpcode op isFloat in
  let (v, E) := createOp opc [lhs; rhs]
                  (if yieldsI1 then IntTy 1 else typeOf lhs)
                  (binaryName op) E in
  (Some v, E).

(** The part of [emitUnaryExpr] after the operand is there. *)
Definition emitUnaryOp (op : UnaryOp.t) (operand : Value) (E : IREmitter)
    : option Value * IREmitter :=
  let (v, E) :=
    match op with
    | UnaryOp.Negate =>
        if isFloatingPointTy (typeOf operand)
        then createOp OpFNeg [operand] (typeOf operand) "negtmp" E
        else createOp OpNeg [operand] (typeOf operand) "negtmp" E
    | UnaryOp.Not => createOp OpNot [operand] (typeOf operand) "nottmp" E
    | UnaryOp.BitwiseNot =>
        createOp OpNot [operand] (typeOf operand) "bnotmp" E
    end in
  (Some v, E).

(** [IREmitter::emitIdent] *)
Definition emitIdent (loc : SourceLocation) (name : string) (E : IREmitter)
    : option Value * IREmitter :=
  match namedValues_ E !! name with
  | None =>
      match getFunction name E with
      | Some (f, _) => (Some (FunctionRef f), E)
      | None => (None, eError loc ("unknown variable '" +:+ name +:+ "'") E)
      end
  | Some (alloca, allocatedType) =>
      let (v, E) := createOp OpLoad [alloca] allocatedType name E in
      (Some v, E)
  end.

(** The callee name [emitCallExpr] computes. *)
Definition calleeNameOf (callee : Expr) : string :=
  match callee with
  | IdentExpr _ name => name
  | PathExpr _ segments => joinPath segments
  | _ => ""
  end.

(** [loopStack_.push_back], [loopStack_.pop_back], [loopStack_.back()] *)
Definition pushLoop (ctx : LoopContext) (E : IREmitter) : IREmitter :=
  setLoopStack (loopStack_ E ++ [ctx]) E.
Definition popLoop (E : IREmitter) : IREmitter :=
  setLoopStack (removelast (loopStack_ E)) E.
Definition backLoop (E : IREmitter) : option LoopContext :=
  List.last (map Some (loopStack_ E)) None.

(** The loop of [emitCallExpr] over the arguments: it collects the values
    and returns at the first null one. *)
Definition emitArguments
    (emitExpr : Expr -> IREmitter -> option Value * IREmitter)
    : list Expr -> list Value -> IREmitter
      -> option (list Value) * IREmitter :=
  fix emitArgs (args : list Expr) (acc : list Value) (E : IREmitter)
      {struct args} : option (list Value) * IREmitter :=
    match args with
    | [] => (Some acc, E)
    | arg :: rest =>
        match emitExpr arg E with
        | (Some val, E) => emitArgs rest (acc ++ [val]) E
        | (None, E) => (None, E)
        end
    end.

(** [IREmitter::emitExpr] and [IREmitter::emitStmt] with the member
    functions they dispatch to; a null [llvm::Value*] is [None]. *)
Fixpoint emitExpr (e : Expr) (E : IREmitter) {struct e}
    : option Value * IREmitter :=
  match e with
  | IntLiteralExpr _ value => (Some (ConstantInt (IntTy 64) value), E)
  | FloatLiteralExpr _ value => (Some (ConstantFP DoubleTy value), E)
  | StringLiteralExpr _ value =>
      (Some (GlobalString value),
       setGlobalStrings (globalStrings E ++ [value]) E)
  | BoolLiteralExpr _ value =>
      (Some (ConstantInt (IntTy 1) (if value then 1 else 0)%Z), E)
  | IdentExpr loc name => emitIdent loc name E
  | BinaryExpr _ op lhs rhs =>
      let (l, E) := emitExpr lhs E in
      let (r, E) := emitExpr rhs E in
      match l, r with
      | Some lv, Some rv => emitBinaryOp op lv rv E
      | _, _ => (None, E)
      end
  | UnaryExpr _ op operand =>
      let (o, E) := emitExpr operand E in
      match o with
      | Some ov => emitUnaryOp op ov E
      | None => (None, E)
      end
  | CallExpr loc callee arguments =>
      let calleeName := calleeNameOf callee in
      match getFunction calleeName E with
      | None =>
          (None, eError loc ("unknown function '" +:+ calleeName +:+ "'") E)
      | Some (f, calleeFunc) =>
          match emitArguments emitExpr arguments [] E with
          | (None, E) => (None, E)
          | (Some args, E) =>
              if isVoidTy (fn_returnType calleeFunc) then
                let (_, E) := createOp (OpCall f) args VoidTy "" E in
                (None, E)
              else
                let (v, E) := createOp (OpCall f) args
                                (fn_returnType calleeFunc) "calltmp" E in
                (Some v, E)
          end
      end
  | IfExpr _ condition thenExpr elseExpr =>
      let (condVal, E) := emitExpr condition E in
      match condVal with
      | None => (None, E)
      | Some cv =>
          let func := currentFunction E in
          let (thenBB, E) := createBlockIn "then" func E in
          let (elseBB, E) := createBlock "else" E in
          let (mergeBB, E) := createBlock "ifcont" E in
          let E := CreateCondBr cv thenBB elseBB E in
          (* Then *)
          let E := SetInsertPoint thenBB E in
          let (thenVal, E) := emitExpr thenExpr E in
          let E := if negb (getTerminator E) then CreateBr mergeBB E else E in
          let thenEnd := default thenBB (insertBlock E) in
          (* Else *)
          let E := insertIntoFunction func elseBB E in
          let E := SetInsertPoint elseBB E in
          let (elseVal, E) :=
            match elseExpr with
            | Some ee => emitExpr ee E
            | None => (None, E)
            end in
          let E := if negb (getTerminator E) then CreateBr mergeBB E else E in
          let elseEnd := default elseBB (insertBlock E) in
          (* Merge *)
          let E := insertIntoFunction func mergeBB E in
          let E := SetInsertPoint mergeBB E in
          match thenVal, elseVal with
          | Some tv, Some ev =>
              if LType_eqb (typeOf tv) (typeOf ev) then
                let (phi, E) :=
                  createOp (OpPHI [(tv, thenEnd); (ev, elseEnd)]) []
                    (typeOf tv) "iftmp" E in
                (Some phi, E)
              else (thenVal, E)
          | _, _ => (thenVal, E)
          end
      end
  | BlockExpr _ statements finalExpr =>
      let E := fold_left (fun E s => emitStmt s E) statements E in
      match finalExpr with
      | Some fe => emitExpr fe E
      | None => (None, E)
      end
  | AssignExpr _ target value =>
      let (val, E) := emitExpr value E in
      match val with
      | None => (None, E)
      | Some v =>
          match target with
          | IdentExpr _ name =>
              match namedValues_ E !! name with
              | Some (alloca, _) => (Some v, CreateStore v alloca E)
              | None => (None, E)
              end
          | _ => (None, E)
          end
      end
  | CharLiteralExpr _ _ | PathExpr _ _ | MethodCallExpr _ _ _ _
  | MemberAccessExpr _ _ _ | IndexExpr _ _ _ | CastExpr _ _ _
  | MatchExpr _ _ _ | ClosureExpr _ _ _ _ _ | ConstructExpr _ _ _
  | StructLiteralExpr _ _ _ | TupleExpr _ _ | ArrayExpr _ _
  | RangeExpr _ _ _ _ | RefExpr _ _ | MutRefExpr _ _ | MoveExpr _ _
  | AwaitExpr _ _ | TryExpr _ _ | CompoundAssignExpr _ _ _ _ => (None, E)
  end

with emitStmt (s : Stmt) (E : IREmitter) {struct s} : IREmitter :=
  match s with
  | LetStmt _ name type initializer _ =>
      (* emitLetStmt *)
      let varType := match type with
                     | Some ty => mapType ty
                     | None => IntTy 64
                     end in
      let func := currentFunction E in
      let (alloca, E) := createEntryBlockAlloca func name varType E in
      let E :=
        match initializer with
        | Some init =>
            let (initVal, E) := emitExpr init E in
            match initVal with
            | Some iv =>
                let (iv, E) :=
                  if isIntegerTy varType && isIntegerTy (typeOf iv) &&
                     negb (LType_eqb varType (typeOf iv))
                  then
                    if getIntegerBitWidth varType
                       <? getIntegerBitWidth (typeOf iv)
                    then createOp OpTrunc [iv] varType "trunc" E
                    else createOp OpSExt [iv] varType "sext" E
                  else (iv, E) in
                CreateStore iv alloca E
            | None => E
            end
        | None => E
        end in
      setNamedValues (<[name := (alloca, varType)]> (namedValues_ E)) E
  | ReturnStmt _ value =>
      (* emitReturnStmt *)
      match value with
      | Some v =>
          let (val, E) := emitExpr v E in
          match val with
          | Some rv => CreateRet rv E
          | None => CreateRetVoid E
          end
      | None => CreateRetVoid E
      end
  | IfStmt _ condition thenBranch elseBranch =>
      (* emitIfStmt *)
      let (condVal, E) := emitExpr condition E in
      match condVal with
      | None => E
      | Some cv =>
          let func := currentFunction E in
          let (thenBB, E) := createBlockIn "then" func E in
          let (elseBB, E) := createBlock "else" E in
          let (mergeBB, E) := createBlock "ifcont" E in
          let E := match elseBranch with
                   | Some _ => CreateCondBr cv thenBB elseBB E
                   | None => CreateCondBr cv thenBB mergeBB E
                   end in
          (* Then block *)
          let E := SetInsertPoint thenBB E in
          let E := emitStmt thenBranch E in
          let E := if negb (getTerminator E) then CreateBr mergeBB E else E in
          (* Else block *)
          let E :=
            match elseBranch with
            | Some eb =>
                let E := insertIntoFunction func elseBB E in
                let E := SetInsertPoint elseBB E in
                let E := emitStmt eb E in
                if negb (getTerminator E) then CreateBr mergeBB E else E
            | None => E
            end in
          (* Merge block *)
          let E := insertIntoFunction func mergeBB E in
          SetInsertPoint mergeBB E
      end
  | ForStmt _ _ _ _ body =>
      (* emitForStmt *)
      let func := currentFunction E in
      let (condBB, E) := createBlockIn "for.cond" func E in
      let (bodyBB, E) := createBlockIn "for.body" func E in
      let (exitBB, E) := createBlockIn "for.exit" func E in
      let E := CreateBr condBB E in
      let E := SetInsertPoint condBB E in
      let E := CreateBr bodyBB E in
      let E := SetInsertPoint bodyBB E in
      let E := pushLoop {| breakBlock := exitBB; continueBlock := condBB |} E in
      let E := emitStmt body E in
      let E := popLoop E in
      let E := if negb (getTerminator E) then CreateBr exitBB E else E in
      SetInsertPoint exitBB E
  | WhileStmt _ condition body =>
      (* emitWhileStmt *)
      let func := currentFunction E in
      let (condBB, E) := createBlockIn "while.cond" func E in
      let (bodyBB, E) := createBlockIn "while.body" func E in
      let (exitBB, E) := createBlockIn "while.exit" func E in
      let E := CreateBr condBB E in
      (* Condition *)
      let E := SetInsertPoint condBB E in
      let (condVal, E) := emitExpr condition E in
      let E := match condVal with
               | Some cv => CreateCondBr cv bodyBB exitBB E
               | None => E
               end in
      (* Body *)
      let E := SetInsertPoint bodyBB E in
      let E := pushLoop {| breakBlock := exitBB; continueBlock := condBB |} E in
      let E := emitStmt body E in
      let E := popLoop E in
      let E := if negb (getTerminator E) then CreateBr condBB E else E in
      SetInsertPoint exitBB E
  | LoopStmt _ body =>
      (* emitLoopStmt *)
      let func := currentFunction E in
      let (bodyBB, E) := createBlockIn "loop.body" func E in
      let (exitBB, E) := createBlockIn "loop.exit" func E in
      let E := CreateBr bodyBB E in
      let E := SetInsertPoint bodyBB E in
      let E := pushLoop {| breakBlock := exitBB; continueBlock := bodyBB |} E in
      let E := emitStmt body E in
      let E := popLoop E in
      let E := if negb (getTerminator E) then CreateBr bodyBB E else E in
      SetInsertPoint exitBB E
  | BlockStmt _ statements =>
      (* emitBlockStmt *)
      fold_left (fun E s' => emitStmt s' E) statements E
  | ExprStmt _ expression =>
      (* emitExprStmt *)
      snd (emitExpr expression E)
  | BreakStmt _ =>
      match backLoop E with
      | Some ctx => CreateBr (breakBlock ctx) E
      | None => E
      end
  | ContinueStmt _ =>
      match backLoop E with
      | Some ctx => CreateBr (continueBlock ctx) E
      | None => E
      end
  | ConstStmt _ _ _ _ | MatchStmt _ _ _ => E
  end.

Section Backend.

(** [llvm::verifyFunction] and [llvm::verifyModule] belong to the backend;
    they answer [true] when the IR is broken.  [targetError] is the message
    of [CodeGen::initializeTarget] when the target cannot be set up. *)
Variable verifyFunction : Function -> list BasicBlock -> bool.
Variable verifyModule : list (Function * list BasicBlock) -> option string.
Variable targetError : option string.

Definition functionBlocks (fn : Function) (E : IREmitter) : list BasicBlock :=
  omap (fun b => blocks E !! b) (fn_blocks fn).

(** [llvm::Function::Create(funcType, linkage, decl.name, &module_)] with
    the types and the linkage [emitFuncDecl] computes first.  A name that is
    taken gets a numeric suffix from the backend. *)
Definition createFunction (decl : FuncDecl) (E : IREmitter)
    : FuncId * LType * IREmitter :=
  let retType := match fd_returnType decl with
                 | Some rt => mapType rt
                 | None => getVoidType
                 end in
  let paramTypes :=
    map (fun param => match fp_type param with
                      | Some pt => mapType pt
                      | None => PtrTy   (* Should have been caught by type checker *)
                      end) (fd_params decl) in
  let linkage :=
    if String.eqb (fd_name decl) "main" then ExternalLinkage
    else match fd_visibility decl with
         | Public => ExternalLinkage
         | Private => InternalLinkage
         end in
  let (f, E) := fresh E in
  let name := match getFunction (fd_name decl) E with
              | Some _ => fd_name decl +:+ "." +:+ pretty f
              | None => fd_name decl
              end in
  let fn := {| fn_name := name; fn_returnType := retType;
               fn_paramTypes := paramTypes; fn_linkage := linkage;
               fn_argNames := map fp_name (fd_params decl);
               fn_blocks := [] |} in
  (f, retType, setFunctions (functions E ++ [(f, fn)]) E).

(** The entry block and the slots of the parameters. *)
Definition emitPrologue (f : FuncId) (decl : FuncDecl) (E : IREmitter)
    : IREmitter :=
  let (entry, E) := createBlockIn "entry" (Some f) E in
  let E := SetInsertPoint entry E in
  let E := setNamedValues ∅ E in
  let args := combine (map fp_name (fd_params decl))
                (map (fun param => match fp_type param with
                                   | Some pt => mapType pt
                                   | None => PtrTy
                                   end) (fd_params decl)) in
  snd (fold_left
         (fun (st : nat * IREmitter) (arg : string * LType) =>
            let (idx, E) := st in
            let (argName, argType) := arg in
            let (alloca, E) :=
              createEntryBlockAlloca (Some f) argName argType E in
            let E := CreateStore (Argument f idx argType) alloca E in
            (S idx,
             setNamedValues (<[argName := (alloca, argType)]> (namedValues_ E))
               E))
         args (O, E)).

(** "Emit function body" *)
Definition emitBody (statements : list Stmt) (E : IREmitter) : IREmitter :=
  fold_left (fun E stmt => emitStmt stmt E) statements E.

(** "If the block is not terminated, add a return" *)
Definition emitImplicitReturn (retType : LType) (E : IREmitter) : IREmitter :=
  if negb (getTerminator E) then
    if isVoidTy retType then CreateRetVoid E
    else CreateRet (NullValue retType) E
  else E.

(** [func->eraseFromParent()] *)
Definition eraseFromParent (f : FuncId) (E : IREmitter) : IREmitter :=
  setFunctions
    (List.filter (fun p : FuncId * Function => negb (Nat.eqb (fst p) f))
       (functions E)) E.

(** "Verify the function" *)
Definition verifyEmitted (f : FuncId) (decl : FuncDecl) (E : IREmitter)
    : IREmitter :=
  match findFunction f E with
  | Some fn =>
      if verifyFunction fn (functionBlocks fn E) then
        eraseFromParent f
          (eError (fd_location decl)
             ("generated invalid IR for function '" +:+ fd_name decl +:+ "'")
             E)
      else E
  | None => E
  end.

(** The state [emitFuncDecl] reaches right before it verifies a function
    that has a body. *)
Definition emitFuncUnverified (decl : FuncDecl) (statements : list Stmt)
    (E : IREmitter) : FuncId * IREmitter :=
  let '(f, retType, E) := createFunction decl E in
  let E := emitPrologue f decl E in
  let E := emitBody statements E in
  (f, emitImplicitReturn retType E).

(** [IREmitter::emitFuncDecl] *)
Definition emitFuncDecl (decl : FuncDecl) (E : IREmitter) : IREmitter :=
  match fd_body decl with
  | None =>
      (* no body: an external declaration *)
      let '(_, _, E) := createFunction decl E in E
  | Some statements =>
      let savedNamedValues := namedValues_ E in
      let (f, E) := emitFuncUnverified decl statements E in
      let E := verifyEmitted f decl E in
      (* Restore parent scope *)
      setNamedValues savedNamedValues E
  end.

(** [IREmitter::emitStructDecl] *)
Definition emitStructDecl (name : string) (fields : list FieldDecl)
    (E : IREmitter) : IREmitter :=
  let fieldTypes := omap (fun field => mapType <$> fld_type field) fields in
  setStructTypes (structTypes E ++ [(name, fieldTypes)]) E.

(** [IREmitter::emitDecl]; [emitEnumDecl] has an empty body. *)
Definition emitDecl (decl : Decl) (E : IREmitter) : IREmitter :=
  match decl with
  | FuncDeclD fd => emitFuncDecl fd E
  | StructDecl _ _ name _ fields => emitStructDecl name fields E
  | EnumDecl _ _ _ _ _ => E
  | _ => E
  end.

(** [CodeGen::generate] up to the optimization passes, which do not touch
    the engine. *)
Definition generate (module : Module_) (diag : DiagnosticEngine)
    : bool * IREmitter :=
  match targetError with
  | Some msg => (false, newEmitter (emitError defaultLoc msg diag))
  | None =>
      let E := fold_left (fun E decl => emitDecl decl E)
                 (declarations module) (newEmitter diag) in
      match verifyModule
              (map (fun p : FuncId * Function =>
                      (snd p, functionBlocks (snd p) E)) (functions E)) with
      | Some verifyErrors =>
          (false,
           eError defaultLoc ("module verification failed:" +:+ String LF ""
                              +:+ verifyErrors) E)
      | None => (true, E)
      end
  end.

(** What the driver did with a parsed module. *)
Inductive Stage :=
  | StoppedAfterParsing
  | StoppedAfterSema
  | Emitted (ok : bool) (E : IREmitter).

(** [main] (tools/flux/main.cpp) from the end of parsing to the end of code
    generation: [diag] is the engine as parsing left it. *)
Definition compileParsed (module : Module_) (diag : DiagnosticEngine)
    : Stage * DiagnosticEngine :=
  if 0 <? getErrorCount diag then (StoppedAfterParsing, diag)
  else
    (* Phase 3: Semantic analysis *)
    let (ok, sema) := analyze module (newSema diag) in
    if negb ok then (StoppedAfterSema, sdiag sema)
    else
      (* Phase 4: Code generation *)
      let (ok, E) := generate module (sdiag sema) in
      (Emitted ok E, ediag E).

End Backend.

(* ===================================================================== *)
(** ** Auxiliary definitions for the statements below *)
(* ===================================================================== *)

(** The integer primitive type names. *)
Definition integerPrimitives : list string :=
  [ "Int8"; "Int16"; "Int32"; "Int64"; "UInt8"; "UInt16"; "UInt32"; "UInt64" ].

Definition outcomeOf {A} (r : Outcome A * Lexer * DiagnosticEngine) : Outcome A :=
  fst (fst r).
Definition lexerOf {A} (r : Outcome A * Lexer * DiagnosticEngine) : Lexer :=
  snd (fst r).
Definition engineOf {A} (r : Outcome A * Lexer * DiagnosticEngine)
    : DiagnosticEngine :=
  snd r.

(** *** Sample programs *)

Definition loc0 : SourceLocation := defaultLoc.
Definition at_ (line column : N) : SourceLocation :=
  {| loc_filename := "main.fl"; loc_line := line; loc_column := column;
     loc_offset := 0 |}.
Definition VoidT : TypeNode := NamedType loc0 ["Void"].
Definition Int32T : TypeNode := NamedType loc0 ["Int32"].

Definition func (name : string) (returnType : option TypeNode)
    (body : list Stmt) : Decl :=
  FuncDeclD {| fd_location := loc0; fd_visibility := Private;
               fd_name := name; fd_genericParams := []; fd_params := [];
               fd_returnType := returnType; fd_body := Some body;
               fd_isAsync := false; fd_isUnsafe := false |}.

Definition moduleOf (decls : list Decl) : Module_ :=
  {| mod_name := ""; mod_imports := []; declarations := decls;
     mod_location := loc0 |}.

(** [func f() -> Void { match 0 { _ => y } }]: [y] is declared nowhere and
    occurs in the arm of a match statement. *)
Definition matchStmtProgram : Module_ :=
  moduleOf
    [func "f" (Some VoidT)
       [MatchStmt (at_ 1 22) (IntLiteralExpr (at_ 1 28) 0)
          [mkMatchArm (WildcardPattern (at_ 1 32)) None
             (IdentExpr (at_ 1 37) "y") (at_ 1 32)]]].

(** The same match as an expression statement. *)
Definition matchExprProgram : Module_ :=
  moduleOf
    [func "f" (Some VoidT)
       [ExprStmt (at_ 1 22)
          (MatchExpr (at_ 1 22) (IntLiteralExpr (at_ 1 28) 0)
             [mkMatchArm (WildcardPattern (at_ 1 32)) None
                (IdentExpr (at_ 1 37) "y") (at_ 1 32)])]].

(** [func f() -> Void { let x: Foo = y; }]: an undeclared name and an
    unknown type. *)
Definition twoErrorsProgram : Module_ :=
  moduleOf
    [func "f" (Some VoidT)
       [LetStmt (at_ 1 22) "x" (Some (NamedType (at_ 1 29) ["Foo"]))
          (Some (IdentExpr (at_ 1 35) "y")) false]].

(** [func f() -> Void { break; }] *)
Definition breakOutsideLoopProgram : Module_ :=
  moduleOf [func "f" (Some VoidT) [BreakStmt (at_ 1 22)]].

(** [func f() -> Void { continue; }] *)
Definition continueOutsideLoopProgram : Module_ :=
  moduleOf [func "f" (Some VoidT) [ContinueStmt (at_ 1 22)]].

(** [func f() -> Void { loop { match 0 { _ => { break; } } } }] *)
Definition breakInMatchProgram : Module_ :=
  moduleOf
    [func "f" (Some VoidT)
       [LoopStmt (at_ 1 22)
          (BlockStmt (at_ 1 27)
             [MatchStmt (at_ 1 29) (IntLiteralExpr (at_ 1 35) 0)
                [mkMatchArm (WildcardPattern (at_ 1 39)) None
                   (BlockExpr (at_ 1 44) [BreakStmt (at_ 1 46)] None)
                   (at_ 1 39)]])]].

(** [func g() -> Int32 { }] *)
Definition fallOffEndProgram : Module_ :=
  moduleOf [func "g" (Some Int32T) []].

(** A backend whose verifiers accept everything and whose target is
    available. *)
Definition acceptFunction (fn : Function) (bbs : list BasicBlock) : bool :=
  false.
Definition acceptModule (fs : list (Function * list BasicBlock))
    : option string := None.

(** *** Sequences of lexer calls *)

Inductive LexCall := CallNextToken | CallPeekToken.

(** A client that calls [nextToken] and [peekToken] in some order and keeps
    going after an exception. *)
Fixpoint runCalls (stod_oor : string -> bool) (fuel : nat)
    (calls : list LexCall) (L : Lexer) (d : DiagnosticEngine)
    : list (Outcome Token) * Lexer * DiagnosticEngine :=
  match calls with
  | [] => ([], L, d)
  | c :: rest =>
      let '(o, L1, d1) :=
        match c with
        | CallNextToken => nextToken stod_oor fuel L d
        | CallPeekToken => peekToken stod_oor fuel L d
        end in
      let '(os, L2, d2) := runCalls stod_oor fuel rest L1 d1 in
      (o :: os, L2, d2)
  end.

(** A member function is regular when it leaves [source_] and [filename_]
    alone and treats the engine as a sink: what it returns and what it does
    to the lexer do not depend on the engine, to which it only adds. *)
Definition Regular {A : Type} (m : M A) : Prop :=
  forall L, exists o L' log,
    source_ L' = source_ L /\ filename_ L' = filename_ L /\
    forall d, m L d = (o, L', emitAll log d).

(** *** String literals *)

(** The characters from [current_] on. *)
Definition remaining (L : Lexer) : list ascii :=
  drop (N.to_nat (current_ L)) (list_ascii_of_string (source_ L)).

(** An unescaped newline comes before the closing quote: reading from the
    character after the opening quote, a backslash takes the next character
    with it, whatever it is. *)
Inductive UnescapedNewlineFirst : list ascii -> Prop :=
  | UNF_newline (rest : list ascii) :
      UnescapedNewlineFirst (LF :: rest)
  | UNF_escape (c : ascii) (rest : list ascii) :
      UnescapedNewlineFirst rest ->
      UnescapedNewlineFirst (BACKSLASH :: c :: rest)
  | UNF_plain (c : ascii) (rest : list ascii) :
      c <> DQUOTE -> c <> BACKSLASH -> c <> LF ->
      UnescapedNewlineFirst rest ->
      UnescapedNewlineFirst (c :: rest).

(** How the scan of a string literal ends, written from the description:
    at the closing quote, at a newline that no backslash precedes, or at the
    end of the input. *)
Inductive StringEnd := ClosingQuote | UnescapedNewline | EndOfInput.

Fixpoint scanString (cs : list ascii) {struct cs} : StringEnd :=
  match cs with
  | [] => EndOfInput
  | c :: rest =>
      if Ascii.eqb c DQUOTE then ClosingQuote
      else if Ascii.eqb c BACKSLASH then
        match rest with
        | [] => EndOfInput
        | _ :: rest' => scanString rest'
        end
      else if Ascii.eqb c LF then UnescapedNewline
      else scanString rest
  end.

Definition newlineInString : string :=
  "unterminated string literal (newline in string)".

(** What [lexString] adds to the engine [d] for each way the scan can end;
    the location is that of the token. *)
Definition stringDiagnostics (loc : SourceLocation) (e : StringEnd)
    (d : DiagnosticEngine) : DiagnosticEngine :=
  match e with
  | ClosingQuote => d
  | UnescapedNewline => emitError loc newlineInString d
  | EndOfInput => emitError loc "unterminated string literal" d
  end.

(** A string literal with an escaped newline and then a bare one:
    the five characters after the opening quote are [a], backslash,
    newline, [b], newline. *)
Definition escapedNewlineSource : string :=
  String DQUOTE (String "a" (String BACKSLASH (String LF
    (String "b" (String LF (String DQUOTE EmptyString)))))).

(** *** Passes and the engine *)

(** What a pass over the AST leaves behind when it starts with scope chain
    [sc] and an empty engine. *)
Definition scopesAfter (f : Resolver -> Resolver) (sc : ScopeChain)
    : ScopeChain :=
  scopes (f {| scopes := sc; rdiag := newEngine |}).
Definition logOf (f : Resolver -> Resolver) (sc : ScopeChain)
    : list Diagnostic :=
  diagnostics_ (rdiag (f {| scopes := sc; rdiag := newEngine |})).

(** A resolver step does not look at the engine: its effect on the scopes
    is the same over every engine, and so are the diagnostics it adds. *)
Definition EngineBlind (f : Resolver -> Resolver) : Prop :=
  forall sc d,
    f {| scopes := sc; rdiag := d |}
    = {| scopes := scopesAfter f sc; rdiag := emitAll (logOf f sc) d |}.

(** The same for the type checker, whose other members are the root scope,
    the known types and the current return type. *)
Definition checkerAt (sc : Scope) (k : gset string) (c : string)
    : TypeChecker :=
  {| tdiag := newEngine; scope_ := sc; knownTypes_ := k;
     currentReturnType_ := c |}.

Definition checkedFrom (f : TypeChecker -> TypeChecker) (sc : Scope)
    (k : gset string) (c : string) : TypeChecker :=
  f (checkerAt sc k c).

Definition CheckerBlind (f : TypeChecker -> TypeChecker) : Prop :=
  forall sc k c d,
    f {| tdiag := d; scope_ := sc; knownTypes_ := k;
         currentReturnType_ := c |}
    = {| tdiag := emitAll (diagnostics_ (tdiag (checkedFrom f sc k c))) d;
         scope_ := scope_ (checkedFrom f sc k c);
         knownTypes_ := knownTypes_ (checkedFrom f sc k c);
         currentReturnType_ := currentReturnType_ (checkedFrom f sc k c) |}.

Definition typeFound (e : Expr) (sc : Scope) (k : gset string) (c : string)
    : string :=
  fst (checkExpr e (checkerAt sc k c)).

Definition exprLog (e : Expr) (sc : Scope) (k : gset string) (c : string)
    : list Diagnostic :=
  diagnostics_ (tdiag (snd (checkExpr e (checkerAt sc k c)))).

(** [checkExpr] only adds to the engine. *)
Definition ExprBlind (e : Expr) : Prop :=
  forall sc k c d,
    checkExpr e {| tdiag := d; scope_ := sc; knownTypes_ := k;
                   currentReturnType_ := c |}
    = (typeFound e sc k c,
       {| tdiag := emitAll (exprLog e sc k c) d; scope_ := sc;
          knownTypes_ := k; currentReturnType_ := c |}).

(** The statement of C3 about the type checker: [analyze] leaves the engine
    as a run of [check] after [resolve] leaves it. *)
Definition checkerRanAfterResolver (module : Module_) (s : Sema) : Prop :=
  let R := resolve module (newResolver (sdiag s) (globalScope_ s)) in
  sdiag (snd (analyze module s))
  = tdiag (check module (newTypeChecker (rdiag R) (rootScope R))).

(** *** The loop stack of the emitter *)

(** Statements and expressions leave the loop stack as they found it. *)
Definition KeepsLoopStackE (e : Expr) : Prop :=
  forall E, loopStack_ (snd (emitExpr e E)) = loopStack_ E.
Definition KeepsLoopStackS (s : Stmt) : Prop :=
  forall E, loopStack_ (emitStmt s E) = loopStack_ E.

(** The statement of C5 about a program: semantic analysis, which is all
    that runs between parsing and IR emission, records an error. *)
Definition diagnosedBeforeEmission (module : Module_) : Prop :=
  0 < getErrorCount (sdiag (snd (analyze module (newSema newEngine)))).

(** *** The insert point of the emitter *)

(** The builder stands in a block that exists. *)
Definition InsertPointLive (E : IREmitter) : Prop :=
  match insertBlock E with
  | Some b => b ∈ dom (blocks E)
  | None => False
  end.

(** Emission keeps the blocks there are and keeps the builder in one of
    them. *)
Definition KeepsBlocks (E E' : IREmitter) : Prop :=
  dom (blocks E) ⊆ dom (blocks E')
  /\ (InsertPointLive E -> InsertPointLive E').
Definition KeepsBlocksE (e : Expr) : Prop :=
  forall E, KeepsBlocks E (snd (emitExpr e E)).
Definition KeepsBlocksS (s : Stmt) : Prop :=
  forall E, KeepsBlocks E (emitStmt s E).

(** A helper of the emitter that adds no block and leaves the builder where
    it is. *)
Definition SameBlocks (E E' : IREmitter) : Prop :=
  dom (blocks E') = dom (blocks E) /\ insertBlock E' = insertBlock E.

(** The value [Constant::getNullValue] of the implicit return, if the
    function does not return void. *)
Definition implicitReturnValue (retType : LType) : option Value :=
  if isVoidTy retType then None else Some (NullValue retType).

(** A member function is silent when it leaves the engine alone. *)
Definition Silent {A : Type} (m : M A) : Prop :=
  forall L d, engineOf (m L d) = d.

(* ===================================================================== *)
(** ** Further parts of the code and definitions for their properties *)
(* ===================================================================== *)

(** *** Counting diagnostics *)

(** The diagnostics [emit] counts as errors and as warnings. *)
Definition countsAsError (x : Diagnostic) : bool :=
  match severity x with Error | Fatal => true | _ => false end.
Definition countsAsWarning (x : Diagnostic) : bool :=
  match severity x with Warning => true | _ => false end.
Definition errorsIn (log : list Diagnostic) : N :=
  N.of_nat (length (List.filter countsAsError log)).
Definition warningsIn (log : list Diagnostic) : N :=
  N.of_nat (length (List.filter countsAsWarning log)).

(** The end-of-file token [nextToken] makes at the position of [L]. *)
Definition eofTokenAt (L : Lexer) : Token :=
  {| kind := Eof; text := "";
     location := {| loc_filename := filename_ L; loc_line := line_ L;
                    loc_column := column_ L; loc_offset := current_ L |};
     litValue := IntValue 0 |}.

(** *** Token classes and the printing table *)

(** The value of a kind in [enum class TokenKind : uint16_t], in the order
    of include/flux/Lexer/Token.h. *)
Definition kindOrdinal (k : TokenKind) : N :=
  match k with
  | Eof => 0 | Invalid => 1 | Newline => 2 | IntLiteral => 3
  | FloatLiteral => 4 | StringLiteral => 5 | CharLiteral => 6
  | BoolLiteral => 7 | Identifier => 8 | KwModule => 9 | KwImport => 10
  | KwFunc => 11 | KwLet => 12 | KwMut => 13 | KwConst => 14
  | KwStruct => 15 | KwClass => 16 | KwEnum => 17 | KwTrait => 18
  | KwImpl => 19 | KwType => 20 | KwSelf => 21 | KwSelfType => 22
  | KwIf => 23 | KwElse => 24 | KwMatch => 25 | KwFor => 26 | KwWhile => 27
  | KwLoop => 28 | KwBreak => 29 | KwContinue => 30 | KwReturn => 31
  | KwIn => 32 | KwMove => 33 | KwRef => 34 | KwDrop => 35 | KwAsync => 36
  | KwAwait => 37 | KwSpawn => 38 | KwUnsafe => 39 | KwPub => 40
  | KwPublic => 41 | KwPrivate => 42 | KwTrue => 43 | KwFalse => 44
  | KwAnd => 45 | KwOr => 46 | KwNot => 47 | KwAs => 48 | KwIs => 49
  | KwWhere => 50 | KwUse => 51 | KwVoid => 52 | KwPanic => 53
  | KwAssert => 54 | KwDoc => 55 | KwDeprecated => 56 | KwTest => 57
  | LParen => 58 | RParen => 59 | LBracket => 60 | LBrace => 61
  | RBrace => 62 | RBracket => 63 | Comma => 64 | Semicolon => 65
  | Colon => 66 | ColonColon => 67 | Dot => 68 | DotDot => 69
  | DotDotDot => 70 | Arrow => 71 | FatArrow => 72 | At => 73 | Hash => 74
  | HashBang => 75 | Plus => 76 | Minus => 77 | Star => 78 | Slash => 79
  | Percent => 80 | Equal => 81 | EqualEqual => 82 | BangEqual => 83
  | Less => 84 | LessEqual => 85 | Greater => 86 | GreaterEqual => 87
  | Ampersand => 88 | Pipe => 89 | Caret => 90 | Tilde => 91
  | ShiftLeft => 92 | ShiftRight => 93 | PlusEqual => 94 | MinusEqual => 95
  | StarEqual => 96 | SlashEqual => 97 | PercentEqual => 98
  | AmpersandEqual => 99 | PipeEqual => 100 | CaretEqual => 101
  | Question => 102 | Underscore => 103 | Apostrophe => 104
  end.

(** [Token::isKeyword], [Token::isLiteral], [Token::isOperator] *)
Definition isKeyword (k : TokenKind) : bool :=
  (kindOrdinal KwModule <=? kindOrdinal k)
  && (kindOrdinal k <=? kindOrdinal KwTest).
Definition isLiteral (k : TokenKind) : bool :=
  (kindOrdinal IntLiteral <=? kindOrdinal k)
  && (kindOrdinal k <=? kindOrdinal BoolLiteral).
Definition isOperator (k : TokenKind) : bool :=
  (kindOrdinal Plus <=? kindOrdinal k)
  && (kindOrdinal k <=? kindOrdinal Underscore).

(** [Token::kindToString] *)
Definition kindToString (k : TokenKind) : string :=
  match k with
  | Eof => "EOF"
  | Invalid => "INVALID"
  | Newline => "NEWLINE"
  | IntLiteral => "INT_LITERAL"
  | FloatLiteral => "FLOAT_LITERAL"
  | StringLiteral => "STRING_LITERAL"
  | CharLiteral => "CHAR_LITERAL"
  | BoolLiteral => "BOOL_LITERAL"
  | Identifier => "IDENTIFIER"
  | KwModule => "module"
  | KwImport => "import"
  | KwFunc => "func"
  | KwLet => "let"
  | KwMut => "mut"
  | KwConst => "const"
  | KwStruct => "struct"
  | KwClass => "class"
  | KwEnum => "enum"
  | KwTrait => "trait"
  | KwImpl => "impl"
  | KwType => "type"
  | KwSelf => "self"
  | KwSelfType => "Self"
  | KwIf => "if"
  | KwElse => "else"
  | KwMatch => "match"
  | KwFor => "for"
  | KwWhile => "while"
  | KwLoop => "loop"
  | KwBreak => "break"
  | KwContinue => "continue"
  | KwReturn => "return"
  | KwIn => "in"
  | KwMove => "move"
  | KwRef => "ref"
  | KwDrop => "drop"
  | KwAsync => "async"
  | KwAwait => "await"
  | KwSpawn => "spawn"
  | KwUnsafe => "unsafe"
  | KwPub => "pub"
  | KwPublic => "public"
  | KwPrivate => "private"
  | KwTrue => "true"
  | KwFalse => "false"
  | KwAnd => "and"
  | KwOr => "or"
  | KwNot => "not"
  | KwAs => "as"
  | KwIs => "is"
  | KwWhere => "where"
  | KwUse => "use"
  | KwVoid => "Void"
  | KwPanic => "panic"
  | KwAssert => "assert"
  | KwDoc => "@doc"
  | KwDeprecated => "@deprecated"
  | KwTest => "@test"
  | LParen => "("
  | RParen => ")"
  | LBracket => "["
  | RBracket => "]"
  | LBrace => "{"
  | RBrace => "}"
  | Comma => ","
  | Semicolon => ";"
  | Colon => ":"
  | ColonColon => "::"
  | Dot => "."
  | DotDot => ".."
  | DotDotDot => "..."
  | Arrow => "->"
  | FatArrow => "=>"
  | At => "@"
  | Hash => "#"
  | HashBang => "#!"
  | Plus => "+"
  | Minus => "-"
  | Star => "*"
  | Slash => "/"
  | Percent => "%"
  | Equal => "="
  | EqualEqual => "=="
  | BangEqual => "!="
  | Less => "<"
  | LessEqual => "<="
  | Greater => ">"
  | GreaterEqual => ">="
  | Ampersand => "&"
  | Pipe => "|"
  | Caret => "^"
  | Tilde => "~"
  | ShiftLeft => "<<"
  | ShiftRight => ">>"
  | PlusEqual => "+="
  | MinusEqual => "-="
  | StarEqual => "*="
  | SlashEqual => "/="
  | PercentEqual => "%="
  | AmpersandEqual => "&="
  | PipeEqual => "|="
  | CaretEqual => "^="
  | Question => "?"
  | Underscore => "_"
  | Apostrophe => "'"
  end.

(** Every token kind, in the order of the enumeration. *)
Definition allKinds : list TokenKind :=
  [ Eof; Invalid; Newline; IntLiteral; FloatLiteral; StringLiteral;
    CharLiteral; BoolLiteral; Identifier; KwModule; KwImport; KwFunc;
    KwLet; KwMut; KwConst; KwStruct; KwClass; KwEnum; KwTrait; KwImpl;
    KwType; KwSelf; KwSelfType; KwIf; KwElse; KwMatch; KwFor; KwWhile;
    KwLoop; KwBreak; KwContinue; KwReturn; KwIn; KwMove; KwRef; KwDrop;
    KwAsync; KwAwait; KwSpawn; KwUnsafe; KwPub; KwPublic; KwPrivate;
    KwTrue; KwFalse; KwAnd; KwOr; KwNot; KwAs; KwIs; KwWhere; KwUse;
    KwVoid; KwPanic; KwAssert; KwDoc; KwDeprecated; KwTest; LParen; RParen;
    LBracket; LBrace; RBrace; RBracket; Comma; Semicolon; Colon;
    ColonColon; Dot; DotDot; DotDotDot; Arrow; FatArrow; At; Hash;
    HashBang; Plus; Minus; Star; Slash; Percent; Equal; EqualEqual;
    BangEqual; Less; LessEqual; Greater; GreaterEqual; Ampersand; Pipe;
    Caret; Tilde; ShiftLeft; ShiftRight; PlusEqual; MinusEqual; StarEqual;
    SlashEqual; PercentEqual; AmpersandEqual; PipeEqual; CaretEqual;
    Question; Underscore; Apostrophe ].

(** *** The source manager (lib/Common/SourceLocation.cpp) *)

(** [SourceManager::FileEntry]; [files_] is the list of entries. *)
Record FileEntry := mkFileEntry {
  fe_filename : string;
  fe_content : string;
  lineOffsets : list N
}.

Definition SourceManager := list FileEntry.

(** [SourceLocation::unknown] and [SourceLocation::isValid] *)
Definition unknownLoc : SourceLocation :=
  {| loc_filename := "<unknown>"; loc_line := 0; loc_column := 0;
     loc_offset := 0 |}.
Definition isValid (loc : SourceLocation) : bool :=
  (0 <? loc_line loc) && (0 <? loc_column loc).

(** The loop of [SourceManager::computeLineOffsets] from index [i] on; the
    index is a [uint32_t]. *)
Fixpoint lineOffsetsLoop (fuel : nat) (content : string) (i : N)
    (offsets : list N) : option (list N) :=
  match fuel with
  | O => None
  | S fuel' =>
      if i <? N.of_nat (String.length content) then
        lineOffsetsLoop fuel' content (inc32 i)
          (if Ascii.eqb (charAt content i) LF then offsets ++ [inc32 i]
           else offsets)
      else Some offsets
  end.

(** [SourceManager::computeLineOffsets]: the first line starts at 0. *)
Definition computeLineOffsets (fuel : nat) (content : string)
    : option (list N) :=
  lineOffsetsLoop fuel content 0 [0].

(** [SourceManager::loadFromString]: the new entry goes to the end and its
    index, cast to [uint32_t], is returned. *)
Definition loadFromString (fuel : nat) (name content : string)
    (files_ : SourceManager) : option (N * SourceManager) :=
  offsets ← computeLineOffsets fuel content;
  let entry := {| fe_filename := name; fe_content := content;
                  lineOffsets := offsets |} in
  Some (wrap32 (N.of_nat (length (files_ ++ [entry])) - 1),
        files_ ++ [entry]).

(** [SourceManager::getSource] and [SourceManager::getFilename] *)
Definition getSource (fileId : N) (files_ : SourceManager) : Outcome string :=
  if N.of_nat (length files_) <=? fileId then Throw out_of_range
  else match files_ !! N.to_nat fileId with
       | Some entry => Ok (fe_content entry)
       | None => Throw out_of_range
       end.
Definition getFilename (fileId : N) (files_ : SourceManager)
    : Outcome string :=
  if N.of_nat (length files_) <=? fileId then Throw out_of_range
  else match files_ !! N.to_nat fileId with
       | Some entry => Ok (fe_filename entry)
       | None => Throw out_of_range
       end.

(** The binary search of [SourceManager::getLocation] for the line. *)
Fixpoint searchLine (fuel : nat) (offsets : list N) (offset lo hi line : N)
    : option N :=
  match fuel with
  | O => None
  | S fuel' =>
      if lo <? hi then
        let mid := wrap32 (lo + sub32 hi lo / 2) in
        if nth (N.to_nat mid) offsets 0 <=? offset
        then searchLine fuel' offsets offset (inc32 mid) hi mid
        else searchLine fuel' offsets offset lo mid line
      else Some line
  end.

(** [SourceManager::getLocation] *)
Definition getLocation (fuel : nat) (fileId offset : N)
    (files_ : SourceManager) : option SourceLocation :=
  if N.of_nat (length files_) <=? fileId then Some unknownLoc
  else match files_ !! N.to_nat fileId with
       | None => Some unknownLoc
       | Some entry =>
           if N.of_nat (String.length (fe_content entry)) <=? offset
           then Some unknownLoc
           else
             line ← searchLine fuel (lineOffsets entry) offset 0
                      (wrap32 (N.of_nat (length (lineOffsets entry)))) 0;
             let column :=
               inc32 (sub32 offset (nth (N.to_nat line) (lineOffsets entry) 0))
             in
             Some {| loc_filename := fe_filename entry;
                     loc_line := inc32 line; loc_column := column;
                     loc_offset := offset |}
       end.

(** Line and column of the character [n] places into [cs], counted the way
    the lexer counts them: from 1, a newline starting the next line. *)
Fixpoint scanPosition (cs : list ascii) (n : nat) (line column : N)
    : N * N :=
  match n, cs with
  | S n', c :: rest =>
      if Ascii.eqb c LF then scanPosition rest n' (line + 1) 1
      else scanPosition rest n' line (column + 1)
  | _, _ => (line, column)
  end.

(** The line starts after index [i] that the characters [cs], which stand
    at the indices from [i] on, give rise to. *)
Fixpoint startsFrom (i : N) (cs : list ascii) : list N :=
  match cs with
  | [] => []
  | c :: rest =>
      (if Ascii.eqb c LF then [i + 1] else []) ++ startsFrom (i + 1) rest
  end.

(** *** The command line (tools/flux/main.cpp) *)

(** [flux::OutputFormat], as [parseArgs] names its values *)
Inductive OutputFormat := LLVMIR | Bitcode | Assembly | Object | Executable.

(** [DriverOptions] with its default member initializers *)
Record DriverOptions := mkDriverOptions {
  inputFile : string;
  outputFile : string;
  targetTriple : string;
  outputFormat : OutputFormat;
  optimizationLevel : Z;
  dumpAST : bool;
  dumpTokens : bool;
  showHelp : bool;
  showVersion : bool
}.

Definition defaultOptions : DriverOptions :=
  {| inputFile := ""; outputFile := ""; targetTriple := "";
     outputFormat := Executable; optimizationLevel := 0;
     dumpAST := false; dumpTokens := false; showHelp := false;
     showVersion := false |}.

Definition withInputFile (v : string) (o : DriverOptions) :=
  {| inputFile := v; outputFile := outputFile o;
     targetTriple := targetTriple o; outputFormat := outputFormat o;
     optimizationLevel := optimizationLevel o; dumpAST := dumpAST o;
     dumpTokens := dumpTokens o; showHelp := showHelp o;
     showVersion := showVersion o |}.
Definition withOutputFile (v : string) (o : DriverOptions) :=
  {| inputFile := inputFile o; outputFile := v;
     targetTriple := targetTriple o; outputFormat := outputFormat o;
     optimizationLevel := optimizationLevel o; dumpAST := dumpAST o;
     dumpTokens := dumpTokens o; showHelp := showHelp o;
     showVersion := showVersion o |}.
Definition withTargetTriple (v : string) (o : DriverOptions) :=
  {| inputFile := inputFile o; outputFile := outputFile o;
     targetTriple := v; outputFormat := outputFormat o;
     optimizationLevel := optimizationLevel o; dumpAST := dumpAST o;
     dumpTokens := dumpTokens o; showHelp := showHelp o;
     showVersion := showVersion o |}.
Definition withOutputFormat (v : OutputFormat) (o : DriverOptions) :=
  {| inputFile := inputFile o; outputFile := outputFile o;
     targetTriple := targetTriple o; outputFormat := v;
     optimizationLevel := optimizationLevel o; dumpAST := dumpAST o;
     dumpTokens := dumpTokens o; showHelp := showHelp o;
     showVersion := showVersion o |}.
Definition withOptimizationLevel (v : Z) (o : DriverOptions) :=
  {| inputFile := inputFile o; outputFile := outputFile o;
     targetTriple := targetTriple o; outputFormat := outputFormat o;
     optimizationLevel := v; dumpAST := dumpAST o;
     dumpTokens := dumpTokens o; showHelp := showHelp o;
     showVersion := showVersion o |}.
Definition withDumpAST (o : DriverOptions) :=
  {| inputFile := inputFile o; outputFile := outputFile o;
     targetTriple := targetTriple o; outputFormat := outputFormat o;
     optimizationLevel := optimizationLevel o; dumpAST := true;
     dumpTokens := dumpTokens o; showHelp := showHelp o;
     showVersion := showVersion o |}.
Definition withDumpTokens (o : DriverOptions) :=
  {| inputFile := inputFile o; outputFile := outputFile o;
     targetTriple := targetTriple o; outputFormat := outputFormat o;
     optimizationLevel := optimizationLevel o; dumpAST := dumpAST o;
     dumpTokens := true; showHelp := showHelp o;
     showVersion := showVersion o |}.
Definition withShowHelp (o : DriverOptions) :=
  {| inputFile := inputFile o; outputFile := outputFile o;
     targetTriple := targetTriple o; outputFormat := outputFormat o;
     optimizationLevel := optimizationLevel o; dumpAST := dumpAST o;
     dumpTokens := dumpTokens o; showHelp := true;
     showVersion := showVersion o |}.
Definition withShowVersion (o : DriverOptions) :=
  {| inputFile := inputFile o; outputFile := outputFile o;
     targetTriple := targetTriple o; outputFormat := outputFormat o;
     optimizationLevel := optimizationLevel o; dumpAST := dumpAST o;
     dumpTokens := dumpTokens o; showHelp := showHelp o;
     showVersion := true |}.

(** What one round of the loop of [parseArgs] does: it takes the argument
    alone, takes it with the one after it, or prints a message to the error
    stream and leaves by [std::exit(1)]. *)
Inductive ArgStep :=
  | TakesOne (opts : DriverOptions)
  | TakesTwo (opts : DriverOptions)
  | ExitsWith (message : string).

Definition unknownOption (arg : string) : string :=
  "error: unknown option '" +:+ arg +:+ "'" +:+ String LF "".

(** [arg[0]]; for the empty string that is the terminating NUL. *)
Definition firstChar (arg : string) : ascii :=
  match arg with String c _ => c | EmptyString => NUL end.

(** The body of the loop of [parseArgs] for the argument [arg]; [next] is
    the argument after it, if [i + 1 < argc]. *)
Definition parseArg (arg : string) (next : option string)
    (opts : DriverOptions) : ArgStep :=
  if String.eqb arg "--help" || String.eqb arg "-h" then
    TakesOne (withShowHelp opts)
  else if String.eqb arg "--version" || String.eqb arg "-v" then
    TakesOne (withShowVersion opts)
  else
    match (if String.eqb arg "-o" then next else None) with
    | Some v => TakesTwo (withOutputFile v opts)
    | None =>
    match (if String.eqb arg "--emit" then next else None) with
    | Some fmt =>
        if String.eqb fmt "llvm-ir" then TakesTwo (withOutputFormat LLVMIR opts)
        else if String.eqb fmt "bitcode"
        then TakesTwo (withOutputFormat Bitcode opts)
        else if String.eqb fmt "asm"
        then TakesTwo (withOutputFormat Assembly opts)
        else if String.eqb fmt "obj"
        then TakesTwo (withOutputFormat Object opts)
        else if String.eqb fmt "exe"
        then TakesTwo (withOutputFormat Executable opts)
        else ExitsWith ("error: unknown output format '" +:+ fmt +:+ "'"
                        +:+ String LF "")
    | None =>
    match (if String.eqb arg "--target" then next else None) with
    | Some v => TakesTwo (withTargetTriple v opts)
    | None =>
        if String.eqb arg "-O0" then TakesOne (withOptimizationLevel 0 opts)
        else if String.eqb arg "-O1"
        then TakesOne (withOptimizationLevel 1 opts)
        else if String.eqb arg "-O2"
        then TakesOne (withOptimizationLevel 2 opts)
        else if String.eqb arg "-O3"
        then TakesOne (withOptimizationLevel 3 opts)
        else if String.eqb arg "--dump-ast" then TakesOne (withDumpAST opts)
        else if String.eqb arg "--dump-tokens"
        then TakesOne (withDumpTokens opts)
        else if negb (Ascii.eqb (firstChar arg) "-")
        then TakesOne (withInputFile arg opts)
        else ExitsWith (unknownOption arg)
    end end end.

(** How [parseArgs] ends: it returns the options or has left the program. *)
Inductive ParsedArgs :=
  | Options (opts : DriverOptions)
  | Exit1 (message : string).

(** The loop of [parseArgs] over the arguments not yet read. *)
Fixpoint parseArgsLoop (args : list string) (opts : DriverOptions)
    : ParsedArgs :=
  match args with
  | [] => Options opts
  | arg :: rest =>
      match parseArg arg (head rest) opts with
      | TakesOne opts' => parseArgsLoop rest opts'
      | TakesTwo opts' =>
          match rest with
          | _ :: rest' => parseArgsLoop rest' opts'
          | [] => Options opts'
          end
      | ExitsWith message => Exit1 message
      end
  end.

(** [parseArgs(argc, argv)]: [argv[0]] is the program and is not read. *)
Definition parseArgs (argv : list string) : ParsedArgs :=
  parseArgsLoop (tail argv) defaultOptions.

(** *** Token management of the parser (lib/Parser/Parser.cpp) *)

(** The members of [Parser] besides its references to the lexer and to the
    engine, which are the state of the monad. *)
Record Parser := mkParser {
  p_current_ : Token;
  p_previous_ : Token
}.

(** Equality of two values of the enumeration. *)
Definition kindEqb (a b : TokenKind) : bool :=
  kindOrdinal a =? kindOrdinal b.

(** The kinds at which [Parser::synchronize] stops. *)
Definition startsDeclOrStmt (k : TokenKind) : bool :=
  match k with
  | KwFunc | KwLet | KwConst | KwStruct | KwClass | KwEnum | KwTrait
  | KwImpl | KwReturn | KwIf | KwFor | KwWhile | KwLoop | KwModule
  | KwImport => true
  | _ => false
  end.

Section ParserImpl.

Variable stod_out_of_range : string -> bool.
(** The fuel the lexer gets for each token. *)
Variable lexFuel : nat.

(** [Parser::Parser]: "Prime the parser with the first token" *)
Definition newParser : M Parser :=
  t ← nextToken stod_out_of_range lexFuel;
  mret {| p_current_ := t; p_previous_ := defaultToken |}.

(** [Parser::advance] *)
Definition parserAdvance (P : Parser) : M (Token * Parser) :=
  t ← nextToken stod_out_of_range lexFuel;
  mret (p_current_ P, {| p_current_ := t; p_previous_ := p_current_ P |}).

(** [Parser::check] *)
Definition parserCheck (k : TokenKind) (P : Parser) : bool :=
  kindEqb (kind (p_current_ P)) k.

(** [Parser::match] *)
Definition parserMatch (k : TokenKind) (P : Parser) : M (bool * Parser) :=
  if parserCheck k P then
    r ← parserAdvance P; mret (true, snd r)
  else mret (false, P).

(** [Parser::expect] *)
Definition expect (k : TokenKind) (message : string) (P : Parser)
    : M (Token * Parser) :=
  if parserCheck k P then parserAdvance P
  else
    diagError (location (p_current_ P))
      (message +:+ ", got '" +:+ text (p_current_ P) +:+ "'");;
    mret (p_current_ P, P).

(** [Parser::expectSemicolon] *)
Definition expectSemicolon (P : Parser) : M (Token * Parser) :=
  expect Semicolon "expected ';'" P.

(** [Parser::synchronize]; [fuel] bounds the rounds of its loop. *)
Fixpoint synchronize (fuel : nat) (P : Parser) : M Parser :=
  match fuel with
  | O => diverge
  | S fuel' =>
      if negb (parserCheck Eof P) then
        if kindEqb (kind (p_previous_ P)) Semicolon then mret P
        else if startsDeclOrStmt (kind (p_current_ P)) then mret P
        else r ← parserAdvance P; synchronize fuel' (snd r)
      else mret P
  end.

End ParserImpl.

(** Where [synchronize] stops: at the end of the input, right after a
    semicolon, or before a token that starts a declaration or a
    statement. *)
Definition atSyncPoint (P : Parser) : bool :=
  kindEqb (kind (p_current_ P)) Eof
  || kindEqb (kind (p_previous_ P)) Semicolon
  || startsDeclOrStmt (kind (p_current_ P)).

(** *** Scopes during resolution *)

(** A pass of the resolver that changes at most the current scope, and of
    it neither the name nor the symbols: what it declares, it declares in
    scopes it has left again. *)
Definition KeepsSymbols (f : Resolver -> Resolver) : Prop :=
  forall cur parents d, exists cur',
    scopes (f {| scopes := cur :: parents; rdiag := d |}) = cur' :: parents
    /\ symbols cur' = symbols cur /\ scopeName cur' = scopeName cur.

(** A pass that may also add symbols to the current scope. *)
Definition GrowsHead (f : Resolver -> Resolver) : Prop :=
  forall cur parents d, exists cur',
    scopes (f {| scopes := cur :: parents; rdiag := d |}) = cur' :: parents
    /\ symbols cur ⊆ symbols cur' /\ scopeName cur' = scopeName cur.

(** The name a top-level declaration is registered under. *)
Definition declaredName (decl : Decl) : option string :=
  match decl with
  | FuncDeclD fd => Some (fd_name fd)
  | StructDecl _ _ name _ _ | ClassDecl _ _ name _ _ _
  | EnumDecl _ _ name _ _ | TraitDecl _ _ name _ _ _
  | TypeAliasDecl _ _ name _ _ => Some name
  | ModuleDecl _ _ _ | ImportDecl _ _ _ _ | ImplDecl _ _ _ _ _ _ => None
  end.

(** The first pass of [NameResolver::resolve]. *)
Definition registerAll (module : Module_) (r : Resolver) : Resolver :=
  fold_left (fun r decl => registerDecl decl r) (declarations module) r.

(** *** What the type checker keeps *)

(** A step of the type checker that leaves the scope and the known types
    alone. *)
Definition SameTypes (f : TypeChecker -> TypeChecker) : Prop :=
  forall t, scope_ (f t) = scope_ t /\ knownTypes_ (f t) = knownTypes_ t.

(** The names of the global scope that [check] adds to the known types. *)
Definition userTypes (sc : Scope) : gset string :=
  dom (filter (fun kv => namesType (snd kv) = true) (symbols sc)).

(** *** Symbols and their types *)

(** No symbol of the scopes has a type name. *)
Definition Untyped (chain : ScopeChain) : Prop :=
  Forall (fun sc => map_Forall (fun _ sym => sym_typeName sym = "")
                      (symbols sc)) chain.

(** A pass of the resolver that keeps a property of the open scopes. *)
Definition Keeps (I : ScopeChain -> Prop) (f : Resolver -> Resolver) : Prop :=
  forall sc d, I sc -> I (scopes (f {| scopes := sc; rdiag := d |})).

(** *** How far the lexer gets *)

(** The lexer stands inside a source whose size fits [current_], and so
    does the start of its token. *)
Definition Good (L : Lexer) : Prop :=
  sourceSize L < UINT32_MOD /\ current_ L <= sourceSize L
  /\ tokenStart_ L <= sourceSize L.

(** From [L] to [L'] the lexer went at least [k] characters forward and
    stayed inside the source; the source, the peek flag and the start of
    the token are the same. *)
Definition Forward (k : N) (L L' : Lexer) : Prop :=
  source_ L' = source_ L /\ hasPeeked_ L' = hasPeeked_ L
  /\ tokenStart_ L' = tokenStart_ L
  /\ current_ L + k <= current_ L' /\ current_ L' <= sourceSize L.

(** A call came back, with a result for which [Q] holds, or, where
    [throws] allows it, left by an exception; it is not still inside a
    loop. *)
Definition Ends {A : Type} (throws : bool)
    (r : Outcome A * Lexer * DiagnosticEngine)
    (Q : A -> Lexer -> Prop) : Prop :=
  match r with
  | (Ok a, L', _) => Q a L'
  | (Throw _, _, _) => throws = true
  | (Diverge, _, _) => False
  end.

(** Whether a decimal digit occurs in the text. *)
Definition hasDigit (s : string) : bool :=
  existsb isdigit (list_ascii_of_string s).

(** What [lexAll] returns when it returns: tokens of which the last, and
    only the last, is [Eof]. *)
Definition endsInEof (ts : list Token) : Prop :=
  exists front t,
    ts = front ++ [t] /\ kind t = Eof /\
    Forall (fun t' => kind t' <> Eof) front.

(** *** The diagnostics of a pass, step by step *)









(** *** The calls of the emitter *)

(** A call of [emitStmt]: the statement, the emitter before it, and the
    contexts of the loops in whose body the call is made, outermost
    first. *)
Record Visit := mkVisit {
  v_loops : list LoopContext;
  v_stmt : Stmt;
  v_state : IREmitter
}.

(** A sequence of statements, one call after the other. *)
Fixpoint visitEach (visit : Stmt -> IREmitter -> IREmitter * list Visit)
    (statements : list Stmt) (E : IREmitter) : IREmitter * list Visit :=
  match statements with
  | [] => (E, [])
  | s :: rest =>
      let (E, v1) := visit s E in
      let (E, v2) := visitEach visit rest E in
      (E, v1 ++ v2)
  end.

(** [emitArguments] with the calls made for the arguments. *)
Fixpoint emitArgumentsT
    (emitExprT : Expr -> IREmitter -> option Value * IREmitter * list Visit)
    (args : list Expr) (acc : list Value) (E : IREmitter)
    : option (list Value) * IREmitter * list Visit :=
  match args with
  | [] => (Some acc, E, [])
  | arg :: rest =>
      match emitExprT arg E with
      | (Some val, E, v1) =>
          let '(r, E, v2) := emitArgumentsT emitExprT rest (acc ++ [val]) E in
          (r, E, v1 ++ v2)
      | (None, E, v1) => (None, E, v1)
      end
  end.

(** [emitExpr] and [emitStmt] once more, with a record of the calls of
    [emitStmt] they make: [emitStmtT] notes the statement and the emitter it
    is called with, and passes to the body of a loop the context it pushes
    for it.  [loops] are the contexts of the loops around. *)
Fixpoint emitExprT (loops : list LoopContext) (e : Expr) (E : IREmitter)
    {struct e} : option Value * IREmitter * list Visit :=
  match e with
  | BinaryExpr _ op lhs rhs =>
      let '(l, E, v1) := emitExprT loops lhs E in
      let '(r, E, v2) := emitExprT loops rhs E in
      (match l, r with
       | Some lv, Some rv => emitBinaryOp op lv rv E
       | _, _ => (None, E)
       end, v1 ++ v2)
  | UnaryExpr _ op operand =>
      let '(o, E, v1) := emitExprT loops operand E in
      (match o with
       | Some ov => emitUnaryOp op ov E
       | None => (None, E)
       end, v1)
  | CallExpr loc callee arguments =>
      let calleeName := calleeNameOf callee in
      match getFunction calleeName E with
      | None =>
          (None, eError loc ("unknown function '" +:+ calleeName +:+ "'") E,
           [])
      | Some (f, calleeFunc) =>
          match emitArgumentsT (emitExprT loops) arguments [] E with
          | (None, E, v1) => (None, E, v1)
          | (Some args, E, v1) =>
              if isVoidTy (fn_returnType calleeFunc) then
                let (_, E) := createOp (OpCall f) args VoidTy "" E in
                (None, E, v1)
              else
                let (v, E) := createOp (OpCall f) args
                                (fn_returnType calleeFunc) "calltmp" E in
                (Some v, E, v1)
          end
      end
  | IfExpr _ condition thenExpr elseExpr =>
      let '(condVal, E, v1) := emitExprT loops condition E in
      match condVal with
      | None => (None, E, v1)
      | Some cv =>
          let func := currentFunction E in
          let (thenBB, E) := createBlockIn "then" func E in
          let (elseBB, E) := createBlock "else" E in
          let (mergeBB, E) := createBlock "ifcont" E in
          let E := CreateCondBr cv thenBB elseBB E in
          (* Then *)
          let E := SetInsertPoint thenBB E in
          let '(thenVal, E, v2) := emitExprT loops thenExpr E in
          let E := if negb (getTerminator E) then CreateBr mergeBB E else E in
          let thenEnd := default thenBB (insertBlock E) in
          (* Else *)
          let E := insertIntoFunction func elseBB E in
          let E := SetInsertPoint elseBB E in
          let '(elseVal, E, v3) :=
            match elseExpr with
            | Some ee => emitExprT loops ee E
            | None => (None, E, [])
            end in
          let E := if negb (getTerminator E) then CreateBr mergeBB E else E in
          let elseEnd := default elseBB (insertBlock E) in
          (* Merge *)
          let E := insertIntoFunction func mergeBB E in
          let E := SetInsertPoint mergeBB E in
          (match thenVal, elseVal with
           | Some tv, Some ev =>
               if LType_eqb (typeOf tv) (typeOf ev) then
                 let (phi, E) :=
                   createOp (OpPHI [(tv, thenEnd); (ev, elseEnd)]) []
                     (typeOf tv) "iftmp" E in
                 (Some phi, E)
               else (thenVal, E)
           | _, _ => (thenVal, E)
           end, v1 ++ v2 ++ v3)
      end
  | BlockExpr _ statements finalExpr =>
      let (E, v1) := visitEach (emitStmtT loops) statements E in
      match finalExpr with
      | Some fe =>
          let '(val, E, v2) := emitExprT loops fe E in (val, E, v1 ++ v2)
      | None => (None, E, v1)
      end
  | AssignExpr _ target value =>
      let '(val, E, v1) := emitExprT loops value E in
      (match val with
       | None => (None, E)
       | Some v =>
           match target with
           | IdentExpr _ name =>
               match namedValues_ E !! name with
               | Some (alloca, _) => (Some v, CreateStore v alloca E)
               | None => (None, E)
               end
           | _ => (None, E)
           end
       end, v1)
  | IntLiteralExpr _ _ | FloatLiteralExpr _ _ | StringLiteralExpr _ _
  | BoolLiteralExpr _ _ | IdentExpr _ _
  | CharLiteralExpr _ _ | PathExpr _ _ | MethodCallExpr _ _ _ _
  | MemberAccessExpr _ _ _ | IndexExpr _ _ _ | CastExpr _ _ _
  | MatchExpr _ _ _ | ClosureExpr _ _ _ _ _ | ConstructExpr _ _ _
  | StructLiteralExpr _ _ _ | TupleExpr _ _ | ArrayExpr _ _
  | RangeExpr _ _ _ _ | RefExpr _ _ | MutRefExpr _ _ | MoveExpr _ _
  | AwaitExpr _ _ | TryExpr _ _ | CompoundAssignExpr _ _ _ _ =>
      (* no statement is reached from these *)
      (emitExpr e E, [])
  end

with emitStmtT (loops : list LoopContext) (s : Stmt) (E : IREmitter)
    {struct s} : IREmitter * list Visit :=
  let here := {| v_loops := loops; v_stmt := s; v_state := E |} in
  match s with
  | LetStmt _ name type initializer _ =>
      let varType := match type with
                     | Some ty => mapType ty
                     | None => IntTy 64
                     end in
      let func := currentFunction E in
      let (alloca, E) := createEntryBlockAlloca func name varType E in
      let (E, v1) :=
        match initializer with
        | Some init =>
            let '(initVal, E, v1) := emitExprT loops init E in
            (match initVal with
             | Some iv =>
                 let (iv, E) :=
                   if isIntegerTy varType && isIntegerTy (typeOf iv) &&
                      negb (LType_eqb varType (typeOf iv))
                   then
                     if getIntegerBitWidth varType
                        <? getIntegerBitWidth (typeOf iv)
                     then createOp OpTrunc [iv] varType "trunc" E
                     else createOp OpSExt [iv] varType "sext" E
                   else (iv, E) in
                 CreateStore iv alloca E
             | None => E
             end, v1)
        | None => (E, [])
        end in
      (setNamedValues (<[name := (alloca, varType)]> (namedValues_ E)) E,
       here :: v1)
  | ReturnStmt _ value =>
      match value with
      | Some v =>
          let '(val, E, v1) := emitExprT loops v E in
          (match val with
           | Some rv => CreateRet rv E
           | None => CreateRetVoid E
           end, here :: v1)
      | None => (CreateRetVoid E, [here])
      end
  | IfStmt _ condition thenBranch elseBranch =>
      let '(condVal, E, v1) := emitExprT loops condition E in
      match condVal with
      | None => (E, here :: v1)
      | Some cv =>
          let func := currentFunction E in
          let (thenBB, E) := createBlockIn "then" func E in
          let (elseBB, E) := createBlock "else" E in
          let (mergeBB, E) := createBlock "ifcont" E in
          let E := match elseBranch with
                   | Some _ => CreateCondBr cv thenBB elseBB E
                   | None => CreateCondBr cv thenBB mergeBB E
                   end in
          (* Then block *)
          let E := SetInsertPoint thenBB E in
          let (E, v2) := emitStmtT loops thenBranch E in
          let E := if negb (getTerminator E) then CreateBr mergeBB E else E in
          (* Else block *)
          let (E, v3) :=
            match elseBranch with
            | Some eb =>
                let E := insertIntoFunction func elseBB E in
                let E := SetInsertPoint elseBB E in
                let (E, v3) := emitStmtT loops eb E in
                (if negb (getTerminator E) then CreateBr mergeBB E else E, v3)
            | None => (E, [])
            end in
          (* Merge block *)
          let E := insertIntoFunction func mergeBB E in
          (SetInsertPoint mergeBB E, here :: v1 ++ v2 ++ v3)
      end
  | ForStmt _ _ _ _ body =>
      let func := currentFunction E in
      let (condBB, E) := createBlockIn "for.cond" func E in
      let (bodyBB, E) := createBlockIn "for.body" func E in
      let (exitBB, E) := createBlockIn "for.exit" func E in
      let E := CreateBr condBB E in
      let E := SetInsertPoint condBB E in
      let E := CreateBr bodyBB E in
      let E := SetInsertPoint bodyBB E in
      let ctx := {| breakBlock := exitBB; continueBlock := condBB |} in
      let E := pushLoop ctx E in
      let (E, v1) := emitStmtT (loops ++ [ctx]) body E in
      let E := popLoop E in
      let E := if negb (getTerminator E) then CreateBr exitBB E else E in
      (SetInsertPoint exitBB E, here :: v1)
  | WhileStmt _ condition body =>
      let func := currentFunction E in
      let (condBB, E) := createBlockIn "while.cond" func E in
      let (bodyBB, E) := createBlockIn "while.body" func E in
      let (exitBB, E) := createBlockIn "while.exit" func E in
      let E := CreateBr condBB E in
      (* Condition *)
      let E := SetInsertPoint condBB E in
      let '(condVal, E, v1) := emitExprT loops condition E in
      let E := match condVal with
               | Some cv => CreateCondBr cv bodyBB exitBB E
               | None => E
               end in
      (* Body *)
      let E := SetInsertPoint bodyBB E in
      let ctx := {| breakBlock := exitBB; continueBlock := condBB |} in
      let E := pushLoop ctx E in
      let (E, v2) := emitStmtT (loops ++ [ctx]) body E in
      let E := popLoop E in
      let E := if negb (getTerminator E) then CreateBr condBB E else E in
      (SetInsertPoint exitBB E, here :: v1 ++ v2)
  | LoopStmt _ body =>
      let func := currentFunction E in
      let (bodyBB, E) := createBlockIn "loop.body" func E in
      let (exitBB, E) := createBlockIn "loop.exit" func E in
      let E := CreateBr bodyBB E in
      let E := SetInsertPoint bodyBB E in
      let ctx := {| breakBlock := exitBB; continueBlock := bodyBB |} in
      let E := pushLoop ctx E in
      let (E, v1) := emitStmtT (loops ++ [ctx]) body E in
      let E := popLoop E in
      let E := if negb (getTerminator E) then CreateBr bodyBB E else E in
      (SetInsertPoint exitBB E, here :: v1)
  | BlockStmt _ statements =>
      let (E, v1) := visitEach (emitStmtT loops) statements E in
      (E, here :: v1)
  | ExprStmt _ expression =>
      let '(_, E, v1) := emitExprT loops expression E in
      (E, here :: v1)
  | BreakStmt _ | ContinueStmt _ | ConstStmt _ _ _ _ | MatchStmt _ _ _ =>
      (emitStmt s E, [here])
  end.

(** The calls [vs] were made in the body of the loops [loops], and maybe of
    more, under a stack that is [stack] and the contexts of those. *)
Definition VisitsUnder (loops stack : list LoopContext) (vs : list Visit)
    : Prop :=
  Forall (fun v => exists inner,
            v_loops v = loops ++ inner
            /\ loopStack_ (v_state v) = stack ++ inner) vs.

(** The record [emitExprT] and [emitStmtT] keep is of the calls [emitExpr]
    and [emitStmt] make, each under the stack of the loops around it. *)
Definition TracedE (e : Expr) : Prop :=
  forall loops E, exists vs,
    emitExprT loops e E = (emitExpr e E, vs)
    /\ VisitsUnder loops (loopStack_ E) vs.

Definition TracedS (s : Stmt) : Prop :=
  forall loops E, exists vs,
    emitStmtT loops s E = (emitStmt s E, vs)
    /\ VisitsUnder loops (loopStack_ E) vs.

(* ===================================================================== *)
(** * Properties *)
(* ===================================================================== *)

(** ** Type compatibility *)

Lemma string_eqb_true (a b : string) : String.eqb a b = true <-> a = b.
Proof. apply String.eqb_eq. Qed.

(** C4: [typesCompatible expected actual] holds exactly when the two names
    are equal, or [actual] is "Int64" and [expected] is one of the eight
    integer primitive names, or [actual] is "Float64" and [expected] is
    "Float32". *)
Theorem typesCompatible_exactly (expected actual : string) :
  typesCompatible expected actual = true <->
  (expected = actual
   \/ (actual = "Int64" /\ In expected integerPrimitives)
   \/ (actual = "Float64" /\ expected = "Float32")).
Proof.
  unfold typesCompatible, integerPrimitives.
  destruct (String.eqb_spec expected actual) as [Heq | Hne].
  { split; auto. }
  split.
  - destruct (String.eqb_spec actual "Int64") as [Ha | Ha]; simpl.
    + subst actual.
      repeat match goal with
        | |- context [String.eqb expected ?s] =>
            destruct (String.eqb_spec expected s); simpl
        end.
      all: intros H; try discriminate H.
      all: right; left; split; [reflexivity | subst expected; simpl].
      all: repeat (first [ left; reflexivity | right ]).
    + destruct (String.eqb_spec actual "Float64") as [Hf | Hf]; simpl;
        [ | discriminate ].
      destruct (String.eqb_spec expected "Float32"); [ | discriminate ].
      intros _. right; right; split; assumption.
  - intros [H | [[Ha Hin] | [Ha He]]].
    + contradiction.
    + subst actual. simpl in Hin.
      destruct Hin as [H|[H|[H|[H|[H|[H|[H|[H|[]]]]]]]]]; subst expected;
        try reflexivity.
      contradiction Hne; reflexivity.
    + subst. reflexivity.
Qed.

(** ** The lexer on malformed numeric literals *)

(** C1: the lexer does not turn every malformed number into an [Invalid]
    token.  On a hexadecimal, binary or octal prefix that ends the input, on
    an octal prefix followed by a character that is no octal digit, and on a
    decimal literal above the 64-bit range, [nextToken] (and with it
    [lexAll]) leaves by an exception of [std::stoll], and the engine has
    recorded nothing. *)
Theorem nextToken_throws_on_malformed_number (stod_oor : string -> bool) :
  nextToken stod_oor 8 (newLexer "0x" "<input>") newEngine
    = (Throw invalid_argument,
       set_column 3 (set_current 2 (newLexer "0x" "<input>")), newEngine)
  /\ outcomeOf (nextToken stod_oor 8 (newLexer "0b" "<input>") newEngine)
       = Throw invalid_argument
  /\ outcomeOf (nextToken stod_oor 8 (newLexer "0o" "<input>") newEngine)
       = Throw invalid_argument
  /\ nextToken stod_oor 8 (newLexer "0o9" "<input>") newEngine
       = (Throw invalid_argument,
          set_column 3 (set_current 2 (newLexer "0o9" "<input>")), newEngine)
  /\ nextToken stod_oor 32
       (newLexer "99999999999999999999" "<input>") newEngine
       = (Throw out_of_range,
          set_column 21
            (set_current 20 (newLexer "99999999999999999999" "<input>")),
          newEngine)
  /\ outcomeOf (lexAll stod_oor 8 (newLexer "0x" "<input>") newEngine)
       = Throw invalid_argument.
Proof. repeat split; vm_compute; reflexivity. Qed.

(** The guarded sibling: with any character after the prefix the
    hexadecimal and binary branches do produce [Invalid] and a diagnostic. *)
Lemma nextToken_invalid_on_prefix_then_other (stod_oor : string -> bool) :
  kinds (lexAll stod_oor 8 (newLexer "0x " "<input>") newEngine)
    = Ok [Invalid; Eof]
  /\ map message (diagnostics_
       (engineOf (lexAll stod_oor 8 (newLexer "0x " "<input>") newEngine)))
     = ["expected hexadecimal digit after '0x'"]
  /\ kinds (lexAll stod_oor 8 (newLexer "0b2" "<input>") newEngine)
       = Ok [Invalid; IntLiteral; Eof].
Proof. repeat split; vm_compute; reflexivity. Qed.

(** ** The token stream of [lexAll] *)

(** C7: [lexAll] does not return a token sequence for every source: on
    "x = 0b" the two tokens already lexed are lost and the call leaves by
    the exception of [std::stoll]. *)
Theorem lexAll_throws_instead_of_Eof (stod_oor : string -> bool) :
  outcomeOf (lexAll stod_oor 16 (newLexer "x = 0b" "<input>") newEngine)
    = Throw invalid_argument
  /\ engineOf (lexAll stod_oor 16 (newLexer "x = 0b" "<input>") newEngine)
    = newEngine.
Proof. split; vm_compute; reflexivity. Qed.

Lemma lexAllLoop_Ok (stod_oor : string -> bool) (fuel n : nat) :
  forall (acc : list Token) L d ts L' d',
    lexAllLoop stod_oor fuel n acc L d = (Ok ts, L', d') ->
    exists mid t,
      ts = acc ++ mid ++ [t] /\ kind t = Eof /\
      Forall (fun t' => kind t' <> Eof) mid.
Proof.
  induction n as [| n IH]; intros acc L d ts L' d' H; simpl in H.
  - discriminate H.
  - unfold mbind, M_bind in H.
    destruct (nextToken stod_oor fuel L d) as [[o L1] d1].
    destruct o as [t | e |]; try discriminate H.
    destruct (isEofKind (kind t)) eqn:Hk.
    + unfold mret, M_ret in H. injection H as <- _ _.
      exists [], t. repeat split; auto.
      destruct (kind t); try discriminate Hk; reflexivity.
    + apply IH in H. destruct H as (mid & t' & -> & Ht' & Hmid).
      exists (t :: mid), t'. repeat split; auto.
      * rewrite <- app_assoc. reflexivity.
      * constructor; auto. intros Heq. rewrite Heq in Hk. discriminate Hk.
Qed.

(** Whenever [lexAll] does return, the sequence is not empty, its last
    token is [Eof], and no earlier token is. *)
Lemma lexAll_returned_tokens_end_in_Eof (stod_oor : string -> bool)
    (fuel : nat) L d ts L' d' :
  lexAll stod_oor fuel L d = (Ok ts, L', d') ->
  exists front t,
    ts = front ++ [t] /\ kind t = Eof /\
    Forall (fun t' => kind t' <> Eof) front.
Proof.
  unfold lexAll. intros H. apply lexAllLoop_Ok in H.
  destruct H as (mid & t & -> & Ht & Hmid). exists mid, t. auto.
Qed.

(** ** Name resolution: identifiers in match arms *)

(** C2: resolution can complete without any error although an identifier
    names no symbol of any scope.  For
    [func f() -> Void { match 0 { _ => y } }] the resolver records nothing
    and [analyze] succeeds, while the scope tree holds [f] alone; the match
    expression with the same arm does report [y]. *)
Theorem resolver_skips_match_statement_arms :
  let r := resolve matchStmtProgram
             (newResolver newEngine (mkScope "global" ∅ [])) in
  rdiag r = newEngine
  /\ scopes r
     = [mkScope "global"
          {[ "f" := symbolOf SymbolKind.Function "f" loc0 Private false ]}
          [mkScope "f" ∅ []]]
  /\ fst (analyze matchStmtProgram (newSema newEngine)) = true
  /\ map message
       (diagnostics_
          (rdiag (resolve matchExprProgram
                    (newResolver newEngine (mkScope "global" ∅ [])))))
     = ["use of undeclared identifier 'y'"].
Proof. repeat split; vm_compute; reflexivity. Qed.

(** ** The engine as a sink *)

Lemma emitAll_app (l1 l2 : list Diagnostic) (d : DiagnosticEngine) :
  emitAll (l1 ++ l2) d = emitAll l2 (emitAll l1 d).
Proof. unfold emitAll. apply fold_left_app. Qed.

Lemma diagnostics_emit (x : Diagnostic) (d : DiagnosticEngine) :
  diagnostics_ (emit x d) = diagnostics_ d ++ [x].
Proof. unfold emit. destruct (severity x); reflexivity. Qed.

Lemma diagnostics_emitAll (l : list Diagnostic) (d : DiagnosticEngine) :
  diagnostics_ (emitAll l d) = diagnostics_ d ++ l.
Proof.
  revert d. induction l as [| x l IH]; intros d; simpl.
  - rewrite app_nil_r. reflexivity.
  - change (emitAll (x :: l) d) with (emitAll l (emit x d)).
    rewrite IH, diagnostics_emit, <- app_assoc. reflexivity.
Qed.

Lemma emitAll_emitError (loc : SourceLocation) (msg : string)
    (d : DiagnosticEngine) :
  emitError loc msg d
  = emitAll [ {| severity := Error; dlocation := loc; message := msg;
                 notes := []; fixes := [] |} ] d.
Proof. reflexivity. Qed.

Lemma emitAll_log_newEngine (l : list Diagnostic) (d : DiagnosticEngine) :
  emitAll (diagnostics_ (emitAll l newEngine)) d = emitAll l d.
Proof. rewrite diagnostics_emitAll. reflexivity. Qed.

(** ** Induction over the syntax tree *)

Scheme Expr_mind := Induction for Expr Sort Prop
  with MatchArm_mind := Induction for MatchArm Sort Prop
  with FieldInit_mind := Induction for FieldInit Sort Prop
  with Pattern_mind := Induction for Pattern Sort Prop
  with Stmt_mind := Induction for Stmt Sort Prop.

Combined Scheme AST_mutind
  from Expr_mind, MatchArm_mind, FieldInit_mind, Pattern_mind, Stmt_mind.

(** ** The resolver does not look at the engine *)

#[local] Arguments emitAll : simpl never.

Lemma emitAll_nil (d : DiagnosticEngine) : emitAll [] d = d.
Proof. reflexivity. Qed.

Lemma EngineBlind_intro (f : Resolver -> Resolver) :
  (forall sc, exists sc' log, forall d,
      f {| scopes := sc; rdiag := d |}
      = {| scopes := sc'; rdiag := emitAll log d |}) ->
  EngineBlind f.
Proof.
  intros H sc d. destruct (H sc) as (sc' & log & E).
  unfold scopesAfter, logOf. rewrite !E. simpl.
  rewrite emitAll_log_newEngine. reflexivity.
Qed.

Lemma EngineBlind_id : EngineBlind (fun r => r).
Proof.
  apply EngineBlind_intro. intros sc. exists sc, []. reflexivity.
Qed.

Lemma EngineBlind_rError loc msg : EngineBlind (rError loc msg).
Proof.
  apply EngineBlind_intro. intros sc. eexists sc, [_]. intros d.
  unfold rError. simpl. rewrite emitAll_emitError. reflexivity.
Qed.

Lemma EngineBlind_enterScope name : EngineBlind (enterScope name).
Proof.
  apply EngineBlind_intro. intros sc. eexists _, []. intros d.
  unfold enterScope, declare, withScopes. simpl. reflexivity.
Qed.

Lemma EngineBlind_exitScope : EngineBlind exitScope.
Proof.
  apply EngineBlind_intro. intros sc.
  destruct sc as [| child [| [n syms ch] ancestors]];
    eexists _, []; intros d; unfold exitScope, withScopes; simpl;
    reflexivity.
Qed.

Lemma EngineBlind_declare name sym : EngineBlind (declare name sym).
Proof.
  apply EngineBlind_intro. intros sc. eexists _, []. intros d.
  unfold enterScope, declare, withScopes. simpl. reflexivity.
Qed.

Lemma EngineBlind_declareOrError name sym loc msg :
  EngineBlind (declareOrError name sym loc msg).
Proof.
  apply EngineBlind_intro. intros sc. unfold declareOrError. simpl.
  destruct (insert name sym sc) as [[|] chain].
  - eexists _, []. intros d. unfold withScopes. simpl. reflexivity.
  - eexists sc, [_]. intros d. unfold rError. simpl.
    rewrite emitAll_emitError. reflexivity.
Qed.

Lemma EngineBlind_compose (f g : Resolver -> Resolver) :
  EngineBlind f -> EngineBlind g -> EngineBlind (fun r => g (f r)).
Proof.
  intros Hf Hg. apply EngineBlind_intro. intros sc.
  eexists _, _. intros d. rewrite Hf, Hg, <- emitAll_app. reflexivity.
Qed.

Lemma EngineBlind_fold {A : Type} (F : Resolver -> A -> Resolver)
    (l : list A) :
  list_all A (fun x => EngineBlind (fun r => F r x)) l ->
  EngineBlind (fold_left F l).
Proof.
  induction 1 as [| x Hx l Hl IH].
  - apply EngineBlind_id.
  - apply (EngineBlind_compose (fun r => F r x) (fold_left F l)); assumption.
Qed.

Lemma list_all_of_forall {A : Type} (P : A -> Prop) (l : list A) :
  (forall x, P x) -> list_all A P l.
Proof. intros H. induction l; constructor; auto. Qed.

Lemma list_all_impl {A : Type} (P Q : A -> Prop) (l : list A) :
  (forall x, P x -> Q x) -> list_all A P l -> list_all A Q l.
Proof. intros H. induction 1; constructor; auto. Qed.

Lemma EngineBlind_option {A : Type} (f : A -> Resolver -> Resolver)
    (o : option A) :
  option_all A (fun x => EngineBlind (f x)) o ->
  EngineBlind (fun r => match o with Some x => f x r | None => r end).
Proof.
  intros [x Hx |].
  - exact Hx.
  - apply EngineBlind_id.
Qed.

Lemma EngineBlind_closureParams params :
  EngineBlind (fold_left declareClosureParam params).
Proof.
  apply EngineBlind_fold, list_all_of_forall. intros p.
  apply EngineBlind_declare.
Qed.

Lemma EngineBlind_ident loc name : EngineBlind (resolveExpr (IdentExpr loc name)).
Proof.
  apply EngineBlind_intro. intros sc. simpl.
  destruct (lookup sc name).
  - exists sc, []. reflexivity.
  - eexists sc, [_]. intros d. unfold rError. simpl.
    rewrite emitAll_emitError. reflexivity.
Qed.

(** One step of a proof that a composite is blind: push the engine through
    a call that is known to be blind. *)
Ltac blind_step :=
  match goal with
  | H : EngineBlind ?f |- context [?f {| scopes := ?s; rdiag := ?e |}] =>
      rewrite (H s e)
  | |- context [enterScope ?n {| scopes := ?s; rdiag := ?e |}] =>
      rewrite (EngineBlind_enterScope n s e)
  | |- context [exitScope {| scopes := ?s; rdiag := ?e |}] =>
      rewrite (EngineBlind_exitScope s e)
  | |- context [declare ?n ?y {| scopes := ?s; rdiag := ?e |}] =>
      rewrite (EngineBlind_declare n y s e)
  | |- context [declareOrError ?n ?y ?l ?m {| scopes := ?s; rdiag := ?e |}] =>
      rewrite (EngineBlind_declareOrError n y l m s e)
  | |- context [rError ?l ?m {| scopes := ?s; rdiag := ?e |}] =>
      rewrite (EngineBlind_rError l m s e)
  | |- context [fold_left declareClosureParam ?p
                  {| scopes := ?s; rdiag := ?e |}] =>
      rewrite (EngineBlind_closureParams p s e)
  end.

Ltac blind :=
  apply EngineBlind_intro;
  let sc := fresh "sc" in
  let d := fresh "d" in
  intros sc; eexists; eexists; intros d;
  rewrite <- (emitAll_nil d);
  cbn [resolveExpr resolveStmt];
  repeat blind_step;
  rewrite <- ?emitAll_app; reflexivity.

(** The induction hypotheses on lists and optional children, as facts
    about the loops and tests that visit them. *)
Ltac blind_hyps :=
  repeat match goal with
  | X : list_all Expr _ _ |- _ =>
      apply (EngineBlind_fold (fun r a => resolveExpr a r)) in X
  | X : list_all Stmt _ _ |- _ =>
      apply (EngineBlind_fold (fun r a => resolveStmt a r)) in X
  | X : list_all MatchArm _ _ |- _ =>
      apply (EngineBlind_fold
               (fun r arm =>
                  match arm with
                  | mkMatchArm _ _ body _ =>
                      exitScope (resolveExpr body (enterScope "match_arm" r))
                  end)) in X
  | X : list_all FieldInit _ _ |- _ =>
      apply (EngineBlind_fold
               (fun r fi => match fi with
                            | mkFieldInit _ value _ => resolveExpr value r
                            end)) in X
  | X : option_all _ _ _ |- _ => destruct X
  end.

Lemma resolve_AST_blind :
  (forall e, EngineBlind (resolveExpr e))
  /\ (forall arm, EngineBlind
        (fun r => match arm with
                  | mkMatchArm _ _ body _ =>
                      exitScope (resolveExpr body (enterScope "match_arm" r))
                  end))
  /\ (forall fi, EngineBlind
        (fun r => match fi with
                  | mkFieldInit _ value _ => resolveExpr value r
                  end))
  /\ (forall p : Pattern, True)
  /\ (forall s, EngineBlind (resolveStmt s)).
Proof.
  apply AST_mutind; intros; try exact I;
    try apply EngineBlind_ident; blind_hyps; blind.
Qed.

Lemma resolveExpr_blind e : EngineBlind (resolveExpr e).
Proof. apply resolve_AST_blind. Qed.










(** ** The type checker does not look at the engine *)

Lemma tError_blind loc msg sc k c d :
  tError loc msg {| tdiag := d; scope_ := sc; knownTypes_ := k;
                    currentReturnType_ := c |}
  = {| tdiag := emitAll [ {| severity := Error; dlocation := loc;
                             message := msg; notes := []; fixes := [] |} ] d;
       scope_ := sc; knownTypes_ := k; currentReturnType_ := c |}.
Proof. reflexivity. Qed.

Lemma CheckerBlind_intro (f : TypeChecker -> TypeChecker) :
  (forall sc k c, exists sc' k' c' log, forall d,
      f {| tdiag := d; scope_ := sc; knownTypes_ := k;
           currentReturnType_ := c |}
      = {| tdiag := emitAll log d; scope_ := sc'; knownTypes_ := k';
           currentReturnType_ := c' |}) ->
  CheckerBlind f.
Proof.
  intros H sc k c d. destruct (H sc k c) as (sc' & k' & c' & log & E).
  unfold checkedFrom, checkerAt. rewrite !E. simpl.
  rewrite emitAll_log_newEngine. reflexivity.
Qed.




Lemma CheckerBlind_setCurrentReturnType s :
  CheckerBlind (setCurrentReturnType s).
Proof.
  apply CheckerBlind_intro. intros sc k c. exists sc, k, s, []. reflexivity.
Qed.

Lemma CheckerBlind_tError loc msg : CheckerBlind (tError loc msg).
Proof.
  apply CheckerBlind_intro. intros sc k c. eexists sc, k, c, [_].
  intros d. apply tError_blind.
Qed.

Lemma ExprBlind_intro (e : Expr) :
  (forall sc k c, exists ty log, forall d,
      checkExpr e {| tdiag := d; scope_ := sc; knownTypes_ := k;
                     currentReturnType_ := c |}
      = (ty, {| tdiag := emitAll log d; scope_ := sc; knownTypes_ := k;
                currentReturnType_ := c |})) ->
  ExprBlind e.
Proof.
  intros H sc k c d. destruct (H sc k c) as (ty & log & E).
  unfold typeFound, exprLog, checkerAt. rewrite !E. simpl.
  rewrite emitAll_log_newEngine. reflexivity.
Qed.

Lemma ExprBlind_snd e :
  ExprBlind e -> CheckerBlind (fun t => snd (checkExpr e t)).
Proof.
  intros H. apply CheckerBlind_intro. intros sc k c.
  eexists sc, k, c, _. intros d. rewrite H. reflexivity.
Qed.

Lemma checkArgs_blind (arguments : list Expr) :
  list_all Expr ExprBlind arguments ->
  forall sc k c, exists log, forall d,
    fold_left (fun t arg => snd (checkExpr arg t)) arguments
      {| tdiag := d; scope_ := sc; knownTypes_ := k;
         currentReturnType_ := c |}
    = {| tdiag := emitAll log d; scope_ := sc; knownTypes_ := k;
         currentReturnType_ := c |}.
Proof.
  induction 1 as [| x Hx l Hl IH]; intros sc k c.
  - exists []. reflexivity.
  - destruct (IH sc k c) as (log & E).
    exists (exprLog x sc k c ++ log). intros d. cbn [fold_left].
    rewrite Hx. cbn [snd]. rewrite E, emitAll_app. reflexivity.
Qed.

Lemma checkExpr_blind : forall e, ExprBlind e.
Proof.
  apply (Expr_mind ExprBlind (fun _ => True) (fun _ => True)
           (fun _ => True) (fun _ => True));
    intros; try exact I;
    try (apply ExprBlind_intro; intros sc k c; eexists _, []; intros d;
         reflexivity).
  - (* IdentExpr *)
    apply ExprBlind_intro. intros sc k c. eexists _, []. intros d.
    cbn [checkExpr]. unfold checkIdentExpr. cbn [scope_]. reflexivity.
  - (* BinaryExpr *)
    apply ExprBlind_intro. intros sc k c.
    cbn [checkExpr].
    pose proof (H sc k c) as Hl. pose proof (H0 sc k c) as Hr.
    destruct (yieldsBool op) eqn:Hop.
    + eexists _, _. intros d. rewrite Hl. cbv beta iota. rewrite Hr.
      cbv beta iota. rewrite <- emitAll_app. reflexivity.
    + destruct (negb (isEmpty (typeFound lhs sc k c)) &&
                negb (isEmpty (typeFound rhs sc k c)) &&
                negb (typesCompatible (typeFound lhs sc k c)
                        (typeFound rhs sc k c))) eqn:Hmis.
      * eexists _, _. intros d. rewrite Hl. cbv beta iota. rewrite Hr.
        cbv beta iota zeta. rewrite Hmis, tError_blind.
        rewrite <- !emitAll_app. reflexivity.
      * eexists _, _. intros d. rewrite Hl. cbv beta iota. rewrite Hr.
        cbv beta iota zeta. rewrite Hmis.
        rewrite <- !emitAll_app. reflexivity.
  - (* CallExpr *)
    apply ExprBlind_intro. intros sc k c.
    cbn [checkExpr].
    destruct (checkArgs_blind arguments H0 sc k c) as (log & Hargs).
    eexists _, _. intros d. rewrite H. cbn [snd]. rewrite Hargs.
    rewrite <- emitAll_app. reflexivity.
Qed.















(** ** The phases of semantic analysis *)



(** For [func f() -> Void { let x: Foo = y; }] the resolver reports [y];
    [analyze] then returns without running the type checker, which would
    have reported the unknown type [Foo]. *)
Lemma analyze_skips_checker_after_resolver_error :
  ~ checkerRanAfterResolver twoErrorsProgram (newSema newEngine).
Proof.
  unfold checkerRanAfterResolver. vm_compute. intros H. discriminate H.
Qed.
















(** ** The loop-context stack *)

Lemma backLoop_pushLoop ctx E : backLoop (pushLoop ctx E) = Some ctx.
Proof.
  unfold backLoop, pushLoop. simpl. rewrite map_app. simpl.
  apply last_last.
Qed.

Lemma loopStack_popLoop_pushLoop ctx E E' :
  loopStack_ E' = loopStack_ (pushLoop ctx E) ->
  loopStack_ (popLoop E') = loopStack_ E.
Proof.
  intros H. unfold popLoop. simpl. rewrite H. simpl.
  apply removelast_last.
Qed.

Lemma ls_appendInstr i E : loopStack_ (appendInstr i E) = loopStack_ E.
Proof. unfold appendInstr. destruct (insertBlock E); reflexivity. Qed.

Lemma ls_insertIntoFunction func bb E :
  loopStack_ (insertIntoFunction func bb E) = loopStack_ E.
Proof. destruct func; reflexivity. Qed.

(** Read [loopStack_] through the updates that do not touch it. *)
Ltac ls_norm :=
  repeat first
    [ progress cbn [loopStack_ setNextId setBlocks setFunctions
                    setStructTypes setGlobalStrings SetInsertPoint
                    setNamedValues eError fresh snd fst]
    | rewrite ls_appendInstr
    | rewrite ls_insertIntoFunction ].

Lemma ls_createBlock name E : loopStack_ (snd (createBlock name E)) = loopStack_ E.
Proof. reflexivity. Qed.

Lemma ls_createBlockIn name func E :
  loopStack_ (snd (createBlockIn name func E)) = loopStack_ E.
Proof. unfold createBlockIn, createBlock. ls_norm. reflexivity. Qed.

Lemma ls_createOp opc operands ty name E :
  loopStack_ (snd (createOp opc operands ty name E)) = loopStack_ E.
Proof. unfold createOp. ls_norm. reflexivity. Qed.

Lemma ls_createEntryBlockAlloca func name type E :
  loopStack_ (snd (createEntryBlockAlloca func name type E)) = loopStack_ E.
Proof.
  unfold createEntryBlockAlloca. ls_norm.
  destruct func as [f |]; [ | reflexivity ].
  destruct (findFunction f _) as [fn |]; [ | reflexivity ].
  destruct (fn_blocks fn); reflexivity.
Qed.

Lemma ls_CreateStore v ptr E : loopStack_ (CreateStore v ptr E) = loopStack_ E.
Proof. apply ls_appendInstr. Qed.
Lemma ls_CreateBr dest E : loopStack_ (CreateBr dest E) = loopStack_ E.
Proof. apply ls_appendInstr. Qed.
Lemma ls_CreateCondBr c t f E :
  loopStack_ (CreateCondBr c t f E) = loopStack_ E.
Proof. apply ls_appendInstr. Qed.
Lemma ls_CreateRet v E : loopStack_ (CreateRet v E) = loopStack_ E.
Proof. apply ls_appendInstr. Qed.
Lemma ls_CreateRetVoid E : loopStack_ (CreateRetVoid E) = loopStack_ E.
Proof. apply ls_appendInstr. Qed.

Lemma ls_emitIdent loc name E :
  loopStack_ (snd (emitIdent loc name E)) = loopStack_ E.
Proof.
  unfold emitIdent.
  destruct (namedValues_ E !! name) as [[alloca ty] |].
  - unfold createOp. ls_norm. reflexivity.
  - destruct (getFunction name E) as [[f fn] |]; reflexivity.
Qed.

Lemma ls_emitBinaryOp op lhs rhs E :
  loopStack_ (snd (emitBinaryOp op lhs rhs E)) = loopStack_ E.
Proof.
  unfold emitBinaryOp, createOp.
  destruct (isIntegerTy (typeOf lhs) && isIntegerTy (typeOf rhs) &&
            negb (LType_eqb (typeOf lhs) (typeOf rhs)));
    [ destruct (_ <? _) | ];
    ls_norm; destruct (binaryOpcode op _); ls_norm; reflexivity.
Qed.

Lemma ls_emitUnaryOp op operand E :
  loopStack_ (snd (emitUnaryOp op operand E)) = loopStack_ E.
Proof.
  unfold emitUnaryOp, createOp.
  destruct op; try destruct (isFloatingPointTy _); ls_norm; reflexivity.
Qed.

Lemma ls_emitArguments (args : list Expr) :
  list_all Expr KeepsLoopStackE args ->
  forall acc E,
    loopStack_ (snd (emitArguments emitExpr args acc E)) = loopStack_ E.
Proof.
  induction 1 as [| x Hx l Hl IH]; intros acc E; cbn [emitArguments].
  - reflexivity.
  - pose proof (Hx E) as H1. destruct (emitExpr x E) as [[v |] E1];
      cbn [snd] in *.
    + rewrite IH. exact H1.
    + exact H1.
Qed.

Lemma ls_emitStmts (statements : list Stmt) :
  list_all Stmt KeepsLoopStackS statements ->
  forall E,
    loopStack_ (fold_left (fun E s => emitStmt s E) statements E)
    = loopStack_ E.
Proof.
  induction 1 as [| x Hx l Hl IH]; intros E; cbn [fold_left].
  - reflexivity.
  - rewrite IH. apply Hx.
Qed.

(** Name the result of each call in the goal, keeping what the call does to
    the loop stack as a premise of the goal. *)
Ltac ls_pair lemma call :=
  generalize lemma; generalize call;
  let r := fresh "r" in intros r; destruct r as [? ?]; cbn [snd fst].

Ltac ls_state lemma call :=
  generalize lemma; generalize call;
  let r := fresh "E" in intros r.

Ltac ls_step :=
  match goal with
  | H : KeepsLoopStackE ?e |- context [emitExpr ?e ?E0] =>
      ls_pair (H E0) (emitExpr e E0)
  | H : KeepsLoopStackS ?s |- context [emitStmt ?s ?E0] =>
      ls_state (H E0) (emitStmt s E0)
  | H : list_all Stmt KeepsLoopStackS ?l
    |- context [fold_left ?F ?l ?E0] =>
      ls_state (ls_emitStmts l H E0) (fold_left F l E0)
  | H : list_all Expr KeepsLoopStackE ?l
    |- context [emitArguments emitExpr ?l ?acc ?E0] =>
      ls_pair (ls_emitArguments l H acc E0) (emitArguments emitExpr l acc E0)
  | |- context [if ?c then _ else _] => destruct c; cbn [snd fst]
  | |- context [createOp ?a ?b ?c ?d ?E0] =>
      ls_pair (ls_createOp a b c d E0) (createOp a b c d E0)
  | |- context [createBlockIn ?a ?b ?E0] =>
      ls_pair (ls_createBlockIn a b E0) (createBlockIn a b E0)
  | |- context [createBlock ?a ?E0] =>
      ls_pair (ls_createBlock a E0) (createBlock a E0)
  | |- context [createEntryBlockAlloca ?a ?b ?c ?E0] =>
      ls_pair (ls_createEntryBlockAlloca a b c E0)
        (createEntryBlockAlloca a b c E0)
  | |- context [emitIdent ?a ?b ?E0] =>
      ls_pair (ls_emitIdent a b E0) (emitIdent a b E0)
  | |- context [emitBinaryOp ?a ?b ?c ?E0] =>
      ls_pair (ls_emitBinaryOp a b c E0) (emitBinaryOp a b c E0)
  | |- context [emitUnaryOp ?a ?b ?E0] =>
      ls_pair (ls_emitUnaryOp a b E0) (emitUnaryOp a b E0)
  | |- context [match ?x with _ => _ end] => destruct x; cbn [snd fst]
  end.

Ltac ls_finish :=
  unfold CreateStore, CreateBr, CreateCondBr, CreateRet, CreateRetVoid,
    pushLoop, popLoop, setLoopStack;
  ls_norm; intros;
  repeat match goal with
    | H : loopStack_ _ = _ |- _ => rewrite H; clear H
    end;
  rewrite ?removelast_last; reflexivity.

Lemma emit_AST_keeps_loopStack :
  (forall e, KeepsLoopStackE e)
  /\ (forall arm : MatchArm, True)
  /\ (forall fi : FieldInit, True)
  /\ (forall p : Pattern, True)
  /\ (forall s, KeepsLoopStackS s).
Proof.
  apply AST_mutind; intros; try exact I;
    try (intros E; reflexivity).
  all: intros E; cbn [emitExpr emitStmt].
  all: repeat match goal with
         | X : option_all _ _ ?o |- _ => destruct X
         end.
  all: repeat ls_step; ls_finish.
Qed.

Lemma emitStmt_keeps_loopStack (s : Stmt) (E : IREmitter) :
  loopStack_ (emitStmt s E) = loopStack_ E.
Proof. exact (proj2 (proj2 (proj2 (proj2 emit_AST_keeps_loopStack))) s E). Qed.

Lemma emitBody_keeps_loopStack (statements : list Stmt) (E : IREmitter) :
  loopStack_ (emitBody statements E) = loopStack_ E.
Proof.
  apply ls_emitStmts, list_all_of_forall. intros s E'.
  apply emitStmt_keeps_loopStack.
Qed.

Lemma backLoop_emitBody (statements : list Stmt) (E : IREmitter) :
  backLoop (emitBody statements E) = backLoop E.
Proof. unfold backLoop. now rewrite emitBody_keeps_loopStack. Qed.

(** Semantic analysis and code generation accept a [break] that is in no
    loop: the function is emitted with an entry block that returns, and the
    engine stays empty. *)
Lemma break_outside_loop_compiles :
  exists E,
    compileParsed acceptFunction acceptModule None breakOutsideLoopProgram
      newEngine = (Emitted true E, newEngine)
    /\ map (fun b => (bb_name b.2, bb_instrs b.2)) (map_to_list (blocks E))
       = [ ("entry", [Ret None]) ].
Proof. eexists. split; vm_compute; reflexivity. Qed.

(** In [func f() -> Void { break; }] the break is in no loop, and semantic
    analysis, the only phase between parsing and IR emission, records no
    error. *)
Lemma break_outside_loop_is_not_diagnosed :
  ~ diagnosedBeforeEmission breakOutsideLoopProgram.
Proof. unfold diagnosedBeforeEmission. vm_compute. discriminate. Qed.

Lemma VisitsUnder_nil loops stack : VisitsUnder loops stack [].
Proof. constructor. Qed.

Lemma VisitsUnder_app loops stack vs1 vs2 :
  VisitsUnder loops stack vs1 -> VisitsUnder loops stack vs2 ->
  VisitsUnder loops stack (vs1 ++ vs2).
Proof. intros H1 H2. apply Forall_app. split; assumption. Qed.

Lemma VisitsUnder_here loops s E vs :
  VisitsUnder loops (loopStack_ E) vs ->
  VisitsUnder loops (loopStack_ E)
    ({| v_loops := loops; v_stmt := s; v_state := E |} :: vs).
Proof.
  intros H. constructor; [| exact H]. exists []. cbn.
  now rewrite !app_nil_r.
Qed.

Lemma VisitsUnder_push loops stack ctx vs :
  VisitsUnder (loops ++ [ctx]) (stack ++ [ctx]) vs ->
  VisitsUnder loops stack vs.
Proof.
  unfold VisitsUnder. intros H. eapply Forall_impl; [exact H |].
  cbv beta. intros v (inner & H1 & H2).
  exists (ctx :: inner). rewrite H1, H2, <- !app_assoc. split; reflexivity.
Qed.

Lemma traced_visitEach (statements : list Stmt) :
  list_all Stmt TracedS statements ->
  forall loops E, exists vs,
    visitEach (emitStmtT loops) statements E
    = (fold_left (fun E s => emitStmt s E) statements E, vs)
    /\ VisitsUnder loops (loopStack_ E) vs.
Proof.
  induction 1 as [| s Hs l Hl IH]; intros loops E; cbn [visitEach fold_left].
  - exists []. split; [reflexivity | apply VisitsUnder_nil].
  - destruct (Hs loops E) as (v1 & -> & H1).
    destruct (IH loops (emitStmt s E)) as (v2 & -> & H2).
    rewrite emitStmt_keeps_loopStack in H2.
    exists (v1 ++ v2). split; [reflexivity |].
    now apply VisitsUnder_app.
Qed.

Lemma emitExpr_keeps_loopStack (e : Expr) (E : IREmitter) :
  loopStack_ (snd (emitExpr e E)) = loopStack_ E.
Proof. exact (proj1 emit_AST_keeps_loopStack e E). Qed.

Lemma traced_emitArguments (args : list Expr) :
  list_all Expr TracedE args ->
  forall loops acc E, exists vs,
    emitArgumentsT (emitExprT loops) args acc E
    = (emitArguments emitExpr args acc E, vs)
    /\ VisitsUnder loops (loopStack_ E) vs.
Proof.
  induction 1 as [| x Hx l Hl IH]; intros loops acc E;
    cbn [emitArgumentsT emitArguments].
  - exists []. split; [reflexivity | apply VisitsUnder_nil].
  - destruct (Hx loops E) as (v1 & -> & H1).
    pose proof (emitExpr_keeps_loopStack x E) as Hst.
    destruct (emitExpr x E) as [[val |] E1]; cbn [snd] in Hst.
    + destruct (IH loops (acc ++ [val]) E1) as (v2 & -> & H2).
      rewrite Hst in H2.
      destruct (emitArguments emitExpr l (acc ++ [val]) E1) as [r E2].
      exists (v1 ++ v2). split; [reflexivity |].
      now apply VisitsUnder_app.
    + exists v1. split; [reflexivity | exact H1].
Qed.

(** The stack of a later state, in terms of the one the call started
    with. *)
Ltac tr_norm H :=
  unfold CreateStore, CreateBr, CreateCondBr, CreateRet, CreateRetVoid,
    pushLoop, setLoopStack in H;
  repeat first
    [ progress cbn [loopStack_ setNextId setBlocks setFunctions
                    setStructTypes setGlobalStrings SetInsertPoint
                    setNamedValues eError fresh snd fst] in H
    | rewrite ls_appendInstr in H
    | rewrite ls_insertIntoFunction in H
    | match goal with
      | Hst : loopStack_ ?X = _ |- _ =>
          lazymatch Hst with
          | H => fail
          | _ => rewrite Hst in H
          end
      end ].

(** A call of a helper: its result is named, and the stack after it is
    kept. *)
Ltac tr_pair lemma call :=
  let Hst := fresh "Hst" in
  generalize lemma; generalize call;
  let r := fresh "r" in
  intros r; destruct r as [? ?]; cbn [snd fst]; intros Hst; tr_norm Hst.

(** A call of the emitter with its record: the record is named, and the
    call without the record takes its place. *)
Ltac tr_call IH loops e E0 keep call :=
  let vs := fresh "vs" in
  let Heq := fresh "Heq" in
  let Hvs := fresh "Hvs" in
  destruct (IH loops E0) as (vs & Heq & Hvs);
  rewrite Heq; clear Heq; tr_norm Hvs;
  cbv beta iota;
  tr_pair keep call.

(** A condition or a scrutinee that holds no call of the emitter. *)
Ltac tr_plain c :=
  lazymatch c with
  | context [emitStmt _ _] => fail
  | context [emitExpr _ _] => fail
  | context [emitStmtT _ _ _] => fail
  | context [emitExprT _ _ _] => fail
  | context [fold_left _ _ _] => fail
  | context [visitEach _ _ _] => fail
  | context [emitArguments _ _ _ _] => fail
  | context [emitArgumentsT _ _ _ _] => fail
  | _ => idtac
  end.

Ltac tr_step :=
  match goal with
  | |- context [if ?c then _ else _] =>
      tr_plain c; destruct c; cbn [snd fst]
  | |- context [match ?x with _ => _ end] =>
      is_var x; destruct x; cbn [snd fst]
  | H : TracedE ?e |- context [emitExprT ?loops ?e ?E0] =>
      tr_call H loops e E0 (emitExpr_keeps_loopStack e E0) (emitExpr e E0)
  | H : TracedS ?s |- context [emitStmtT ?loops ?s ?E0] =>
      let vs := fresh "vs" in
      let Heq := fresh "Heq" in
      let Hvs := fresh "Hvs" in
      let Hst := fresh "Hst" in
      let E1 := fresh "E" in
      destruct (H loops E0) as (vs & Heq & Hvs);
      rewrite Heq; clear Heq; tr_norm Hvs;
      cbv beta iota;
      generalize (emitStmt_keeps_loopStack s E0);
      generalize (emitStmt s E0); intros E1 Hst; tr_norm Hst
  | H : list_all Stmt TracedS ?l
    |- context [visitEach (emitStmtT ?loops) ?l ?E0] =>
      let vs := fresh "vs" in
      let Heq := fresh "Heq" in
      let Hvs := fresh "Hvs" in
      let Hst := fresh "Hst" in
      let E1 := fresh "E" in
      destruct (traced_visitEach l H loops E0) as (vs & Heq & Hvs);
      rewrite Heq; clear Heq; tr_norm Hvs;
      cbv beta iota;
      generalize (emitBody_keeps_loopStack l E0); unfold emitBody;
      generalize (fold_left (fun E s => emitStmt s E) l E0);
      intros E1 Hst; tr_norm Hst
  | H : list_all Expr TracedE ?l
    |- context [emitArgumentsT (emitExprT ?loops) ?l ?acc ?E0] =>
      let vs := fresh "vs" in
      let Heq := fresh "Heq" in
      let Hvs := fresh "Hvs" in
      destruct (traced_emitArguments l H loops acc E0) as (vs & Heq & Hvs);
      rewrite Heq; clear Heq; tr_norm Hvs;
      cbv beta iota;
      generalize (emitArguments emitExpr l acc E0);
      let r := fresh "r" in intros r; destruct r as [? ?]
  | |- context [createOp ?a ?b ?c ?d ?E0] =>
      tr_pair (ls_createOp a b c d E0) (createOp a b c d E0)
  | |- context [createBlockIn ?a ?b ?E0] =>
      tr_pair (ls_createBlockIn a b E0) (createBlockIn a b E0)
  | |- context [createBlock ?a ?E0] =>
      tr_pair (ls_createBlock a E0) (createBlock a E0)
  | |- context [createEntryBlockAlloca ?a ?b ?c ?E0] =>
      tr_pair (ls_createEntryBlockAlloca a b c E0)
        (createEntryBlockAlloca a b c E0)
  | |- context [match ?x with _ => _ end] =>
      tr_plain x; destruct x; cbn [snd fst]
  end.

Ltac tr_visits :=
  repeat first
    [ assumption
    | apply VisitsUnder_nil
    | apply VisitsUnder_here
    | apply VisitsUnder_app
    | eapply VisitsUnder_push; eassumption ].

Ltac tr_finish :=
  eexists; split; [ reflexivity | tr_visits ].

Lemma emit_AST_traced :
  (forall e, TracedE e)
  /\ (forall arm : MatchArm, True)
  /\ (forall fi : FieldInit, True)
  /\ (forall p : Pattern, True)
  /\ (forall s, TracedS s).
Proof.
  apply AST_mutind; intros; try exact I.
  all: try (intros loops E; exists []; split;
            [ reflexivity | apply VisitsUnder_nil ]).
  all: intros loops0 E0; cbn [emitExprT emitStmtT emitExpr emitStmt];
    cbv zeta.
  all: repeat match goal with
         | X : option_all _ _ ?o |- _ => destruct X
         end.
  all: repeat tr_step.
  all: tr_finish.
Qed.

Lemma emitStmtT_emitStmt (loops : list LoopContext) (s : Stmt)
    (E : IREmitter) :
  emitStmtT loops s E = (emitStmt s E, snd (emitStmtT loops s E)).
Proof.
  destruct (proj2 (proj2 (proj2 (proj2 emit_AST_traced))) s loops E)
    as (vs & -> & _).
  reflexivity.
Qed.

Lemma emitExprT_emitExpr (loops : list LoopContext) (e : Expr)
    (E : IREmitter) :
  emitExprT loops e E = (emitExpr e E, snd (emitExprT loops e E)).
Proof.
  destruct (proj1 emit_AST_traced e loops E) as (vs & -> & _).
  reflexivity.
Qed.

Lemma visits_under (s : Stmt) (E : IREmitter) (v : Visit) :
  In v (snd (emitStmtT [] s E)) ->
  loopStack_ (v_state v) = loopStack_ E ++ v_loops v.
Proof.
  destruct (proj2 (proj2 (proj2 (proj2 emit_AST_traced))) s [] E)
    as (vs & -> & Hvs).
  cbn [snd]. intros Hin.
  unfold VisitsUnder in Hvs. rewrite List.Forall_forall in Hvs.
  destruct (Hvs v Hin) as (inner & H1 & H2).
  cbn [app] in H1. now rewrite H1, H2.
Qed.

Lemma emitStmtT_head (loops : list LoopContext) (s : Stmt) (E : IREmitter) :
  exists vs,
    snd (emitStmtT loops s E)
    = {| v_loops := loops; v_stmt := s; v_state := E |} :: vs.
Proof.
  destruct s; cbn [emitStmtT]; cbv zeta;
    repeat match goal with
      | |- context [let (_, _) := ?x in _] => destruct x
      | |- context [match ?x with _ => _ end] => destruct x
      end; cbn [snd]; eexists; reflexivity.
Qed.

Lemma backLoop_last (outer : list LoopContext) (ctx : LoopContext)
    (E : IREmitter) :
  loopStack_ E = outer ++ [ctx] -> backLoop E = Some ctx.
Proof.
  intros H. unfold backLoop. rewrite H, map_app. cbn [map].
  apply last_last.
Qed.

(** C5, as stated, fails in both halves.  In
    [func f() -> Void { break; }] the break is in no loop, and semantic
    analysis, the only phase between parsing and IR emission, records no
    error; it is the same for [continue].  In [func f() -> Void { loop { match 0 { _ => { break; } } } }]
    the break is inside a loop, the program compiles without a diagnostic,
    and no branch to the exit block of the loop is emitted: the body of the
    loop holds the branch back to itself and nothing else. *)
Lemma break_is_neither_diagnosed_nor_always_emitted :
  ~ diagnosedBeforeEmission breakOutsideLoopProgram
  /\ ~ diagnosedBeforeEmission continueOutsideLoopProgram
  /\ exists E,
       compileParsed acceptFunction acceptModule None breakInMatchProgram
         newEngine = (Emitted true E, newEngine)
       /\ map (fun b => (b.1, bb_name b.2, bb_instrs b.2))
            (map_to_list (blocks E))
          = [ (2%nat, "loop.body", [Br 2%nat]);
              (3%nat, "loop.exit", [Ret None]);
              (1%nat, "entry", [Br 2%nat]) ].
Proof.
  split; [ unfold diagnosedBeforeEmission; vm_compute; discriminate | ].
  split; [ unfold diagnosedBeforeEmission; vm_compute; discriminate | ].
  eexists. split; vm_compute; reflexivity.
Qed.

(** C5, amended.  [emitStmtT] is [emitStmt] with a record of the calls of
    [emitStmt] made on the way: it returns what [emitStmt] returns, and the
    record starts with the call itself.  Every call on record was made with
    the stack of loop contexts the outermost call started with and, on top
    of it, the contexts of the loops in whose body it lies, innermost last.
    So a [break] or a [continue] the emitter reaches inside a loop branches
    to the break block or to the continue block of the innermost loop
    around it; the break block of a loop is the block in which emission
    goes on after the loop, and every statement and every expression leaves
    the stack as it found it.  The emitter does not reach every statement:
    it passes over a [match] and a [const] statement whatever they hold,
    over the branches of an [if] whose condition gives no value, and over
    the expressions it has no code for, such as a [match] expression and a
    closure.
    With an empty stack, outside any loop, [break] and [continue] emit
    nothing, and the resolver and the type checker pass over both without a
    diagnostic. *)
Theorem break_and_continue_branch_to_the_innermost_loop :
  (* the record is of the emitter's own calls *)
  (forall loops s E, fst (emitStmtT loops s E) = emitStmt s E)
  /\ (forall loops e E, fst (emitExprT loops e E) = emitExpr e E)
  /\ (forall loops s E, exists vs,
        snd (emitStmtT loops s E)
        = {| v_loops := loops; v_stmt := s; v_state := E |} :: vs)
  (* the stack at a call *)
  /\ (forall s E v,
        In v (snd (emitStmtT [] s E)) ->
        loopStack_ (v_state v) = loopStack_ E ++ v_loops v)
  (* [break] and [continue] inside a loop *)
  /\ (forall s E v outer ctx lb,
        In v (snd (emitStmtT [] s E)) ->
        v_loops v = outer ++ [ctx] ->
        emitStmt (BreakStmt lb) (v_state v)
        = CreateBr (breakBlock ctx) (v_state v)
        /\ emitStmt (ContinueStmt lb) (v_state v)
           = CreateBr (continueBlock ctx) (v_state v))
  /\ (forall ctx outer lb E,
        let E' := setLoopStack (outer ++ [ctx]) E in
        emitStmt (BreakStmt lb) E' = CreateBr (breakBlock ctx) E'
        /\ emitStmt (ContinueStmt lb) E' = CreateBr (continueBlock ctx) E')
  (* the loops and their contexts *)
  /\ (forall loc condition loops E, exists ctx Ein vc, forall body,
        emitStmtT loops (WhileStmt loc condition body) E
        = (let Ep := popLoop (emitStmt body (pushLoop ctx Ein)) in
           SetInsertPoint (breakBlock ctx)
             (if negb (getTerminator Ep)
              then CreateBr (continueBlock ctx) Ep else Ep),
           {| v_loops := loops; v_stmt := WhileStmt loc condition body;
              v_state := E |}
           :: vc ++ snd (emitStmtT (loops ++ [ctx]) body
                           (pushLoop ctx Ein))))
  /\ (forall loc loops E, exists ctx Ein, forall body,
        emitStmtT loops (LoopStmt loc body) E
        = (let Ep := popLoop (emitStmt body (pushLoop ctx Ein)) in
           SetInsertPoint (breakBlock ctx)
             (if negb (getTerminator Ep)
              then CreateBr (continueBlock ctx) Ep else Ep),
           {| v_loops := loops; v_stmt := LoopStmt loc body; v_state := E |}
           :: snd (emitStmtT (loops ++ [ctx]) body (pushLoop ctx Ein))))
  /\ (forall loc varName varType iterable loops E, exists ctx Ein,
      forall body,
        emitStmtT loops (ForStmt loc varName varType iterable body) E
        = (let Ep := popLoop (emitStmt body (pushLoop ctx Ein)) in
           SetInsertPoint (breakBlock ctx)
             (if negb (getTerminator Ep)
              then CreateBr (breakBlock ctx) Ep else Ep),
           {| v_loops := loops;
              v_stmt := ForStmt loc varName varType iterable body;
              v_state := E |}
           :: snd (emitStmtT (loops ++ [ctx]) body (pushLoop ctx Ein))))
  /\ (forall s E, loopStack_ (emitStmt s E) = loopStack_ E)
  /\ (forall e E, loopStack_ (snd (emitExpr e E)) = loopStack_ E)
  (* what the emitter passes over *)
  /\ (forall loops loc scrutinee arms name ty value E,
        emitStmtT loops (MatchStmt loc scrutinee arms) E
        = (E, [ {| v_loops := loops; v_stmt := MatchStmt loc scrutinee arms;
                   v_state := E |} ])
        /\ emitStmtT loops (ConstStmt loc name ty value) E
           = (E, [ {| v_loops := loops;
                      v_stmt := ConstStmt loc name ty value;
                      v_state := E |} ]))
  /\ (forall loops loc condition thenBranch elseBranch E E1,
        emitExpr condition E = (None, E1) ->
        emitStmtT loops (IfStmt loc condition thenBranch elseBranch) E
        = (E1,
           {| v_loops := loops;
              v_stmt := IfStmt loc condition thenBranch elseBranch;
              v_state := E |}
           :: snd (emitExprT loops condition E)))
  /\ (forall loops loc scrutinee arms params returnType body isMove E,
        emitExprT loops (MatchExpr loc scrutinee arms) E = (None, E, [])
        /\ emitExprT loops (ClosureExpr loc params returnType body isMove) E
           = (None, E, []))
  (* outside any loop *)
  /\ (forall s E v lb,
        In v (snd (emitStmtT [] s E)) ->
        loopStack_ E = [] -> v_loops v = [] ->
        emitStmt (BreakStmt lb) (v_state v) = v_state v
        /\ emitStmt (ContinueStmt lb) (v_state v) = v_state v)
  /\ (forall lb r c,
        resolveStmt (BreakStmt lb) r = r
        /\ resolveStmt (ContinueStmt lb) r = r
        /\ checkStmt (BreakStmt lb) c = c
        /\ checkStmt (ContinueStmt lb) c = c).
Proof.
  split; [ intros loops s E; now rewrite emitStmtT_emitStmt | ].
  split; [ intros loops e E; now rewrite emitExprT_emitExpr | ].
  split; [ apply emitStmtT_head | ].
  split; [ apply visits_under | ].
  split.
  { intros s E v outer ctx lb Hin Hl.
    pose proof (visits_under s E v Hin) as Hst. rewrite Hl, app_assoc in Hst.
    cbn [emitStmt]. rewrite (backLoop_last _ ctx _ Hst). split; reflexivity. }
  split.
  { intros ctx outer lb E E'. subst E'. cbn [emitStmt].
    rewrite (backLoop_last outer ctx); [split |]; reflexivity. }
  split.
  { intros loc condition loops E. cbn [emitStmtT emitStmt]. cbv zeta.
    repeat match goal with
      | |- context [let (_, _) := createBlockIn ?a ?b ?c in _] =>
          destruct (createBlockIn a b c)
      end.
    rewrite emitExprT_emitExpr.
    match goal with
    | |- context [emitExpr condition ?X] =>
        destruct (emitExpr condition X) as [condVal Ec]
    end.
    eexists {| breakBlock := _; continueBlock := _ |}, _, _. intros body.
    rewrite emitStmtT_emitStmt. reflexivity. }
  split.
  { intros loc loops E. cbn [emitStmtT emitStmt]. cbv zeta.
    repeat match goal with
      | |- context [let (_, _) := createBlockIn ?a ?b ?c in _] =>
          destruct (createBlockIn a b c)
      end.
    eexists {| breakBlock := _; continueBlock := _ |}, _. intros body.
    rewrite emitStmtT_emitStmt. reflexivity. }
  split.
  { intros loc varName varType iterable loops E.
    cbn [emitStmtT emitStmt]. cbv zeta.
    repeat match goal with
      | |- context [let (_, _) := createBlockIn ?a ?b ?c in _] =>
          destruct (createBlockIn a b c)
      end.
    eexists {| breakBlock := _; continueBlock := _ |}, _. intros body.
    rewrite emitStmtT_emitStmt. reflexivity. }
  split; [ apply emitStmt_keeps_loopStack | ].
  split; [ apply emitExpr_keeps_loopStack | ].
  split; [ intros; split; reflexivity | ].
  split.
  { intros loops loc condition thenBranch elseBranch E E1 Hc.
    cbn [emitStmtT]. cbv zeta. rewrite emitExprT_emitExpr, Hc.
    reflexivity. }
  split; [ intros; split; reflexivity | ].
  split.
  { intros s E v lb Hin HE Hl.
    pose proof (visits_under s E v Hin) as Hst. rewrite HE, Hl in Hst.
    cbn [emitStmt]. unfold backLoop. rewrite Hst. split; reflexivity. }
  intros lb r c. repeat split; destruct c; reflexivity.
Qed.

(** ** The insert point *)

Lemma SameBlocks_appendInstr i E : SameBlocks E (appendInstr i E).
Proof.
  unfold SameBlocks, appendInstr. destruct (insertBlock E) eqn:H; cbn.
  - split; [apply dom_alter_L | exact H].
  - split; [reflexivity | exact H].
Qed.

Lemma SameBlocks_insertIntoFunction func bb E :
  SameBlocks E (insertIntoFunction func bb E).
Proof.
  unfold SameBlocks, insertIntoFunction. destruct func; cbn.
  - split; [apply dom_alter_L | reflexivity].
  - split; reflexivity.
Qed.

Lemma dom_appendInstr i E : dom (blocks (appendInstr i E)) = dom (blocks E).
Proof. apply SameBlocks_appendInstr. Qed.
Lemma ib_appendInstr i E : insertBlock (appendInstr i E) = insertBlock E.
Proof. apply SameBlocks_appendInstr. Qed.
Lemma dom_insertIntoFunction func bb E :
  dom (blocks (insertIntoFunction func bb E)) = dom (blocks E).
Proof. apply SameBlocks_insertIntoFunction. Qed.
Lemma ib_insertIntoFunction func bb E :
  insertBlock (insertIntoFunction func bb E) = insertBlock E.
Proof. apply SameBlocks_insertIntoFunction. Qed.

(** Read [blocks] and [insertBlock] through the updates of the other
    members. *)
Ltac ip_norm :=
  repeat first
    [ progress cbn [blocks insertBlock setNextId setBlocks setFunctions
                    setStructTypes setGlobalStrings SetInsertPoint
                    setNamedValues setLoopStack eError fresh snd fst]
    | rewrite dom_appendInstr
    | rewrite ib_appendInstr
    | rewrite dom_insertIntoFunction
    | rewrite ib_insertIntoFunction
    | rewrite dom_insert_L ].

Lemma ip_createBlock name E :
  dom (blocks (snd (createBlock name E)))
  = {[ fst (createBlock name E) ]} ∪ dom (blocks E)
  /\ insertBlock (snd (createBlock name E)) = insertBlock E.
Proof. unfold createBlock. ip_norm. split; reflexivity. Qed.

Lemma ip_createBlockIn name func E :
  dom (blocks (snd (createBlockIn name func E)))
  = {[ fst (createBlockIn name func E) ]} ∪ dom (blocks E)
  /\ insertBlock (snd (createBlockIn name func E)) = insertBlock E.
Proof. unfold createBlockIn, createBlock. ip_norm. split; reflexivity. Qed.

Lemma ip_createOp opc operands ty name E :
  SameBlocks E (snd (createOp opc operands ty name E)).
Proof. unfold SameBlocks, createOp. ip_norm. split; reflexivity. Qed.

Lemma ip_createEntryBlockAlloca func name type E :
  SameBlocks E (snd (createEntryBlockAlloca func name type E)).
Proof.
  unfold SameBlocks, createEntryBlockAlloca. ip_norm.
  destruct func as [f |]; [| split; reflexivity].
  destruct (findFunction f _) as [fn |]; [| split; reflexivity].
  destruct (fn_blocks fn); cbn; split;
    first [apply dom_alter_L | reflexivity].
Qed.

Lemma ip_emitIdent loc name E : SameBlocks E (snd (emitIdent loc name E)).
Proof.
  unfold SameBlocks, emitIdent.
  destruct (namedValues_ E !! name) as [[alloca ty] |].
  - apply ip_createOp.
  - destruct (getFunction name E) as [[f fn] |]; split; reflexivity.
Qed.

Lemma ip_emitBinaryOp op lhs rhs E :
  SameBlocks E (snd (emitBinaryOp op lhs rhs E)).
Proof.
  unfold SameBlocks, emitBinaryOp, createOp.
  destruct (isIntegerTy (typeOf lhs) && isIntegerTy (typeOf rhs) &&
            negb (LType_eqb (typeOf lhs) (typeOf rhs)));
    [ destruct (_ <? _) | ];
    ip_norm; destruct (binaryOpcode op _); ip_norm; split; reflexivity.
Qed.

Lemma ip_emitUnaryOp op operand E :
  SameBlocks E (snd (emitUnaryOp op operand E)).
Proof.
  unfold SameBlocks, emitUnaryOp, createOp.
  destruct op; try destruct (isFloatingPointTy _); ip_norm;
    split; reflexivity.
Qed.

Lemma KeepsBlocks_refl E : KeepsBlocks E E.
Proof. split; [reflexivity | exact (fun H => H)]. Qed.

Lemma KeepsBlocks_trans E1 E2 E3 :
  KeepsBlocks E1 E2 -> KeepsBlocks E2 E3 -> KeepsBlocks E1 E3.
Proof.
  intros [H1 H2] [H3 H4]. split; [etransitivity; eassumption | auto].
Qed.

Lemma kb_emitArguments (args : list Expr) :
  list_all Expr KeepsBlocksE args ->
  forall acc E, KeepsBlocks E (snd (emitArguments emitExpr args acc E)).
Proof.
  induction 1 as [| x Hx l Hl IH]; intros acc E; cbn [emitArguments].
  - apply KeepsBlocks_refl.
  - pose proof (Hx E) as H1. destruct (emitExpr x E) as [[v |] E1];
      cbn [snd] in *.
    + eapply KeepsBlocks_trans; [exact H1 | apply IH].
    + exact H1.
Qed.

Lemma kb_emitStmts (statements : list Stmt) :
  list_all Stmt KeepsBlocksS statements ->
  forall E,
    KeepsBlocks E (fold_left (fun E s => emitStmt s E) statements E).
Proof.
  induction 1 as [| x Hx l Hl IH]; intros E; cbn [fold_left].
  - apply KeepsBlocks_refl.
  - eapply KeepsBlocks_trans; [apply Hx | apply IH].
Qed.

Ltac kb_pair lemma call :=
  generalize lemma; generalize call;
  let r := fresh "r" in intros r; destruct r as [? ?]; cbn [snd fst].

Ltac kb_state lemma call :=
  generalize lemma; generalize call;
  let r := fresh "E" in intros r.

Ltac kb_step :=
  match goal with
  | H : KeepsBlocksE ?e |- context [emitExpr ?e ?E0] =>
      kb_pair (H E0) (emitExpr e E0)
  | H : KeepsBlocksS ?s |- context [emitStmt ?s ?E0] =>
      kb_state (H E0) (emitStmt s E0)
  | H : list_all Stmt KeepsBlocksS ?l
    |- context [fold_left ?F ?l ?E0] =>
      kb_state (kb_emitStmts l H E0) (fold_left F l E0)
  | H : list_all Expr KeepsBlocksE ?l
    |- context [emitArguments emitExpr ?l ?acc ?E0] =>
      kb_pair (kb_emitArguments l H acc E0) (emitArguments emitExpr l acc E0)
  | |- context [if ?c then _ else _] => destruct c; cbn [snd fst]
  | |- context [createOp ?a ?b ?c ?d ?E0] =>
      kb_pair (ip_createOp a b c d E0) (createOp a b c d E0)
  | |- context [createBlockIn ?a ?b ?E0] =>
      kb_pair (ip_createBlockIn a b E0) (createBlockIn a b E0)
  | |- context [createBlock ?a ?E0] =>
      kb_pair (ip_createBlock a E0) (createBlock a E0)
  | |- context [createEntryBlockAlloca ?a ?b ?c ?E0] =>
      kb_pair (ip_createEntryBlockAlloca a b c E0)
        (createEntryBlockAlloca a b c E0)
  | |- context [emitIdent ?a ?b ?E0] =>
      kb_pair (ip_emitIdent a b E0) (emitIdent a b E0)
  | |- context [emitBinaryOp ?a ?b ?c ?E0] =>
      kb_pair (ip_emitBinaryOp a b c E0) (emitBinaryOp a b c E0)
  | |- context [emitUnaryOp ?a ?b ?E0] =>
      kb_pair (ip_emitUnaryOp a b E0) (emitUnaryOp a b E0)
  | |- context [match ?x with _ => _ end] => destruct x; cbn [snd fst]
  end.

(** Replace the blocks and the insert point of a named state by what the
    facts at hand say they are. *)
Ltac kb_subst :=
  repeat match goal with
    | H : insertBlock ?v = _ |- _ =>
        is_var v;
        let x := fresh "x" in
        let Hx := fresh "Hx" in
        remember (insertBlock v) as x eqn:Hx in *; clear Hx; subst x
    | H : dom (blocks ?v) = _ |- _ =>
        is_var v;
        let x := fresh "x" in
        let Hx := fresh "Hx" in
        remember (dom (blocks v)) as x eqn:Hx in *; clear Hx; subst x
    end.

Ltac kb_cases :=
  repeat match goal with
    | |- context [insertBlock ?v] =>
        let x := fresh "x" in
        let Hx := fresh "Hx" in
        remember (insertBlock v) as x eqn:Hx in *; clear Hx; destruct x
    | H : context [insertBlock ?v] |- _ =>
        let x := fresh "x" in
        let Hx := fresh "Hx" in
        remember (insertBlock v) as x eqn:Hx in *; clear Hx; destruct x
    end.

Ltac kb_finish :=
  unfold CreateStore, CreateBr, CreateCondBr, CreateRet, CreateRetVoid,
    pushLoop, popLoop;
  unfold KeepsBlocks, SameBlocks, InsertPointLive;
  ip_norm; intros; destruct_and?; kb_subst; kb_cases; set_solver.

Lemma emit_AST_keeps_blocks :
  (forall e, KeepsBlocksE e)
  /\ (forall arm : MatchArm, True)
  /\ (forall fi : FieldInit, True)
  /\ (forall p : Pattern, True)
  /\ (forall s, KeepsBlocksS s).
Proof.
  apply AST_mutind; intros; try exact I;
    try (intros E; apply KeepsBlocks_refl).
  all: intros E; cbn [emitExpr emitStmt].
  all: repeat match goal with
         | X : option_all _ _ ?o |- _ => destruct X
         end.
  all: repeat kb_step; kb_finish.
Qed.

Lemma emitBody_keeps_blocks (statements : list Stmt) (E : IREmitter) :
  KeepsBlocks E (emitBody statements E).
Proof.
  apply kb_emitStmts, list_all_of_forall.
  exact (proj2 (proj2 (proj2 (proj2 emit_AST_keeps_blocks)))).
Qed.

Lemma emitPrologue_InsertPointLive (f : FuncId) (decl : FuncDecl)
    (E : IREmitter) :
  InsertPointLive (emitPrologue f decl E).
Proof.
  unfold emitPrologue.
  generalize (ip_createBlockIn "entry" (Some f) E).
  destruct (createBlockIn "entry" (Some f) E) as [entry E1]. cbn [fst snd].
  intros [Hd _].
  assert (H0 : InsertPointLive
                 (snd (O, setNamedValues ∅ (SetInsertPoint entry E1)))).
  { unfold InsertPointLive. cbn. rewrite Hd.
    apply elem_of_union_l, elem_of_singleton. reflexivity. }
  revert H0. generalize (O, setNamedValues ∅ (SetInsertPoint entry E1)).
  generalize (combine (map fp_name (fd_params decl))
                (map (fun param => match fp_type param with
                                   | Some pt => mapType pt
                                   | None => PtrTy
                                   end) (fd_params decl))).
  induction l as [| [argName argType] l IH]; intros [idx E0] H0;
    cbn [fold_left]; [exact H0 |].
  apply IH. cbn [snd] in H0.
  generalize (ip_createEntryBlockAlloca (Some f) argName argType E0).
  destruct (createEntryBlockAlloca (Some f) argName argType E0) as [a E2].
  revert H0. unfold CreateStore, SameBlocks, InsertPointLive. ip_norm.
  intros H0 [H1 H2]. rewrite H1, H2. exact H0.
Qed.

Lemma blockTerminated_addInstr (i : Instr) (bb : BasicBlock) :
  blockTerminated (addInstr i bb) = isTerminator i.
Proof.
  unfold blockTerminated, addInstr. cbn. rewrite map_app. cbn.
  now rewrite last_last.
Qed.

(** ** The implicit return *)

(** [func g() -> Int32 { }] passes semantic analysis and is emitted as a
    function whose entry block returns the zero of [i32]; the engine stays
    empty. *)
Lemma fall_off_end_returns_zero :
  exists E,
    compileParsed acceptFunction acceptModule None fallOffEndProgram
      newEngine = (Emitted true E, newEngine)
    /\ map (fun b => (bb_name b.2, bb_instrs b.2)) (map_to_list (blocks E))
       = [ ("entry", [Ret (Some (NullValue (IntTy 32)))]) ].
Proof. eexists. split; vm_compute; reflexivity. Qed.

(** C9: a function declaration with a body is emitted by creating the
    function, the prologue, the body and then the implicit return.  After
    the body the builder stands in a block of the module; if the last
    instruction of that block is no terminator, a [ret] is appended to it,
    [ret void] when the lowered return type is void and a [ret] of the null
    value of the lowered return type otherwise, and nothing is recorded in
    the engine.  Either way the block the builder stands in ends in a
    terminator afterwards. *)
Theorem emitFuncDecl_adds_the_implicit_return
    (verifyFunction : Function -> list BasicBlock -> bool)
    (decl : FuncDecl) (statements : list Stmt) (E : IREmitter) :
  let '(f, retType, E1) := createFunction decl E in
  let Eb := emitBody statements (emitPrologue f decl E1) in
  let Er := snd (emitFuncUnverified decl statements E) in
  emitFuncDecl verifyFunction decl E
  = match fd_body decl with
    | Some body =>
        setNamedValues (namedValues_ E)
          (verifyEmitted verifyFunction
             (fst (emitFuncUnverified decl body E)) decl
             (snd (emitFuncUnverified decl body E)))
    | None => E1
    end
  /\ retType = match fd_returnType decl with
               | Some rt => mapType rt
               | None => VoidTy
               end
  /\ exists b bb,
       insertBlock Eb = Some b /\ blocks Eb !! b = Some bb
       /\ (if blockTerminated bb then Er = Eb
           else Er = appendInstr (Ret (implicitReturnValue retType)) Eb
                /\ blocks Er !! b
                   = Some (addInstr (Ret (implicitReturnValue retType)) bb))
       /\ insertBlock Er = Some b
       /\ getTerminator Er = true
       /\ ediag Er = ediag Eb.
Proof.
  unfold emitFuncDecl, emitFuncUnverified.
  destruct (createFunction decl E) as [[f retType] E1] eqn:Hc.
  cbn zeta. split; [| split].
  - destruct (fd_body decl) as [body |]; reflexivity.
  - unfold createFunction in Hc. cbn in Hc. inversion Hc. reflexivity.
  - pose proof (proj2 (emitBody_keeps_blocks statements
                         (emitPrologue f decl E1))
                  (emitPrologue_InsertPointLive f decl E1)) as Hlive.
    cbn [snd]. set (Eb := emitBody statements (emitPrologue f decl E1)) in *.
    unfold InsertPointLive in Hlive.
    destruct (insertBlock Eb) as [b |] eqn:Hb; [| contradiction].
    apply elem_of_dom in Hlive as [bb Hbb]. exists b, bb.
    split; [reflexivity |]. split; [exact Hbb |].
    unfold emitImplicitReturn, getTerminator. rewrite Hb, Hbb.
    destruct (blockTerminated bb) eqn:Ht; cbn [negb].
    + rewrite Hb, Hbb, Ht. repeat split; assumption.
    + assert (Hr : (if isVoidTy retType then CreateRetVoid Eb
                    else CreateRet (NullValue retType) Eb)
                   = appendInstr (Ret (implicitReturnValue retType)) Eb).
      { unfold implicitReturnValue, CreateRetVoid, CreateRet.
        destruct (isVoidTy retType); reflexivity. }
      rewrite Hr. unfold appendInstr. rewrite Hb. cbn.
      rewrite Hb, lookup_alter, Hbb. cbn.
      destruct (decide (b = b)) as [_ | Hne]; [| now destruct Hne].
      rewrite blockTerminated_addInstr. repeat split.
Qed.

(** ** Let and const in the resolver *)

(** C6: the resolver resolves the initializer of a let or const statement
    first and inserts the declared name into the current scope afterwards.
    So in [let x = x + 1;] the [x] of the initializer is looked up in the
    scopes as they are before the statement, the current scope first and
    then the scopes around it: if one of them binds [x] nothing is
    reported, otherwise [x] is reported as undeclared although the
    statement declares it right after. *)
Theorem let_initializer_is_resolved_before_insertion
    (s : Scope) (parents : ScopeChain) (d : DiagnosticEngine)
    (loc l1 l2 l3 : SourceLocation) (name : string) (ty : option TypeNode)
    (isMutable : bool) (init : Expr) :
  let r := {| scopes := s :: parents; rdiag := d |} in
  let selfRef :=
    BinaryExpr l1 BinaryOp.Add (IdentExpr l2 name) (IntLiteralExpr l3 1) in
  let undeclared := "use of undeclared identifier '" +:+ name +:+ "'" in
  resolveStmt (LetStmt loc name ty (Some init) isMutable) r
  = declareOrError name
      (symbolOf SymbolKind.Variable_ name loc Public isMutable) loc
      ("redefinition of variable '" +:+ name +:+ "'") (resolveExpr init r)
  /\ resolveStmt (ConstStmt loc name ty (Some init)) r
     = declareOrError name
         (symbolOf SymbolKind.Variable_ name loc Public false) loc
         ("redefinition of constant '" +:+ name +:+ "'") (resolveExpr init r)
  /\ scopes (resolveExpr selfRef r) = s :: parents
  /\ match lookup (s :: parents) name with
     | Some sym => rdiag (resolveExpr selfRef r) = d
     | None =>
         rdiag (resolveExpr selfRef r) = emitError l2 undeclared d
         /\ lookup
              (scopes (resolveStmt
                         (LetStmt loc name ty (Some selfRef) isMutable) r))
              name
            = Some (symbolOf SymbolKind.Variable_ name loc Public isMutable)
         /\ lookup
              (scopes (resolveStmt (ConstStmt loc name ty (Some selfRef)) r))
              name
            = Some (symbolOf SymbolKind.Variable_ name loc Public false)
     end.
Proof.
  cbn zeta. split; [reflexivity |]. split; [reflexivity |].
  cbn [resolveStmt resolveExpr scopes].
  destruct (lookup (s :: parents) name) as [sym |] eqn:Hl; cbn.
  - split; reflexivity.
  - split; [reflexivity |]. split; [reflexivity |].
    cbn in Hl. destruct s as [n syms ch]. cbn in Hl.
    destruct (syms !! name) eqn:Hs; [discriminate |].
    unfold declareOrError. cbn. rewrite Hs. cbn.
    rewrite !lookup_insert_eq. split; reflexivity.
Qed.

(** ** The lexer and the engine *)

Lemma Regular_ret {A} (a : A) : Regular (mret a).
Proof. intros L. exists (Ok a), L, []. repeat split. Qed.

Lemma Regular_throw {A} (e : Exn) : Regular (@throw A e).
Proof. intros L. exists (Throw e), L, []. repeat split. Qed.

Lemma Regular_diverge {A} : Regular (@diverge A).
Proof. intros L. exists Diverge, L, []. repeat split. Qed.

Lemma Regular_gets {A} (f : Lexer -> A) : Regular (gets f).
Proof. intros L. exists (Ok (f L)), L, []. repeat split. Qed.

Lemma Regular_modify (f : Lexer -> Lexer) :
  (forall L, source_ (f L) = source_ L) ->
  (forall L, filename_ (f L) = filename_ L) ->
  Regular (modify f).
Proof. intros Hs Hf L. exists (Ok tt), (f L), []. repeat split; auto. Qed.

Lemma Regular_diagError (loc : SourceLocation) (msg : string) :
  Regular (diagError loc msg).
Proof.
  intros L.
  exists (Ok tt), L,
    [ {| severity := Error; dlocation := loc; message := msg;
         notes := []; fixes := [] |} ].
  repeat split.
Qed.

Lemma Regular_advance : Regular advance.
Proof.
  intros L. unfold advance.
  exists (Ok (fst (advanceL L))), (snd (advanceL L)), [].
  unfold advanceL. destruct (Ascii.eqb _ LF); repeat split.
Qed.

Lemma Regular_bind {A B} (m : M A) (k : A -> M B) :
  Regular m -> (forall a, Regular (k a)) -> Regular (m ≫= k).
Proof.
  intros Hm Hk L. destruct (Hm L) as (o & L1 & log1 & Hs1 & Hf1 & H1).
  destruct o as [a | e |].
  - destruct (Hk a L1) as (o2 & L2 & log2 & Hs2 & Hf2 & H2).
    exists o2, L2, (log1 ++ log2).
    split; [congruence |]. split; [congruence |].
    intros d. unfold mbind, M_bind. rewrite H1, H2, emitAll_app.
    reflexivity.
  - exists (Throw e), L1, log1. repeat split; try assumption.
    intros d. unfold mbind, M_bind. rewrite H1. reflexivity.
  - exists Diverge, L1, log1. repeat split; try assumption.
    intros d. unfold mbind, M_bind. rewrite H1. reflexivity.
Qed.

Create HintDb regular.
#[local] Hint Resolve Regular_ret Regular_throw Regular_diverge Regular_gets
  Regular_diagError Regular_advance : regular.

(** Regularity follows the structure of the member functions. *)
Ltac regular :=
  repeat first
    [ assumption
    | solve [auto 1 with regular]
    | apply Regular_bind; [| intros ?]
    | apply Regular_modify; intros; reflexivity
    | match goal with
      | |- Regular (if ?c then _ else _) => destruct c
      | |- Regular (match ?x with _ => _ end) => destruct x
      | |- Regular (let (_, _) := ?x in _) => destruct x
      end ].

Lemma Regular_matchChar expected : Regular (matchChar expected).
Proof. unfold matchChar. regular. Qed.

Lemma Regular_advanceWhile fuel p : Regular (advanceWhile fuel p).
Proof. induction fuel; cbn [advanceWhile]; regular. Qed.

#[local] Hint Resolve Regular_matchChar Regular_advanceWhile : regular.

Lemma Regular_skipLineComment fuel : Regular (skipLineComment fuel).
Proof. unfold skipLineComment. regular. Qed.

Lemma Regular_skipBlockCommentLoop fuel depth :
  Regular (skipBlockCommentLoop fuel depth).
Proof.
  revert depth. induction fuel; intros depth; cbn [skipBlockCommentLoop];
    regular; apply IHfuel.
Qed.

#[local] Hint Resolve Regular_skipLineComment Regular_skipBlockCommentLoop
  : regular.

Lemma Regular_skipBlockComment fuel : Regular (skipBlockComment fuel).
Proof. unfold skipBlockComment. regular. Qed.

#[local] Hint Resolve Regular_skipBlockComment : regular.

Lemma Regular_skipWhitespace fuel : Regular (skipWhitespace fuel).
Proof. induction fuel; cbn [skipWhitespace]; regular. Qed.

Lemma Regular_substr s pos n : Regular (substr s pos n).
Proof. unfold substr. regular. Qed.

#[local] Hint Resolve Regular_skipWhitespace Regular_substr : regular.

Lemma Regular_lexeme : Regular lexeme.
Proof. unfold lexeme, getLexer. regular. Qed.

Lemma Regular_makeTokenText k txt : Regular (makeTokenText k txt).
Proof. unfold makeTokenText. regular. Qed.

#[local] Hint Resolve Regular_lexeme Regular_makeTokenText : regular.

Lemma Regular_makeToken k : Regular (makeToken k).
Proof. unfold makeToken. regular. Qed.

Lemma Regular_errorToken msg : Regular (errorToken msg).
Proof. unfold errorToken. regular. Qed.

Lemma Regular_stoll s base : Regular (stoll s base).
Proof. unfold stoll. regular. Qed.

#[local] Hint Resolve Regular_makeToken Regular_errorToken Regular_stoll
  : regular.

Lemma Regular_lexIdentifierOrKeyword fuel :
  Regular (lexIdentifierOrKeyword fuel).
Proof. unfold lexIdentifierOrKeyword. regular. Qed.

#[local] Hint Resolve Regular_lexIdentifierOrKeyword : regular.

Section LexerRegular.

Variable stod_oor : string -> bool.

Lemma Regular_stod s : Regular (stod stod_oor s).
Proof. unfold stod. regular. Qed.

Lemma Regular_finishPrefixed base : Regular (finishPrefixed base).
Proof. unfold finishPrefixed. regular. Qed.

Hint Resolve Regular_stod Regular_finishPrefixed : regular.

Lemma Regular_lexDecimal fuel : Regular (lexDecimal stod_oor fuel).
Proof. unfold lexDecimal. regular. Qed.

Hint Resolve Regular_lexDecimal : regular.

Lemma Regular_lexNumber fuel : Regular (lexNumber stod_oor fuel).
Proof. unfold lexNumber. regular. Qed.

Lemma Regular_lexStringLoop fuel : Regular (lexStringLoop fuel).
Proof. induction fuel; cbn [lexStringLoop]; regular. Qed.

Hint Resolve Regular_lexNumber Regular_lexStringLoop : regular.

Lemma Regular_lexString fuel : Regular (lexString fuel).
Proof. unfold lexString. regular. Qed.

Lemma Regular_lexChar : Regular lexChar.
Proof. unfold lexChar. regular. Qed.

Lemma Regular_lexAnnotation fuel : Regular (lexAnnotation fuel).
Proof. unfold lexAnnotation, getLexer. regular. Qed.

Lemma Regular_lexPunctuation c : Regular (lexPunctuation c).
Proof. unfold lexPunctuation. regular. Qed.

Lemma Regular_backUp : Regular backUp.
Proof. unfold backUp. regular. Qed.

Hint Resolve Regular_lexString Regular_lexChar Regular_lexAnnotation
  Regular_lexPunctuation Regular_backUp : regular.

Lemma Regular_nextToken fuel : Regular (nextToken stod_oor fuel).
Proof. unfold nextToken. regular. Qed.

Hint Resolve Regular_nextToken : regular.

Lemma Regular_peekToken fuel : Regular (peekToken stod_oor fuel).
Proof. unfold peekToken. regular. Qed.

End LexerRegular.

Lemma runCalls_regular (stod_oor : string -> bool) (fuel : nat)
    (calls : list LexCall) (L : Lexer) :
  exists os L' log,
    source_ L' = source_ L /\ filename_ L' = filename_ L /\
    forall d, runCalls stod_oor fuel calls L d = (os, L', emitAll log d).
Proof.
  revert L. induction calls as [| c rest IH]; intros L.
  - exists [], L, []. repeat split.
  - assert (Hc : exists o L1 log1,
               source_ L1 = source_ L /\ filename_ L1 = filename_ L /\
               forall d,
                 match c with
                 | CallNextToken => nextToken stod_oor fuel L d
                 | CallPeekToken => peekToken stod_oor fuel L d
                 end = (o, L1, emitAll log1 d)).
    { destruct c; [apply Regular_nextToken | apply Regular_peekToken]. }
    destruct Hc as (o & L1 & log1 & Hs1 & Hf1 & H1).
    destruct (IH L1) as (os & L2 & log2 & Hs2 & Hf2 & H2).
    exists (o :: os), L2, (log1 ++ log2).
    split; [congruence |]. split; [congruence |].
    intros d. cbn [runCalls]. rewrite H1, H2, emitAll_app. reflexivity.
Qed.

Lemma restoreState_saveState (L L' : Lexer) :
  source_ L' = source_ L -> filename_ L' = filename_ L ->
  restoreState (saveState L) L' = L.
Proof.
  destruct L, L'. cbn. intros -> ->. reflexivity.
Qed.

(** ** Saving and restoring the lexer *)

(** C8: restoring the state just saved changes nothing.  After any calls of
    [nextToken] and [peekToken], whether they return or throw, restoring a
    state saved before them gives the lexer as it was when the state was
    saved, with the eight saved members as they were, and the calls made
    from there on return the same tokens and leave the same lexer as they
    would have without the calls in between. *)
Theorem save_restore_is_identity (stod_oor : string -> bool) (fuel : nat)
    (between after : list LexCall) (L : Lexer) (d : DiagnosticEngine) :
  restoreState (saveState L) L = L
  /\ let '(_, L', d') := runCalls stod_oor fuel between L d in
     restoreState (saveState L) L' = L
     /\ saveState (restoreState (saveState L) L') = saveState L
     /\ fst (runCalls stod_oor fuel after (restoreState (saveState L) L') d')
        = fst (runCalls stod_oor fuel after L d).
Proof.
  split; [now apply restoreState_saveState |].
  destruct (runCalls_regular stod_oor fuel between L)
    as (os & L' & log & Hs & Hf & H).
  rewrite H. rewrite (restoreState_saveState L L' Hs Hf).
  split; [reflexivity |]. split; [reflexivity |].
  destruct (runCalls_regular stod_oor fuel after L)
    as (os2 & L2 & log2 & _ & _ & H2).
  rewrite !H2. reflexivity.
Qed.

(** ** String literals *)

Lemma length_list_ascii_of_string (s : string) :
  length (list_ascii_of_string s) = String.length s.
Proof. induction s; cbn; congruence. Qed.

Lemma get_list_ascii_of_string (s : string) (n : nat) :
  String.get n s = list_ascii_of_string s !! n.
Proof.
  revert n. induction s as [| c s IH]; intros [| n]; cbn; auto.
Qed.

Lemma length_remaining (L : Lexer) :
  length (remaining L)
  = (String.length (source_ L) - N.to_nat (current_ L))%nat.
Proof.
  unfold remaining. now rewrite length_drop, length_list_ascii_of_string.
Qed.

Lemma remaining_atEnd (L : Lexer) : isAtEnd L = true -> remaining L = [].
Proof.
  unfold isAtEnd, sourceSize, remaining. intros H.
  apply N.leb_le in H. apply drop_ge.
  rewrite length_list_ascii_of_string. lia.
Qed.

Lemma advanceL_members (L : Lexer) :
  source_ (snd (advanceL L)) = source_ L
  /\ tokenLoc (snd (advanceL L)) = tokenLoc L
  /\ current_ (snd (advanceL L)) = inc32 (current_ L)
  /\ fst (advanceL L) = charAt (source_ L) (current_ L).
Proof.
  unfold advanceL. destruct (Ascii.eqb _ LF); repeat split.
Qed.

Lemma remaining_notAtEnd (L : Lexer) :
  sourceSize L < UINT32_MOD -> isAtEnd L = false ->
  remaining L = peek L :: remaining (snd (advanceL L))
  /\ peek L = charAt (source_ L) (current_ L).
Proof.
  intros Hsz He. unfold peek. rewrite He.
  destruct (advanceL_members L) as (Hs & _ & Hc & _).
  unfold remaining. rewrite Hs, Hc.
  unfold isAtEnd, sourceSize in *. apply N.leb_gt in He.
  unfold inc32, wrap32. rewrite N.mod_small by lia.
  replace (N.to_nat (current_ L + 1)) with (S (N.to_nat (current_ L)))
    by lia.
  unfold charAt. rewrite get_list_ascii_of_string.
  destruct (list_ascii_of_string (source_ L) !! N.to_nat (current_ L))
    as [c |] eqn:Hl.
  - split; [| reflexivity]. now apply drop_S.
  - apply lookup_ge_None in Hl.
    rewrite length_list_ascii_of_string in Hl. lia.
Qed.

Lemma bind_gets {A B} (f : Lexer -> A) (k : A -> M B) L d :
  (gets f ≫= k) L d = k (f L) L d.
Proof. reflexivity. Qed.

Lemma bind_advance {B} (k : ascii -> M B) L d :
  (advance ≫= k) L d = k (fst (advanceL L)) (snd (advanceL L)) d.
Proof.
  unfold mbind, M_bind, advance. destruct (advanceL L). reflexivity.
Qed.

Lemma errorToken_run (msg : string) (L : Lexer) (d : DiagnosticEngine) :
  exists o, errorToken msg L d = (o, L, emitError (tokenLoc L) msg d).
Proof.
  unfold errorToken, lexeme, getLexer, substr.
  rewrite bind_gets. unfold mbind, M_bind, diagError, gets.
  destruct (_ <? _); eexists; reflexivity.
Qed.

Lemma errorToken_Some_run (msg : string) (L : Lexer) (d : DiagnosticEngine) :
  exists o,
    (errorToken msg ≫= fun t => mret (Some t)) L d
    = (o, L, emitError (tokenLoc L) msg d)
    /\ o <> Ok None.
Proof.
  destruct (errorToken_run msg L d) as [o H].
  unfold mbind at 1, M_bind. rewrite H.
  destruct o; eexists; (split; [reflexivity | discriminate]).
Qed.

Lemma lexStringLoop_scan (fuel : nat) : forall L d,
  sourceSize L < UINT32_MOD ->
  (length (remaining L) < fuel)%nat ->
  match scanString (remaining L) with
  | ClosingQuote =>
      exists L', lexStringLoop fuel L d = (Ok None, L', d)
                 /\ isAtEnd L' = false /\ sourceSize L' = sourceSize L
  | UnescapedNewline =>
      exists o L',
        lexStringLoop fuel L d
        = (o, L', emitError (tokenLoc L) newlineInString d)
        /\ o <> Ok None
  | EndOfInput =>
      (exists L', lexStringLoop fuel L d = (Ok None, L', d)
                  /\ isAtEnd L' = true /\ tokenLoc L' = tokenLoc L)
      \/ (exists o L',
            lexStringLoop fuel L d
            = (o, L', emitError (tokenLoc L) "unterminated string literal" d)
            /\ o <> Ok None)
  end.
Proof.
  induction fuel as [| fuel IH]; intros L d Hsz Hfuel; [lia |].
  cbn [lexStringLoop]. rewrite !bind_gets.
  destruct (isAtEnd L) eqn:He; cbn [negb andb].
  - rewrite (remaining_atEnd L He). cbn. left. exists L. repeat split.
    exact He.
  - destruct (remaining_notAtEnd L Hsz He) as [Hr Hp].
    destruct (advanceL_members L) as (Hs1 & Ht1 & Hc1 & _).
    set (L1 := snd (advanceL L)) in *.
    assert (Hsz1 : sourceSize L1 < UINT32_MOD).
    { unfold sourceSize in *. now rewrite Hs1. }
    rewrite Hr in *. cbn [scanString length] in *.
    destruct (Ascii.eqb (peek L) DQUOTE) eqn:Hq; cbn [negb].
    + exists L. repeat split. exact He.
    + destruct (Ascii.eqb (peek L) BACKSLASH) eqn:Hb.
      * rewrite bind_advance. fold L1. rewrite bind_gets.
        destruct (isAtEnd L1) eqn:He1.
        -- rewrite (remaining_atEnd L1 He1). right.
           destruct (errorToken_Some_run "unterminated string literal" L1 d)
             as (o & H & Ho).
           exists o, L1. rewrite H, Ht1. split; [reflexivity | exact Ho].
        -- destruct (remaining_notAtEnd L1 Hsz1 He1) as [Hr1 _].
           destruct (advanceL_members L1) as (Hs2 & Ht2 & _ & _).
           rewrite bind_advance. set (L2 := snd (advanceL L1)) in *.
           rewrite Hr1 in *. cbn [length] in Hfuel.
           assert (Hsz2 : sourceSize L2 < UINT32_MOD).
           { unfold sourceSize in *. now rewrite Hs2. }
           specialize (IH L2 d Hsz2 ltac:(lia)).
           rewrite Ht2, Ht1 in IH.
           destruct (scanString (remaining L2)).
           ++ destruct IH as (L' & H & E' & S'). exists L'.
              repeat split; try assumption.
              unfold sourceSize in *. congruence.
           ++ exact IH.
           ++ destruct IH as [(L' & H & E' & T') | IH]; [left | right; exact IH].
              exists L'. repeat split; try assumption.
      * destruct (Ascii.eqb (peek L) LF) eqn:Hn.
        -- destruct (errorToken_Some_run newlineInString L d)
             as (o & H & Ho).
           exists o, L. split; [exact H | exact Ho].
        -- rewrite bind_advance. fold L1.
           specialize (IH L1 d Hsz1 ltac:(lia)). rewrite Ht1 in IH.
           destruct (scanString (remaining L1)).
           ++ destruct IH as (L' & H & E' & S'). exists L'.
              repeat split; try assumption.
              unfold sourceSize in *. congruence.
           ++ exact IH.
           ++ exact IH.
Qed.

Lemma Silent_ret {A} (a : A) : Silent (mret a).
Proof. intros L d. reflexivity. Qed.
Lemma Silent_throw {A} (e : Exn) : Silent (@throw A e).
Proof. intros L d. reflexivity. Qed.
Lemma Silent_gets {A} (f : Lexer -> A) : Silent (gets f).
Proof. intros L d. reflexivity. Qed.
Lemma Silent_advance : Silent advance.
Proof. intros L d. unfold advance. destruct (advanceL L). reflexivity. Qed.

Lemma Silent_bind {A B} (m : M A) (k : A -> M B) :
  Silent m -> (forall a, Silent (k a)) -> Silent (m ≫= k).
Proof.
  intros Hm Hk L d. specialize (Hm L d). unfold mbind, M_bind.
  destruct (m L d) as [[o L'] d']. unfold engineOf in Hm. cbn in Hm.
  subst d'. destruct o; [apply Hk | reflexivity | reflexivity].
Qed.

Lemma Silent_closing (contentStart : N) :
  Silent (contentEnd ← gets current_;
          advance;;
          token ← makeToken StringLiteral;
          src ← gets source_;
          txt ← substr src contentStart (sub32 contentEnd contentStart);
          mret (setText token txt)).
Proof.
  unfold makeToken, makeTokenText, lexeme, getLexer, substr.
  repeat first
    [ apply Silent_ret | apply Silent_throw | apply Silent_gets
    | apply Silent_advance
    | apply Silent_bind; [| intros ?]
    | match goal with
      | |- Silent (if ?c then _ else _) => destruct c
      end ].
Qed.

Lemma emitError_changes (loc : SourceLocation) (msg : string)
    (d : DiagnosticEngine) :
  emitError loc msg d <> d.
Proof.
  intros H. apply (f_equal (fun e => length (diagnostics_ e))) in H.
  unfold emitError in H. rewrite diagnostics_emit, length_app in H.
  cbn in H. lia.
Qed.

Lemma emitError_message (loc : SourceLocation) (m1 m2 : string)
    (d : DiagnosticEngine) :
  emitError loc m1 d = emitError loc m2 d -> m1 = m2.
Proof.
  intros H. apply (f_equal diagnostics_) in H.
  unfold emitError in H. rewrite !diagnostics_emit in H.
  apply app_inj_tail in H as [_ H]. now inversion H.
Qed.

Lemma scanString_UnescapedNewlineFirst (cs : list ascii) :
  scanString cs = UnescapedNewline <-> UnescapedNewlineFirst cs.
Proof.
  split.
  - remember (length cs) as n eqn:Hn.
    assert (Hle : (length cs <= n)%nat) by lia. clear Hn.
    revert cs Hle. induction n as [| n IH]; intros [| c rest] Hle;
      cbn [scanString length] in *; try discriminate; try lia.
    destruct (Ascii.eqb_spec c DQUOTE) as [-> | Hq]; [discriminate |].
    destruct (Ascii.eqb_spec c BACKSLASH) as [-> | Hb].
    + destruct rest as [| c2 rest]; [discriminate |]. intros H.
      apply UNF_escape, IH; [cbn in Hle; lia | exact H].
    + destruct (Ascii.eqb_spec c LF) as [-> | Hl]; intros H.
      * apply UNF_newline.
      * apply UNF_plain; try assumption. apply IH; [lia | exact H].
  - induction 1 as [rest | c rest H IH | c rest Hq Hb Hl H IH].
    + reflexivity.
    + exact IH.
    + cbn [scanString].
      apply Ascii.eqb_neq in Hq, Hb, Hl. now rewrite Hq, Hb, Hl.
Qed.

(** C10: in [lexString] a backslash takes the character after it along,
    whatever it is, so a backslash before a newline does not end the
    literal.  For a lexer that stands on the opening quote of a source of
    fewer than 2^32 characters, with fuel for every character, the engine
    after [lexString] is the engine before with one diagnostic added
    according to how the scan of the characters after the opening quote
    ends: none at the closing quote, "newline in string" at a newline that
    no backslash precedes, "unterminated string literal" at the end of the
    input.  The "newline in string" diagnostic is added exactly when an
    unescaped newline comes before the closing quote. *)
Theorem newline_error_exactly_on_unescaped_newline (fuel : nat) (L : Lexer)
    (d : DiagnosticEngine) :
  sourceSize L < UINT32_MOD ->
  current_ L < sourceSize L ->
  (String.length (source_ L) <= fuel)%nat ->
  let cs := drop 1 (remaining L) in
  engineOf (lexString fuel L d)
  = stringDiagnostics (tokenLoc L) (scanString cs) d
  /\ (scanString cs = UnescapedNewline <-> UnescapedNewlineFirst cs)
  /\ (engineOf (lexString fuel L d)
      = emitError (tokenLoc L) newlineInString d
      <-> UnescapedNewlineFirst cs)
  /\ (forall c rest,
        cs = BACKSLASH :: c :: rest ->
        engineOf (lexString fuel L d)
        = stringDiagnostics (tokenLoc L) (scanString rest) d).
Proof.
  intros Hsz Hcur Hfuel cs.
  assert (He : isAtEnd L = false).
  { unfold isAtEnd. apply N.leb_gt. exact Hcur. }
  destruct (remaining_notAtEnd L Hsz He) as [Hr _].
  destruct (advanceL_members L) as (Hs1 & Ht1 & _ & _).
  assert (Hcs : cs = remaining (snd (advanceL L))).
  { subst cs. rewrite Hr. reflexivity. }
  assert (Hrun : engineOf (lexString fuel L d)
                 = stringDiagnostics (tokenLoc L) (scanString cs) d).
  { unfold lexString. rewrite bind_advance, bind_gets.
    set (L1 := snd (advanceL L)) in *.
    assert (Hsz1 : sourceSize L1 < UINT32_MOD).
    { unfold sourceSize in *. now rewrite Hs1. }
    assert (Hf1 : (length (remaining L1) < fuel)%nat).
    { pose proof (length_remaining L) as Hl. rewrite Hr in Hl.
      cbn [length] in Hl. lia. }
    pose proof (lexStringLoop_scan fuel L1 d Hsz1 Hf1) as Hloop.
    rewrite Ht1, <- Hcs in Hloop. unfold mbind at 1, M_bind.
    destruct (scanString cs); cbn [stringDiagnostics].
    - destruct Hloop as (L' & -> & He' & _).
      rewrite bind_gets, He'. apply Silent_closing.
    - destruct Hloop as (o & L' & -> & Ho).
      destruct o as [[t |] | e |]; try reflexivity. now destruct Ho.
    - destruct Hloop as [(L' & -> & He' & Ht') | (o & L' & -> & Ho)].
      + rewrite bind_gets, He'.
        destruct (errorToken_run "unterminated string literal" L' d)
          as [o ->].
        rewrite Ht'. reflexivity.
      + destruct o as [[t |] | e |]; try reflexivity. now destruct Ho. }
  split; [exact Hrun |].
  split; [apply scanString_UnescapedNewlineFirst |].
  split.
  - rewrite Hrun, <- scanString_UnescapedNewlineFirst.
    destruct (scanString cs); cbn [stringDiagnostics]; split;
      try reflexivity; try discriminate; intros H.
    + symmetry in H. now apply emitError_changes in H.
    + apply emitError_message in H. discriminate.
  - intros c rest Hc. rewrite Hrun, Hc. reflexivity.
Qed.

(** The theorem at a literal with an escaped newline and then a bare one:
    only the bare one is reported. *)
Lemma escaped_newline_then_bare_newline :
  let L := newLexer escapedNewlineSource "main.fl" in
  (sourceSize L < UINT32_MOD /\ current_ L < sourceSize L
   /\ (String.length (source_ L) <= 8)%nat)
  /\ engineOf (lexString 8 L newEngine)
     = emitError (tokenLoc L) newlineInString newEngine.
Proof.
  cbn zeta.
  assert (H1 : sourceSize (newLexer escapedNewlineSource "main.fl")
               < UINT32_MOD) by reflexivity.
  assert (H2 : current_ (newLexer escapedNewlineSource "main.fl")
               < sourceSize (newLexer escapedNewlineSource "main.fl"))
    by reflexivity.
  assert (H3 : (String.length
                  (source_ (newLexer escapedNewlineSource "main.fl")) <= 8)%nat)
    by (vm_compute; lia).
  split; [repeat split; assumption |].
  exact (proj1 (newline_error_exactly_on_unescaped_newline 8
                  (newLexer escapedNewlineSource "main.fl") newEngine
                  H1 H2 H3)).
Defined.

(* ===================================================================== *)
(** * Further properties of the code *)
(* ===================================================================== *)

(** ** The diagnostic engine *)

Lemma wrap32_idem (n : N) : wrap32 (wrap32 n) = wrap32 n.
Proof. unfold wrap32. apply N.Div0.mod_mod. Qed.

Lemma wrap32_inc32 (n k : N) : wrap32 (inc32 n + k) = wrap32 (n + 1 + k).
Proof. unfold inc32, wrap32. apply N.Div0.add_mod_idemp_l. Qed.

Lemma counts_emit (x : Diagnostic) (d : DiagnosticEngine) :
  errorCount_ (emit x d)
  = (if countsAsError x then inc32 (errorCount_ d) else errorCount_ d)
  /\ warningCount_ (emit x d)
     = (if countsAsWarning x then inc32 (warningCount_ d)
        else warningCount_ d).
Proof.
  unfold emit, countsAsError, countsAsWarning.
  destruct (severity x); split; reflexivity.
Qed.

Lemma counts_emitAll (log : list Diagnostic) (d : DiagnosticEngine) :
  wrap32 (errorCount_ (emitAll log d)) = wrap32 (errorCount_ d + errorsIn log)
  /\ wrap32 (warningCount_ (emitAll log d))
     = wrap32 (warningCount_ d + warningsIn log).
Proof.
  revert d. unfold errorsIn, warningsIn, emitAll.
  induction log as [| x log IH]; intros d; cbn [fold_left List.filter].
  - cbn. rewrite !N.add_0_r. split; reflexivity.
  - destruct (IH (emit x d)) as [IHe IHw]. rewrite IHe, IHw.
    destruct (counts_emit x d) as [-> ->].
    destruct (countsAsError x), (countsAsWarning x); cbn [length];
      rewrite ?wrap32_inc32, ?Nat2N.inj_succ; split; f_equal; lia.
Qed.

Lemma errorCount_in_range (log : list Diagnostic) (d : DiagnosticEngine) :
  errorCount_ d < UINT32_MOD -> errorCount_ (emitAll log d) < UINT32_MOD.
Proof.
  revert d. unfold emitAll.
  induction log as [| x log IH]; intros d H; cbn [fold_left]; [exact H |].
  apply IH. destruct (counts_emit x d) as [-> _].
  destruct (countsAsError x); [| exact H].
  unfold inc32, wrap32. apply N.mod_lt. discriminate.
Qed.

(** X1: the engine keeps every diagnostic in the order of emission, and its
    two 32-bit counters count the error and fatal ones and the warnings
    modulo 2^32; notes are counted nowhere.  So an engine that started empty
    reports errors exactly when the number of errors recorded is not a
    multiple of 2^32. *)
Theorem engine_counters_count_modulo_2_32 (log : list Diagnostic)
    (d : DiagnosticEngine) :
  diagnostics_ (emitAll log d) = diagnostics_ d ++ log
  /\ wrap32 (errorCount_ (emitAll log d))
     = wrap32 (errorCount_ d + errorsIn log)
  /\ wrap32 (warningCount_ (emitAll log d))
     = wrap32 (warningCount_ d + warningsIn log)
  /\ getErrorCount (emitAll log newEngine) = wrap32 (errorsIn log)
  /\ (hasErrors (emitAll log newEngine) = true
      <-> errorsIn log mod UINT32_MOD <> 0).
Proof.
  assert (Hnew : getErrorCount (emitAll log newEngine) = wrap32 (errorsIn log)).
  { destruct (counts_emitAll log newEngine) as [He _].
    cbn [errorCount_ newEngine] in He. rewrite N.add_0_l in He.
    rewrite <- He. unfold getErrorCount, wrap32. symmetry.
    apply N.mod_small, errorCount_in_range. reflexivity. }
  split; [apply diagnostics_emitAll |].
  split; [apply counts_emitAll |]. split; [apply counts_emitAll |].
  split; [exact Hnew |].
  unfold hasErrors. unfold getErrorCount in Hnew. rewrite Hnew.
  unfold wrap32. rewrite N.ltb_lt.
  generalize (errorsIn log mod UINT32_MOD). intros n. lia.
Qed.

(** ** Scopes *)

(** X2: [Scope::insert] puts a symbol into the current scope only when the
    name is not there yet and says so; [Scope::lookup] then finds it, also
    when a scope further out binds the same name, and finds every other
    name as before.  When the name is there, nothing changes and the old
    symbol is still the one found. *)
Theorem insert_then_lookup (name other : string) (sym : Symbol)
    (cur : Scope) (parents : ScopeChain) :
  let chain := cur :: parents in
  let after := snd (insert name sym chain) in
  match symbols cur !! name with
  | None =>
      fst (insert name sym chain) = true
      /\ lookup after name = Some sym
      /\ (other <> name -> lookup after other = lookup chain other)
      /\ tail after = parents
  | Some old =>
      fst (insert name sym chain) = false
      /\ after = chain
      /\ lookup chain name = Some old
  end.
Proof.
  destruct cur as [n syms ch]. cbn [symbols]. cbn zeta.
  unfold insert. destruct (syms !! name) as [old |] eqn:Hs.
  - cbn. rewrite Hs. repeat split.
  - cbn. rewrite lookup_insert_eq. repeat split.
    intros Hne. rewrite lookup_insert_ne by congruence. reflexivity.
Qed.

(** ** Semantic analysis *)

(** X4: [analyze] answers [true] exactly when it leaves the error count of
    the engine as it found it. *)
Theorem analyze_true_iff_no_new_error (module : Module_) (s : Sema) :
  fst (analyze module s) = true
  <-> getErrorCount (sdiag (snd (analyze module s)))
      = getErrorCount (sdiag s).
Proof.
  unfold analyze. cbv zeta.
  destruct (_ <? _) eqn:Hlt; cbn [fst snd sdiag] in *.
  - apply N.ltb_lt in Hlt.
    split; [discriminate | intros H; rewrite H in Hlt; lia].
  - apply N.eqb_eq.
Qed.

(** ** Peeking *)

Lemma bind_modify {B} (f : Lexer -> Lexer) (k : unit -> M B) L d :
  (modify f ≫= k) L d = k tt (f L) d.
Proof. reflexivity. Qed.

Lemma bind_ret {A B} (a : A) (k : A -> M B) L d :
  (mret a ≫= k) L d = k a L d.
Proof. reflexivity. Qed.

(** X5: from a lexer with nothing peeked, [peekToken] returns the token
    [nextToken] would return, records the same diagnostics and leaves the
    lexer where [nextToken] would but for the token kept in the cache; a
    second [peekToken] returns that token again and changes nothing; the
    [nextToken] after returns it too and only empties the cache.  If
    [nextToken] throws, so does [peekToken], from the same state. *)
Theorem peekToken_agrees_with_nextToken (stod_oor : string -> bool)
    (fuel : nat) (L : Lexer) (d : DiagnosticEngine) :
  let L0 := set_hasPeeked false L in
  match nextToken stod_oor fuel L0 d with
  | (Ok t, L1, d1) =>
      let cached := set_hasPeeked true (set_peekedToken t L1) in
      peekToken stod_oor fuel L0 d = (Ok t, cached, d1)
      /\ peekToken stod_oor fuel cached d1 = (Ok t, cached, d1)
      /\ nextToken stod_oor fuel cached d1
         = (Ok t, set_hasPeeked false cached, d1)
      /\ saveState (set_hasPeeked false cached)
         = saveState (set_hasPeeked false (set_peekedToken t L1))
  | (Throw e, L1, d1) => peekToken stod_oor fuel L0 d = (Throw e, L1, d1)
  | (Diverge, L1, d1) => peekToken stod_oor fuel L0 d = (Diverge, L1, d1)
  end.
Proof.
  cbn zeta.
  destruct (nextToken stod_oor fuel (set_hasPeeked false L) d)
    as [[o L1] d1] eqn:Hn.
  destruct o as [t | e |].
  - repeat split.
    unfold peekToken. rewrite bind_gets. cbn [hasPeeked_ set_hasPeeked].
    unfold mbind at 1, M_bind. unfold mbind at 1, M_bind. rewrite Hn.
    reflexivity.
  - unfold peekToken. rewrite bind_gets. cbn [hasPeeked_ set_hasPeeked].
    unfold mbind at 1, M_bind. unfold mbind at 1, M_bind. rewrite Hn.
    reflexivity.
  - unfold peekToken. rewrite bind_gets. cbn [hasPeeked_ set_hasPeeked].
    unfold mbind at 1, M_bind. unfold mbind at 1, M_bind. rewrite Hn.
    reflexivity.
Qed.

(** ** The end of the input *)

Lemma sub32_diag (a : N) : sub32 a a = 0.
Proof.
  unfold sub32, wrap32.
  pose proof (N.mod_upper_bound a UINT32_MOD ltac:(discriminate)) as Hlt.
  pose proof (N.div_mod a UINT32_MOD ltac:(discriminate)) as Hdm.
  replace (a + (UINT32_MOD - a mod UINT32_MOD))
    with ((a / UINT32_MOD + 1) * UINT32_MOD) by lia.
  apply N.Div0.mod_mul.
Qed.

Lemma substring_0 (n : nat) (s : string) : String.substring n 0 s = "".
Proof.
  revert s. induction n as [| n IH]; intros [| c s]; cbn; auto.
Qed.

Lemma bind_run {A B} (m : M A) (k : A -> M B) L d a L' d' :
  m L d = (Ok a, L', d') -> (m ≫= k) L d = k a L' d'.
Proof. intros H. unfold mbind, M_bind. rewrite H. reflexivity. Qed.

Lemma skipWhitespace_atEnd (fuel : nat) L d :
  isAtEnd L = true -> skipWhitespace (S fuel) L d = (Ok tt, L, d).
Proof. intros He. cbn [skipWhitespace]. rewrite bind_gets, He. reflexivity. Qed.

Lemma lexeme_at_end L d :
  tokenStart_ L = current_ L -> current_ L = sourceSize L ->
  lexeme L d = (Ok "", L, d).
Proof.
  intros Ht Hc. unfold lexeme, getLexer. rewrite bind_gets. unfold substr.
  rewrite Ht, sub32_diag, Hc. unfold sourceSize. rewrite N.ltb_irrefl.
  cbn [mret M_ret]. now rewrite substring_0.
Qed.

(** X6: at the end of the input, with nothing peeked, [nextToken] returns
    the end-of-file token with an empty text at the current position,
    records nothing and moves nothing but the token start; called again it
    returns the same token from the same state. *)
Theorem nextToken_at_end_of_input (stod_oor : string -> bool) (fuel : nat)
    (L : Lexer) (d : DiagnosticEngine) :
  hasPeeked_ L = false ->
  current_ L = sourceSize L ->
  nextToken stod_oor (S fuel) L d = (Ok (eofTokenAt L), markTokenStart L, d)
  /\ nextToken stod_oor (S fuel) (markTokenStart L) d
     = (Ok (eofTokenAt L), markTokenStart L, d).
Proof.
  intros Hp Hc.
  assert (H : forall L, hasPeeked_ L = false -> current_ L = sourceSize L ->
              nextToken stod_oor (S fuel) L d
              = (Ok (eofTokenAt L), markTokenStart L, d)).
  { clear L Hp Hc. intros L Hp Hc.
    assert (He : isAtEnd L = true).
    { unfold isAtEnd. rewrite Hc. apply N.leb_refl. }
    unfold nextToken. rewrite bind_gets, Hp.
    rewrite (bind_run _ _ _ _ _ _ _ (skipWhitespace_atEnd fuel L d He)).
    rewrite bind_modify, bind_gets.
    replace (isAtEnd (markTokenStart L)) with true by (symmetry; exact He).
    unfold makeToken.
    rewrite (bind_run _ _ _ _ _ _ _
               (lexeme_at_end (markTokenStart L) d eq_refl Hc)).
    unfold makeTokenText. rewrite bind_gets. reflexivity. }
  split; [apply H; assumption |].
  specialize (H (markTokenStart L) Hp Hc). exact H.
Qed.

(** The theorem at the empty source. *)
Lemma nextToken_at_end_of_empty_source :
  let L := newLexer "" "main.fl" in
  (hasPeeked_ L = false /\ current_ L = sourceSize L)
  /\ nextToken (fun _ => false) 1 L newEngine
     = (Ok (eofTokenAt L), markTokenStart L, newEngine).
Proof.
  cbn zeta. split; [split; reflexivity |].
  exact (proj1 (nextToken_at_end_of_input (fun _ => false) 0
                  (newLexer "" "main.fl") newEngine eq_refl eq_refl)).
Defined.

(** ** Variables in the emitter *)

(** X7: after the emitter has passed a [let], the name stands for the slot
    allocated for it, with the lowered declared type ([i64] without an
    annotation); a use of the name right after is a load from that slot
    and records no error, whatever the name meant before. *)
Theorem let_bound_name_is_loaded (loc loc' : SourceLocation) (name : string)
    (ty : option TypeNode) (init : option Expr) (isMutable : bool)
    (E : IREmitter) :
  let varType := match ty with Some t => mapType t | None => IntTy 64 end in
  let slot := InstrResult (nextId E) PtrTy in
  let E1 := emitStmt (LetStmt loc name ty init isMutable) E in
  namedValues_ E1 !! name = Some (slot, varType)
  /\ fst (emitIdent loc' name E1) = Some (InstrResult (nextId E1) varType)
  /\ ediag (snd (emitIdent loc' name E1)) = ediag E1
  /\ snd (emitIdent loc' name E1)
     = appendInstr (Op (nextId E1) OpLoad [slot] varType name)
         (setNextId (S (nextId E1)) E1).
Proof.
  cbn zeta.
  assert (H : namedValues_ (emitStmt (LetStmt loc name ty init isMutable) E)
              !! name
              = Some (InstrResult (nextId E) PtrTy,
                      match ty with Some t => mapType t | None => IntTy 64 end)).
  { cbn [emitStmt]. unfold createEntryBlockAlloca. cbn [fresh].
    cbn [namedValues_ setNamedValues]. apply lookup_insert_eq. }
  split; [exact H |].
  unfold emitIdent. rewrite H. unfold createOp. cbn [fresh fst snd].
  repeat split. unfold appendInstr.
  destruct (insertBlock _); reflexivity.
Qed.

(** ** Blocks in the emitter *)

(** X8: emitting a statement or an expression never removes a basic block,
    and when the builder stands in a block of the module before, it stands
    in one after. *)
Theorem emission_keeps_blocks_and_insert_point :
  (forall s E,
     dom (blocks E) ⊆ dom (blocks (emitStmt s E))
     /\ (InsertPointLive E -> InsertPointLive (emitStmt s E)))
  /\ (forall e E,
        dom (blocks E) ⊆ dom (blocks (snd (emitExpr e E)))
        /\ (InsertPointLive E -> InsertPointLive (snd (emitExpr e E)))).
Proof.
  split.
  - exact (proj2 (proj2 (proj2 (proj2 emit_AST_keeps_blocks)))).
  - exact (proj1 emit_AST_keeps_blocks).
Qed.

(** ** Token kinds *)

Lemma findKeyword_In (tbl : list (string * TokenKind)) (txt : string)
    (k : TokenKind) :
  findKeyword tbl txt = Some k -> In (txt, k) tbl.
Proof.
  induction tbl as [| [s v] tbl IH]; cbn; [discriminate |].
  destruct (String.eqb_spec s txt) as [-> | Hne].
  - intros [= ->]. now left.
  - intros H. right. now apply IH.
Qed.

Lemma allKinds_complete (k : TokenKind) : In k allKinds.
Proof. destruct k; vm_compute; tauto. Qed.

(** X9: a word the lexer classifies is an identifier or one of the
    keywords: its kind then lies in the range [Token::isKeyword] tests, and
    [Token::kindToString] prints the kind as the word itself.  The other way
    round, the printed name of a keyword kind lexes back to that kind,
    except for the three annotation kinds, whose names start with [@]. *)
Theorem keywords_print_as_they_are_spelled :
  (forall txt,
     identifierKind txt = Identifier
     \/ (isKeyword (identifierKind txt) = true
         /\ kindToString (identifierKind txt) = txt))
  /\ (forall k,
        isKeyword k = true ->
        identifierKind (kindToString k) = k
        \/ k = KwDoc \/ k = KwDeprecated \/ k = KwTest)
  /\ isKeyword Identifier = false.
Proof.
  split; [| split; [| reflexivity]].
  - intros txt. unfold identifierKind.
    destruct (findKeyword keywords txt) as [k |] eqn:Hf; [| now left].
    right. apply findKeyword_In in Hf.
    assert (Hall : Forall (fun p : string * TokenKind =>
                             isKeyword (snd p) = true
                             /\ kindToString (snd p) = fst p) keywords).
    { unfold keywords. repeat constructor. }
    rewrite Forall_forall in Hall.
    exact (Hall _ (proj2 (list_elem_of_In _ _) Hf)).
  - intros k Hk. destruct k; try discriminate Hk; auto.
Qed.

(** X10: [Token::kindToString] gives every token kind a name of its own,
    so the token dump of the driver tells the kinds apart. *)
Theorem kindToString_injective (k1 k2 : TokenKind) :
  kindToString k1 = kindToString k2 <-> k1 = k2.
Proof.
  split; [| now intros ->].
  assert (Hnd : NoDup (map kindToString allKinds)).
  { apply (bool_decide_unpack _). vm_compute. exact I. }
  intros H.
  pose proof (allKinds_complete k1) as H1.
  pose proof (allKinds_complete k2) as H2.
  apply list_elem_of_In, list_elem_of_lookup in H1 as [i1 Hi1].
  apply list_elem_of_In, list_elem_of_lookup in H2 as [i2 Hi2].
  assert (i1 = i2).
  { eapply NoDup_lookup; [exact Hnd | |];
      rewrite list_lookup_fmap; [rewrite Hi1 | rewrite Hi2]; cbn;
      [reflexivity | now rewrite H]. }
  subst i2. congruence.
Qed.

(** ** The source manager *)

Lemma inc32_small (n : N) : n + 1 < UINT32_MOD -> inc32 n = n + 1.
Proof. intros H. unfold inc32, wrap32. now apply N.mod_small. Qed.

Lemma wrap32_small (n : N) : n < UINT32_MOD -> wrap32 n = n.
Proof. intros H. unfold wrap32. now apply N.mod_small. Qed.

Lemma sub32_small (a b : N) : b <= a -> a < UINT32_MOD -> sub32 a b = a - b.
Proof.
  intros Hb Ha. unfold sub32. rewrite (wrap32_small b) by lia.
  unfold wrap32. replace (a + (UINT32_MOD - b)) with (a - b + 1 * UINT32_MOD)
    by (unfold UINT32_MOD in *; lia).
  rewrite N.Div0.mod_add. apply N.mod_small. lia.
Qed.

Lemma startsFrom_app (i : N) (a b : list ascii) :
  startsFrom i (a ++ b)
  = startsFrom i a ++ startsFrom (i + N.of_nat (length a)) b.
Proof.
  revert i. induction a as [| c a IH]; intros i; cbn [app startsFrom length].
  - now rewrite N.add_0_r.
  - rewrite IH, <- app_assoc. do 3 f_equal. lia.
Qed.

Lemma startsFrom_bounds (i : N) (cs : list ascii) :
  Forall (fun x => i < x /\ x <= i + N.of_nat (length cs)) (startsFrom i cs).
Proof.
  revert i. induction cs as [| c cs IH]; intros i; cbn [startsFrom length].
  - constructor.
  - apply Forall_app. split.
    + destruct (Ascii.eqb c LF); repeat constructor; lia.
    + eapply Forall_impl; [apply IH |]. cbn. intros x [H1 H2]. lia.
Qed.

Lemma length_startsFrom (i : N) (cs : list ascii) :
  (length (startsFrom i cs) <= length cs)%nat.
Proof.
  revert i. induction cs as [| c cs IH]; intros i; cbn [startsFrom length].
  - lia.
  - rewrite length_app. specialize (IH (i + 1)).
    destruct (Ascii.eqb c LF); cbn [length]; lia.
Qed.

Lemma drop_charAt (content : string) (i : N) :
  i < N.of_nat (String.length content) ->
  drop (N.to_nat i) (list_ascii_of_string content)
  = charAt content i :: drop (S (N.to_nat i)) (list_ascii_of_string content).
Proof.
  intros Hi. unfold charAt. rewrite get_list_ascii_of_string.
  destruct (list_ascii_of_string content !! N.to_nat i) as [c |] eqn:Hl.
  - now apply drop_S.
  - apply lookup_ge_None in Hl.
    rewrite length_list_ascii_of_string in Hl. lia.
Qed.

Lemma lineOffsetsLoop_spec (content : string) (fuel : nat) :
  forall i acc,
    N.of_nat (String.length content) < UINT32_MOD ->
    i <= N.of_nat (String.length content) ->
    (String.length content - N.to_nat i < fuel)%nat ->
    lineOffsetsLoop fuel content i acc
    = Some (acc ++ startsFrom i
                     (drop (N.to_nat i) (list_ascii_of_string content))).
Proof.
  induction fuel as [| fuel IH]; intros i acc Hsz Hi Hf; [lia |].
  cbn [lineOffsetsLoop].
  destruct (i <? N.of_nat (String.length content)) eqn:Hlt.
  - apply N.ltb_lt in Hlt. rewrite (inc32_small i) by lia.
    rewrite IH by lia. rewrite (drop_charAt content i Hlt).
    cbn [startsFrom]. replace (N.to_nat (i + 1)) with (S (N.to_nat i)) by lia.
    destruct (Ascii.eqb (charAt content i) LF); cbn [app];
      now rewrite <- ?app_assoc.
  - apply N.ltb_ge in Hlt. rewrite drop_ge
      by (rewrite length_list_ascii_of_string; lia).
    cbn. now rewrite app_nil_r.
Qed.

Lemma searchLine_spec (pre rest : list N) (o : N) (fuel : nat) :
  Forall (fun x => x <= o) pre -> Forall (fun x => o < x) rest ->
  N.of_nat (length (pre ++ rest)) < UINT32_MOD ->
  forall lo hi line,
    lo <= N.of_nat (length pre) <= hi ->
    hi <= N.of_nat (length (pre ++ rest)) ->
    lo < N.of_nat (length pre) \/ line + 1 = N.of_nat (length pre) ->
    (N.to_nat (hi - lo) < fuel)%nat ->
    searchLine fuel (pre ++ rest) o lo hi line
    = Some (N.of_nat (length pre) - 1).
Proof.
  intros Hpre Hrest Hsz.
  induction fuel as [| fuel IH]; intros lo hi line Hp Hhi Hinv Hf; [lia |].
  cbn [searchLine]. destruct (lo <? hi) eqn:Hlt.
  - apply N.ltb_lt in Hlt.
    rewrite (sub32_small hi lo) by lia.
    assert (Hmid : lo <= lo + (hi - lo) / 2 < hi).
    { assert (H2 : (hi - lo) / 2 < hi - lo) by (apply N.div_lt; lia).
      revert H2. generalize ((hi - lo) / 2). intros x H2. lia. }
    rewrite (wrap32_small (lo + (hi - lo) / 2)) by lia.
    set (mid := lo + (hi - lo) / 2) in *.
    destruct (N.lt_ge_cases mid (N.of_nat (length pre))) as [Hm | Hm].
    + assert (Hn : nth (N.to_nat mid) (pre ++ rest) 0 <= o).
      { rewrite app_nth1 by lia. rewrite Forall_forall in Hpre.
        apply Hpre, list_elem_of_In, nth_In. lia. }
      apply N.leb_le in Hn. rewrite Hn.
      rewrite (inc32_small mid) by lia. apply IH; lia.
    + assert (Hn : o < nth (N.to_nat mid) (pre ++ rest) 0).
      { rewrite app_nth2 by lia. rewrite Forall_forall in Hrest.
        apply Hrest, list_elem_of_In, nth_In. rewrite length_app in Hhi. lia. }
      apply N.leb_gt in Hn. rewrite Hn. apply IH; lia.
  - apply N.ltb_ge in Hlt. f_equal. lia.
Qed.

Lemma last_cons_default {A} (x d : A) (l : list A) :
  List.last (x :: l) d = List.last l x.
Proof.
  revert x d. induction l as [| y l IH]; intros x d; [reflexivity |].
  change (List.last (x :: y :: l) d) with (List.last (y :: l) d).
  now rewrite !IH.
Qed.

Lemma nth_last_cons {A} (x d : A) (l : list A) :
  nth (length l) (x :: l) d = List.last l x.
Proof.
  revert x. induction l as [| y l IH]; intros x; [reflexivity |].
  change (nth (length l) (y :: l) d = List.last (y :: l) x).
  rewrite IH. symmetry. apply last_cons_default.
Qed.

Lemma scanPosition_spec (cs : list ascii) :
  forall (n : nat) (i s line : N),
    s <= i -> (n <= length cs)%nat ->
    scanPosition cs n line (i - s + 1)
    = (line + N.of_nat (length (startsFrom i (take n cs))),
       i + N.of_nat n - List.last (startsFrom i (take n cs)) s + 1).
Proof.
  induction cs as [| c cs IH]; intros n i s line Hs Hn.
  - cbn in Hn. assert (n = O) by lia. subst n. cbn. f_equal; lia.
  - destruct n as [| n]; [cbn; f_equal; lia |].
    cbn [scanPosition take startsFrom]. cbn [length] in Hn.
    destruct (Ascii.eqb c LF) eqn:Hc.
    + replace 1 with (i + 1 - (i + 1) + 1) at 2 by lia.
      rewrite IH by lia. cbn [app length]. rewrite last_cons_default.
      f_equal; lia.
    + replace (i - s + 1 + 1) with (i + 1 - s + 1) by lia.
      rewrite IH by lia. cbn [app]. f_equal; lia.
Qed.

Lemma Forall_last {A} (P : A -> Prop) (l : list A) (d : A) :
  Forall P l -> P d -> P (List.last l d).
Proof.
  induction 1 as [| x l Hx Hl IH]; intros Hd; [exact Hd |].
  rewrite last_cons_default. clear IH.
  revert x Hx. induction Hl as [| y l Hy Hl IH]; intros x Hx; [exact Hx |].
  rewrite last_cons_default. now apply IH.
Qed.

Lemma loadFromString_spec (fuel : nat) (name content : string)
    (files_ : SourceManager) :
  N.of_nat (String.length content) < UINT32_MOD ->
  N.of_nat (length files_) < UINT32_MOD ->
  (String.length content < fuel)%nat ->
  loadFromString fuel name content files_
  = Some (N.of_nat (length files_),
          files_ ++ [ {| fe_filename := name; fe_content := content;
                         lineOffsets :=
                           0 :: startsFrom 0 (list_ascii_of_string content)
                      |} ]).
Proof.
  intros Hsz Hn Hf. unfold loadFromString, computeLineOffsets.
  rewrite lineOffsetsLoop_spec by (cbn; lia). cbn [mbind option_bind].
  cbn [N.to_nat drop app]. rewrite length_app. cbn [length].
  rewrite wrap32_small by lia. do 2 f_equal. lia.
Qed.

(** X11: for a text of fewer than 2^32 - 1 characters loaded with
    [loadFromString], [getLocation] at an offset inside the text returns the
    file name, the offset, and the line and column a scan from the start
    reaches there, counting both from 1 and starting a new line after each
    newline; these are the line and the column the lexer counts. *)
Theorem getLocation_is_the_scanned_position (fuel : nat)
    (name content : string) (files_ : SourceManager) (offset : N) :
  N.of_nat (String.length content) + 1 < UINT32_MOD ->
  N.of_nat (length files_) < UINT32_MOD ->
  (String.length content + 1 < fuel)%nat ->
  offset < N.of_nat (String.length content) ->
  exists files',
    loadFromString fuel name content files_
    = Some (N.of_nat (length files_), files')
    /\ let p := scanPosition (list_ascii_of_string content)
                  (N.to_nat offset) 1 1 in
       getLocation fuel (N.of_nat (length files_)) offset files'
       = Some {| loc_filename := name; loc_line := fst p;
                 loc_column := snd p; loc_offset := offset |}
       /\ 0 < fst p /\ 0 < snd p.
Proof.
  intros Hsz Hn Hf Ho. eexists. split.
  { apply loadFromString_spec; lia. }
  set (cs := list_ascii_of_string content).
  assert (Hlen : length cs = String.length content)
    by apply length_list_ascii_of_string.
  set (o := N.to_nat offset).
  set (sf := startsFrom 0 (take o cs)).
  set (rest := startsFrom offset (drop o cs)).
  assert (Htake : length (take o cs) = o).
  { rewrite length_take. subst o. lia. }
  assert (Hoffs : 0 :: startsFrom 0 cs = (0 :: sf) ++ rest).
  { rewrite <- (take_drop o cs) at 1. rewrite startsFrom_app, Htake.
    subst o. rewrite N2Nat.id. reflexivity. }
  assert (Hpre : Forall (fun x => x <= offset) (0 :: sf)).
  { constructor; [lia |]. eapply Forall_impl; [apply startsFrom_bounds |].
    cbn. intros x [_ H]. rewrite Htake in H. subst o. lia. }
  assert (Hrest : Forall (fun x => offset < x) rest).
  { eapply Forall_impl; [apply startsFrom_bounds |]. cbn. tauto. }
  assert (Hsf : (length sf <= o)%nat).
  { pose proof (length_startsFrom 0 (take o cs)) as H.
    rewrite Htake in H. exact H. }
  assert (Hall : (length ((0%N :: sf) ++ rest) <= S (length cs))%nat).
  { rewrite <- Hoffs. cbn [length]. pose proof (length_startsFrom 0 cs). lia. }
  pose proof (scanPosition_spec cs o 0 0 1 ltac:(lia) ltac:(subst o; lia))
    as Hscan.
  change (0 - 0 + 1) with 1 in Hscan. fold sf in Hscan.
  assert (Hlast : List.last sf 0 <= offset).
  { apply (Forall_last (fun x => x <= offset)); [| lia].
    now inversion Hpre. }
  cbn zeta. rewrite Hscan. cbn [fst snd]. split; [| lia].
  unfold getLocation. rewrite length_app. cbn [length].
  replace (N.of_nat (length files_ + 1) <=? N.of_nat (length files_))
    with false by (symmetry; apply N.leb_gt; lia).
  rewrite Nat2N.id.
  rewrite (list_lookup_middle files_ [] _ (length files_) eq_refl).
  cbn [fe_content fe_filename lineOffsets].
  replace (N.of_nat (String.length content) <=? offset)
    with false by (symmetry; apply N.leb_gt; lia).
  rewrite Hoffs.
  rewrite (wrap32_small (N.of_nat (length ((0 :: sf) ++ rest)))) by lia.
  pose proof (length_app (0 :: sf) rest) as Happ.
  rewrite (searchLine_spec (0 :: sf) rest offset fuel Hpre Hrest)
    by (cbn [length] in *; lia).
  cbn [mbind option_bind length].
  replace (N.to_nat (N.of_nat (S (length sf)) - 1)) with (length sf) by lia.
  rewrite app_nth1 by (cbn [length]; lia). rewrite nth_last_cons.
  rewrite sub32_small by lia.
  rewrite !inc32_small by lia.
  do 2 f_equal.
  - lia.
  - subst o. lia.
Qed.

(** The theorem at the second line of a two-line text. *)
Lemma getLocation_on_the_second_line :
  let content := String "a" (String LF (String "b" (String "c" ""))) in
  (N.of_nat (String.length content) + 1 < UINT32_MOD
   /\ N.of_nat (@length FileEntry []) < UINT32_MOD
   /\ (String.length content + 1 < 6)%nat
   /\ 3 < N.of_nat (String.length content))
  /\ exists files',
       loadFromString 6 "main.fl" content [] = Some (0, files')
       /\ getLocation 6 0 3 files'
          = Some {| loc_filename := "main.fl"; loc_line := 2;
                    loc_column := 2; loc_offset := 3 |}.
Proof.
  cbn zeta.
  assert (H1 : N.of_nat (String.length
                           (String "a" (String LF (String "b" (String "c" "")))))
               + 1 < UINT32_MOD) by reflexivity.
  assert (H2 : N.of_nat (@length FileEntry []) < UINT32_MOD) by reflexivity.
  assert (H3 : (String.length
                  (String "a" (String LF (String "b" (String "c" ""))))
                + 1 < 6)%nat) by (cbn; lia).
  assert (H4 : 3 < N.of_nat (String.length
                               (String "a" (String LF (String "b" (String "c" ""))))))
    by reflexivity.
  split; [repeat split; assumption |].
  destruct (getLocation_is_the_scanned_position 6 "main.fl"
              (String "a" (String LF (String "b" (String "c" "")))) [] 3
              H1 H2 H3 H4) as (files' & Hl & Hg & _).
  exists files'. split; [exact Hl | exact Hg].
Defined.

(** X12: the identifier [loadFromString] returns gives back the text and
    the name it was given, and the files loaded before keep theirs; an
    identifier that names no file makes [getSource] and [getFilename] throw
    [out_of_range], and [getLocation] answers the unknown location, which is
    not valid, for it and for every offset at or past the end of the text. *)
Theorem loaded_source_is_found_again (fuel : nat) (name content : string)
    (files_ : SourceManager) :
  N.of_nat (String.length content) < UINT32_MOD ->
  N.of_nat (length files_) < UINT32_MOD ->
  (String.length content < fuel)%nat ->
  exists files',
    let id := N.of_nat (length files_) in
    loadFromString fuel name content files_ = Some (id, files')
    /\ getSource id files' = Ok content
    /\ getFilename id files' = Ok name
    /\ (forall j, j < id ->
          getSource j files' = getSource j files_
          /\ getFilename j files' = getFilename j files_)
    /\ (forall j offset, id < j ->
          getSource j files' = Throw out_of_range
          /\ getFilename j files' = Throw out_of_range
          /\ getLocation fuel j offset files' = Some unknownLoc)
    /\ (forall offset, N.of_nat (String.length content) <= offset ->
          getLocation fuel id offset files' = Some unknownLoc)
    /\ isValid unknownLoc = false.
Proof.
  intros Hsz Hn Hf. eexists. cbn zeta. split.
  { apply loadFromString_spec; assumption. }
  unfold getSource, getFilename, getLocation.
  rewrite !length_app. cbn [length].
  replace (N.of_nat (length files_ + 1) <=? N.of_nat (length files_))
    with false by (symmetry; apply N.leb_gt; lia).
  rewrite Nat2N.id.
  rewrite (list_lookup_middle files_ [] _ (length files_) eq_refl).
  cbn [fe_content fe_filename].
  split; [reflexivity |]. split; [reflexivity |]. split; [| split; [| split]].
  - intros j Hj.
    replace (N.of_nat (length files_ + 1) <=? j)
      with false by (symmetry; apply N.leb_gt; lia).
    replace (N.of_nat (length files_) <=? j)
      with false by (symmetry; apply N.leb_gt; lia).
    assert (Hjn : (N.to_nat j < length files_)%nat) by lia.
    rewrite (lookup_app_l files_ _ _ Hjn). split; reflexivity.
  - intros j offset Hj.
    replace (N.of_nat (length files_ + 1) <=? j)
      with true by (symmetry; apply N.leb_le; lia).
    repeat split.
  - intros offset Ho. apply N.leb_le in Ho. rewrite Ho. reflexivity.
  - reflexivity.
Qed.

(** The theorem at a first file. *)
Lemma first_loaded_source_is_found_again :
  (N.of_nat (String.length "ab") < UINT32_MOD
   /\ N.of_nat (@length FileEntry []) < UINT32_MOD
   /\ (String.length "ab" < 3)%nat)
  /\ exists files',
       loadFromString 3 "main.fl" "ab" [] = Some (0, files')
       /\ getSource 0 files' = Ok "ab".
Proof.
  assert (H1 : N.of_nat (String.length "ab") < UINT32_MOD) by reflexivity.
  assert (H2 : N.of_nat (@length FileEntry []) < UINT32_MOD) by reflexivity.
  assert (H3 : (String.length "ab" < 3)%nat) by (cbn; lia).
  split; [repeat split; assumption |].
  destruct (loaded_source_is_found_again 3 "main.fl" "ab" [] H1 H2 H3)
    as (files' & Hl & Hs & _).
  exists files'. split; [exact Hl | exact Hs].
Defined.

(** ** The command line *)

Lemma parseArg_without_next (arg : string) (opts : DriverOptions) :
  match parseArg arg None opts with
  | TakesOne o => forall next, parseArg arg next opts = TakesOne o
  | TakesTwo _ => False
  | ExitsWith _ => True
  end.
Proof.
  unfold parseArg.
  repeat match goal with
    | |- context [String.eqb arg ?s] =>
        destruct (String.eqb_spec arg s) as [-> | ?];
        cbn [orb negb firstChar Ascii.eqb Bool.eqb andb]; try exact I;
        try (intros; reflexivity)
    end.
  destruct (Ascii.eqb (firstChar arg) "-"); cbn [negb]; [exact I |].
  intros next.
  repeat match goal with
    | |- context [String.eqb arg ?s] =>
        destruct (String.eqb_spec arg s) as [-> | ?]; [congruence |]
    end.
  reflexivity.
Qed.

Lemma parseArgsLoop_app (n : nat) :
  forall (a b : list string) (opts opts' : DriverOptions),
    (length a <= n)%nat ->
    parseArgsLoop a opts = Options opts' ->
    parseArgsLoop (a ++ b) opts = parseArgsLoop b opts'.
Proof.
  induction n as [| n IH]; intros a b opts opts' Hn H.
  - destruct a; [| cbn in Hn; lia]. cbn in H. now inversion H.
  - destruct a as [| arg rest]; [cbn in H; now inversion H |].
    cbn [length] in Hn. cbn [parseArgsLoop app] in *.
    destruct rest as [| x rest'].
    + cbn [head app] in *. pose proof (parseArg_without_next arg opts) as Hw.
      destruct (parseArg arg None opts) as [o | o | m];
        [| contradiction | discriminate].
      rewrite Hw. cbn in H. now inversion H.
    + cbn [head app] in *.
      destruct (parseArg arg (Some x) opts) as [o | o | m];
        [| | discriminate].
      * apply (IH (x :: rest')); [cbn [length] in *; lia | exact H].
      * apply IH; [cbn [length] in *; lia | exact H].
Qed.

(** X13: arguments that [parseArgs] reads to the end without leaving the
    program are read the same way whatever follows them: the arguments
    after them are read from the options reached.  So an option that needs
    a value, put last, is not given one: [-o], [--emit] and [--target] at
    the end are refused as unknown options. *)
Theorem parseArgs_reads_a_prefix_on_its_own (a b : list string)
    (opts opts' : DriverOptions) :
  parseArgsLoop a opts = Options opts' ->
  parseArgsLoop (a ++ b) opts = parseArgsLoop b opts'
  /\ parseArgsLoop (a ++ ["-o"]) opts = Exit1 (unknownOption "-o")
  /\ parseArgsLoop (a ++ ["--emit"]) opts = Exit1 (unknownOption "--emit")
  /\ parseArgsLoop (a ++ ["--target"]) opts
     = Exit1 (unknownOption "--target").
Proof.
  intros H.
  repeat split;
    rewrite (parseArgsLoop_app (length a) a _ opts opts' (le_n _) H);
    reflexivity.
Qed.

(** The theorem at the arguments [main.fl -O2]. *)
Lemma parseArgs_reads_input_and_level :
  parseArgsLoop ["main.fl"; "-O2"] defaultOptions
  = Options (withOptimizationLevel 2 (withInputFile "main.fl" defaultOptions))
  /\ parseArgsLoop (["main.fl"; "-O2"] ++ ["-o"]) defaultOptions
     = Exit1 (unknownOption "-o").
Proof.
  split; [reflexivity |].
  exact (proj1 (proj2 (parseArgs_reads_a_prefix_on_its_own
                         ["main.fl"; "-O2"] [] defaultOptions _ eq_refl))).
Defined.

(** ** Error recovery in the parser *)

(** X14: when [Parser::synchronize] returns, the parser is at the end of
    the input, right after a semicolon, or before a token that starts a
    declaration or a statement; and when it is called at such a point it
    returns at once, having read no token and recorded nothing. *)
Theorem synchronize_stops_at_a_sync_point (stod_oor : string -> bool)
    (lexFuel fuel : nat) (P : Parser) (L : Lexer) (d : DiagnosticEngine) :
  match synchronize stod_oor lexFuel fuel P L d with
  | (Ok P', _, _) => atSyncPoint P' = true
  | _ => True
  end
  /\ (atSyncPoint P = true ->
      synchronize stod_oor lexFuel (S fuel) P L d = (Ok P, L, d)).
Proof.
  split.
  - revert P L d. induction fuel as [| fuel IH]; intros P L d;
      [exact I |].
    cbn [synchronize]. unfold parserCheck, atSyncPoint in *.
    destruct (kindEqb (kind (p_current_ P)) Eof) eqn:He; cbn [negb];
      [cbn; now rewrite He |].
    destruct (kindEqb (kind (p_previous_ P)) Semicolon) eqn:Hs;
      [cbn; rewrite He, Hs; reflexivity |].
    destruct (startsDeclOrStmt (kind (p_current_ P))) eqn:Hk;
      [cbn; rewrite He, Hs, Hk; reflexivity |].
    unfold parserAdvance. unfold mbind at 1, M_bind.
    unfold mbind at 1, M_bind.
    destruct (nextToken stod_oor lexFuel L d) as [[o L1] d1].
    destruct o as [t | e |]; [| exact I | exact I].
    cbn [mret M_ret snd]. apply IH.
  - unfold atSyncPoint. intros H. cbn [synchronize]. unfold parserCheck.
    destruct (kindEqb (kind (p_current_ P)) Eof); [reflexivity |].
    destruct (kindEqb (kind (p_previous_ P)) Semicolon); [reflexivity |].
    cbn [orb negb] in *. rewrite H. reflexivity.
Qed.

(** ** Scopes during resolution *)

Lemma KeepsSymbols_GrowsHead f : KeepsSymbols f -> GrowsHead f.
Proof.
  intros H cur ps d. destruct (H cur ps d) as (cur' & Hs & Hsym & Hn).
  exists cur'. rewrite Hsym.
  split; [assumption | split; [reflexivity | assumption]].
Qed.

Lemma KeepsSymbols_id : KeepsSymbols (fun r => r).
Proof. intros cur ps d. exists cur. repeat split. Qed.

Lemma GrowsHead_id : GrowsHead (fun r => r).
Proof. apply KeepsSymbols_GrowsHead, KeepsSymbols_id. Qed.

Lemma KeepsSymbols_rError loc msg : KeepsSymbols (rError loc msg).
Proof. intros cur ps d. exists cur. repeat split. Qed.

Lemma KeepsSymbols_compose f g :
  KeepsSymbols f -> KeepsSymbols g -> KeepsSymbols (fun r => g (f r)).
Proof.
  intros Hf Hg cur ps d. destruct (Hf cur ps d) as (c1 & Hs1 & Hy1 & Hn1).
  destruct (f {| scopes := cur :: ps; rdiag := d |}) as [sc1 d1].
  cbn [scopes] in Hs1. subst sc1.
  destruct (Hg c1 ps d1) as (c2 & Hs2 & Hy2 & Hn2).
  exists c2. repeat split; congruence.
Qed.

Lemma GrowsHead_compose f g :
  GrowsHead f -> GrowsHead g -> GrowsHead (fun r => g (f r)).
Proof.
  intros Hf Hg cur ps d. destruct (Hf cur ps d) as (c1 & Hs1 & Hy1 & Hn1).
  destruct (f {| scopes := cur :: ps; rdiag := d |}) as [sc1 d1].
  cbn [scopes] in Hs1. subst sc1.
  destruct (Hg c1 ps d1) as (c2 & Hs2 & Hy2 & Hn2).
  exists c2. repeat split; [assumption | | congruence].
  etransitivity; eassumption.
Qed.

Lemma KeepsSymbols_fold {A : Type} (F : Resolver -> A -> Resolver)
    (l : list A) :
  list_all A (fun x => KeepsSymbols (fun r => F r x)) l ->
  KeepsSymbols (fold_left F l).
Proof.
  induction 1 as [| x Hx l Hl IH].
  - apply KeepsSymbols_id.
  - apply (KeepsSymbols_compose (fun r => F r x) (fold_left F l));
      assumption.
Qed.

Lemma GrowsHead_fold {A : Type} (F : Resolver -> A -> Resolver)
    (l : list A) :
  list_all A (fun x => GrowsHead (fun r => F r x)) l ->
  GrowsHead (fold_left F l).
Proof.
  induction 1 as [| x Hx l Hl IH].
  - apply GrowsHead_id.
  - apply (GrowsHead_compose (fun r => F r x) (fold_left F l)); assumption.
Qed.

Lemma GrowsHead_declare name sym : GrowsHead (declare name sym).
Proof.
  intros [n syms ch] ps d. unfold declare, insert. cbn [scopes].
  destruct (syms !! name) eqn:Hs; cbn.
  - eexists. split; [reflexivity |]. split; reflexivity.
  - eexists. split; [reflexivity |]. split; [| reflexivity].
    cbn. now apply insert_subseteq.
Qed.

Lemma GrowsHead_declareOrError name sym loc msg :
  GrowsHead (declareOrError name sym loc msg).
Proof.
  intros [n syms ch] ps d. unfold declareOrError, insert. cbn [scopes].
  destruct (syms !! name) eqn:Hs; cbn.
  - eexists. split; [reflexivity |]. split; reflexivity.
  - eexists. split; [reflexivity |]. split; [| reflexivity].
    cbn. now apply insert_subseteq.
Qed.

(** What is declared between [enterScope] and [exitScope] is gone after. *)
Lemma KeepsSymbols_scoped name f :
  GrowsHead f -> KeepsSymbols (fun r => exitScope (f (enterScope name r))).
Proof.
  intros Hf [n syms ch] ps d. unfold enterScope, withScopes.
  cbn [scopes rdiag].
  destruct (Hf (mkScope name ∅ []) (mkScope n syms ch :: ps) d)
    as (c1 & Hs1 & _ & _).
  destruct (f _) as [sc1 d1]. cbn [scopes] in Hs1. subst sc1.
  unfold exitScope, withScopes. cbn [scopes rdiag].
  eexists. repeat split.
Qed.

Lemma KeepsSymbols_ident loc name :
  KeepsSymbols (resolveExpr (IdentExpr loc name)).
Proof.
  intros cur ps d. cbn [resolveExpr scopes].
  destruct (lookup (cur :: ps) name); exists cur; repeat split.
Qed.

Lemma KeepsSymbols_option {A} (F : A -> Resolver -> Resolver)
    (o : option A) :
  option_all A (fun x => KeepsSymbols (F x)) o ->
  KeepsSymbols (fun r => match o with Some x => F x r | None => r end).
Proof. intros [x Hx |]; [exact Hx | apply KeepsSymbols_id]. Qed.

Lemma GrowsHead_closureParams params :
  GrowsHead (fold_left declareClosureParam params).
Proof.
  apply GrowsHead_fold, list_all_of_forall. intros p.
  apply GrowsHead_declare.
Qed.

Ltac sc_hyps :=
  repeat match goal with
  | X : list_all Expr _ _ |- _ =>
      apply (KeepsSymbols_fold (fun r a => resolveExpr a r)) in X
  | X : list_all Stmt _ _ |- _ =>
      apply (GrowsHead_fold (fun r a => resolveStmt a r)) in X
  | X : list_all MatchArm _ _ |- _ =>
      apply (KeepsSymbols_fold
               (fun r arm =>
                  match arm with
                  | mkMatchArm _ _ body _ =>
                      exitScope (resolveExpr body (enterScope "match_arm" r))
                  end)) in X
  | X : list_all FieldInit _ _ |- _ =>
      apply (KeepsSymbols_fold
               (fun r fi => match fi with
                            | mkFieldInit _ value _ => resolveExpr value r
                            end)) in X
  | X : option_all _ _ _ |- _ => destruct X
  end.

Ltac sc_use H f c ps d :=
  let c1 := fresh "c" in
  let Hs := fresh "Hs" in
  let Hy := fresh "Hy" in
  let Hn := fresh "Hn" in
  destruct (H c ps d) as (c1 & Hs & Hy & Hn);
  let sc := fresh "sc" in
  let d1 := fresh "d" in
  destruct (f {| scopes := c :: ps; rdiag := d |}) as [sc d1];
  cbn [scopes] in Hs; subst sc.

Ltac sc_step :=
  match goal with
  | H : KeepsSymbols ?f
    |- context [?f {| scopes := ?c :: ?ps; rdiag := ?d |}] =>
      sc_use H f c ps d
  | H : GrowsHead ?f
    |- context [?f {| scopes := ?c :: ?ps; rdiag := ?d |}] =>
      sc_use H f c ps d
  | |- context [enterScope ?n {| scopes := ?s; rdiag := ?d |}] =>
      change (enterScope n {| scopes := s; rdiag := d |})
        with {| scopes := mkScope n ∅ [] :: s; rdiag := d |}
  | |- context [exitScope {| scopes := ?a :: ?b :: ?ps; rdiag := ?d |}] =>
      try (is_var b; destruct b);
      unfold exitScope, withScopes; cbn [scopes rdiag]
  | |- context [declare ?n ?y {| scopes := ?c :: ?ps; rdiag := ?d |}] =>
      sc_use (GrowsHead_declare n y) (declare n y) c ps d
  | |- context [declareOrError ?n ?y ?l ?m
                  {| scopes := ?c :: ?ps; rdiag := ?d |}] =>
      sc_use (GrowsHead_declareOrError n y l m) (declareOrError n y l m)
        c ps d
  | |- context [fold_left declareClosureParam ?p
                  {| scopes := ?c :: ?ps; rdiag := ?d |}] =>
      sc_use (GrowsHead_closureParams p) (fold_left declareClosureParam p)
        c ps d
  end.

Ltac sc_done :=
  cbn [scopes]; eexists; split; [reflexivity |];
  repeat match goal with c : Scope |- _ => destruct c end;
  cbn [symbols scopeName] in *; subst;
  split;
    [ repeat first [ reflexivity | assumption
                   | etransitivity; [eassumption |] ]
    | reflexivity ].

Lemma resolve_AST_scopes :
  (forall e, KeepsSymbols (resolveExpr e))
  /\ (forall arm, KeepsSymbols
        (fun r => match arm with
                  | mkMatchArm _ _ body _ =>
                      exitScope (resolveExpr body (enterScope "match_arm" r))
                  end))
  /\ (forall fi, KeepsSymbols
        (fun r => match fi with
                  | mkFieldInit _ value _ => resolveExpr value r
                  end))
  /\ (forall p : Pattern, True)
  /\ (forall s, GrowsHead (resolveStmt s)).
Proof.
  apply AST_mutind; intros; try exact I;
    try apply KeepsSymbols_ident; sc_hyps.
  all: intros cur ps d; cbn [resolveExpr resolveStmt].
  all: repeat sc_step; sc_done.
Qed.

Lemma resolveExpr_keeps_symbols e : KeepsSymbols (resolveExpr e).
Proof. apply resolve_AST_scopes. Qed.

Lemma resolveStmt_grows_head s : GrowsHead (resolveStmt s).
Proof. apply resolve_AST_scopes. Qed.

Lemma resolveStmts_grow_head (statements : list Stmt) :
  GrowsHead (fold_left (fun r s => resolveStmt s r) statements).
Proof.
  apply GrowsHead_fold, list_all_of_forall. intros s.
  apply resolveStmt_grows_head.
Qed.

Lemma registerDecl_grows_head decl : GrowsHead (registerDecl decl).
Proof.
  destruct decl; try apply GrowsHead_id; apply GrowsHead_declareOrError.
Qed.

Lemma resolveFunc_keeps_symbols decl : KeepsSymbols (resolveFunc decl).
Proof.
  unfold resolveFunc.
  apply (KeepsSymbols_scoped (fd_name decl)
           (fun r =>
              let r := fold_left (declareGenericParam (fd_location decl))
                         (fd_genericParams decl) r in
              let r := fold_left
                         (fun r param =>
                            declare (fp_name param)
                              (symbolOf SymbolKind.Variable_ (fp_name param)
                                 (fd_location decl) Public false) r)
                         (fd_params decl) r in
              match fd_body decl with
              | Some statements =>
                  fold_left (fun r s => resolveStmt s r) statements r
              | None => r
              end)).
  cbv zeta.
  apply (GrowsHead_compose
           (fun r => fold_left
                       (fun r param =>
                          declare (fp_name param)
                            (symbolOf SymbolKind.Variable_ (fp_name param)
                               (fd_location decl) Public false) r)
                       (fd_params decl)
                       (fold_left (declareGenericParam (fd_location decl))
                          (fd_genericParams decl) r))
           (fun r => match fd_body decl with
                     | Some statements =>
                         fold_left (fun r s => resolveStmt s r) statements r
                     | None => r
                     end)).
  - apply (GrowsHead_compose
             (fold_left (declareGenericParam (fd_location decl))
                (fd_genericParams decl))
             (fold_left
                (fun r param =>
                   declare (fp_name param)
                     (symbolOf SymbolKind.Variable_ (fp_name param)
                        (fd_location decl) Public false) r)
                (fd_params decl))).
    + apply GrowsHead_fold, list_all_of_forall. intros gp.
      apply GrowsHead_declare.
    + apply GrowsHead_fold, list_all_of_forall. intros p.
      apply GrowsHead_declare.
  - destruct (fd_body decl); [apply resolveStmts_grow_head |].
    apply GrowsHead_id.
Qed.

Lemma resolveDecl_grows_head decl : GrowsHead (resolveDecl decl).
Proof.
  destruct decl; try apply GrowsHead_id; cbn [resolveDecl].
  - apply KeepsSymbols_GrowsHead, resolveFunc_keeps_symbols.
  - apply KeepsSymbols_GrowsHead. unfold resolveStruct.
    apply (KeepsSymbols_scoped name
             (fold_left (declareGenericParam loc) genericParams)).
    apply GrowsHead_fold, list_all_of_forall. intros gp.
    apply GrowsHead_declare.
  - apply KeepsSymbols_GrowsHead. unfold resolveClass.
    apply (KeepsSymbols_scoped name
             (fun r => fold_left (fun r m => resolveFunc m r) methods
                         (fold_left (declareGenericParam loc)
                            genericParams r))).
    apply (GrowsHead_compose
             (fold_left (declareGenericParam loc) genericParams)
             (fold_left (fun r m => resolveFunc m r) methods)).
    + apply GrowsHead_fold, list_all_of_forall. intros gp.
      apply GrowsHead_declare.
    + apply GrowsHead_fold, list_all_of_forall. intros m.
      apply KeepsSymbols_GrowsHead, resolveFunc_keeps_symbols.
  - unfold resolveEnum.
    apply (GrowsHead_fold _ variants), list_all_of_forall. intros v.
    apply GrowsHead_declare.
  - apply KeepsSymbols_GrowsHead. unfold resolveTrait.
    apply (KeepsSymbols_scoped name
             (fold_left (fun r m => registerDecl (FuncDeclD m) r) methods)).
    apply GrowsHead_fold, list_all_of_forall. intros m.
    apply (registerDecl_grows_head (FuncDeclD m)).
  - apply KeepsSymbols_GrowsHead. unfold resolveImpl.
    apply (KeepsSymbols_scoped "impl"
             (fold_left (fun r m => resolveFunc m r) methods)).
    apply GrowsHead_fold, list_all_of_forall. intros m.
    apply KeepsSymbols_GrowsHead, resolveFunc_keeps_symbols.
Qed.

Lemma resolveDecls_grow_head (decls : list Decl) :
  GrowsHead (fold_left (fun r decl => resolveDecl decl r) decls).
Proof.
  apply GrowsHead_fold, list_all_of_forall. intros decl.
  apply resolveDecl_grows_head.
Qed.

Lemma registerDecls_grow_head (decls : list Decl) :
  GrowsHead (fold_left (fun r decl => registerDecl decl r) decls).
Proof.
  apply GrowsHead_fold, list_all_of_forall. intros decl.
  apply registerDecl_grows_head.
Qed.

Lemma GrowsHead_lookup f cur ps d name :
  GrowsHead f ->
  is_Some (lookup (cur :: ps) name) ->
  is_Some (lookup (scopes (f {| scopes := cur :: ps; rdiag := d |})) name)
  /\ tail (scopes (f {| scopes := cur :: ps; rdiag := d |})) = ps.
Proof.
  intros Hf Hl. destruct (Hf cur ps d) as (c1 & -> & Hy & _).
  split; [| reflexivity]. cbn [lookup] in *.
  destruct (symbols cur !! name) as [sym |] eqn:Hc.
  - rewrite (lookup_weaken _ _ _ _ Hc Hy). eauto.
  - destruct (symbols c1 !! name); [eauto | exact Hl].
Qed.

Lemma KeepsSymbols_lookup f cur ps d name :
  KeepsSymbols f ->
  lookup (scopes (f {| scopes := cur :: ps; rdiag := d |})) name
  = lookup (cur :: ps) name
  /\ tail (scopes (f {| scopes := cur :: ps; rdiag := d |})) = ps.
Proof.
  intros Hf. destruct (Hf cur ps d) as (c1 & -> & Hy & _).
  split; [| reflexivity]. cbn [lookup]. now rewrite Hy.
Qed.

(** X3: a [let] resolves its initializer, if it has one, and then declares
    its name.  If the name is already in the current scope the [let] is
    reported as a redefinition and binds nothing: every name is found as
    before, so the first declaration stays the one in force.  If the name
    is bound only further out, or nowhere, the [let] shadows it in the
    current scope and records nothing beyond what the initializer gave rise
    to. *)
Theorem let_redefines_or_shadows (cur : Scope) (parents : ScopeChain)
    (d : DiagnosticEngine) (loc : SourceLocation) (name : string)
    (ty : option TypeNode) (init : option Expr) (isMutable : bool) :
  let r := {| scopes := cur :: parents; rdiag := d |} in
  let r1 := match init with Some e => resolveExpr e r | None => r end in
  let r' := resolveStmt (LetStmt loc name ty init isMutable) r in
  match symbols cur !! name with
  | Some old =>
      r' = rError loc ("redefinition of variable '" +:+ name +:+ "'") r1
      /\ lookup (scopes r') name = Some old
      /\ (forall other,
            lookup (scopes r') other = lookup (cur :: parents) other)
      /\ tail (scopes r') = parents
  | None =>
      rdiag r' = rdiag r1
      /\ lookup (scopes r') name
         = Some (symbolOf SymbolKind.Variable_ name loc Public isMutable)
      /\ (forall other,
            other <> name ->
            lookup (scopes r') other = lookup (cur :: parents) other)
      /\ tail (scopes r') = parents
  end.
Proof.
  cbv zeta. cbn [resolveStmt].
  assert (Hk : KeepsSymbols
                 (fun r => match init with
                           | Some e => resolveExpr e r
                           | None => r
                           end)).
  { destruct init as [e |]; [apply resolveExpr_keeps_symbols |].
    intros c ps d0. exists c. repeat split. }
  destruct (Hk cur parents d) as (cur1 & Hsc & Hsy & _). cbv beta in Hsc.
  destruct (match init with
            | Some e => resolveExpr e {| scopes := cur :: parents; rdiag := d |}
            | None => {| scopes := cur :: parents; rdiag := d |}
            end) as [sc1 d1].
  cbn [scopes] in Hsc. subst sc1. destruct cur1 as [n1 syms1 ch1].
  cbn [symbols] in Hsy. subst syms1.
  unfold declareOrError, insert. cbn [scopes rdiag].
  destruct (symbols cur !! name) as [old |] eqn:Hs.
  - cbn [rError withScopes scopes rdiag lookup symbols tail].
    rewrite Hs. repeat split.
  - cbn [rError withScopes scopes rdiag lookup symbols tail].
    rewrite lookup_insert_eq. repeat split.
    intros other Hne. rewrite lookup_insert_ne by congruence. reflexivity.
Qed.

(** X15: the resolver keeps to lexical scoping.  Resolving an expression,
    a block, a [for] loop or a function leaves every name bound as it was
    before: what is declared inside is in scopes that have been left.  A
    statement can only add names to the current scope; it never touches a
    scope further out, and a name that was bound stays bound. *)
Theorem names_of_inner_scopes_do_not_leak (cur : Scope)
    (parents : ScopeChain) (d : DiagnosticEngine) (name : string) :
  let r := {| scopes := cur :: parents; rdiag := d |} in
  (forall e,
     lookup (scopes (resolveExpr e r)) name = lookup (cur :: parents) name
     /\ tail (scopes (resolveExpr e r)) = parents)
  /\ (forall loc statements,
        lookup (scopes (resolveStmt (BlockStmt loc statements) r)) name
        = lookup (cur :: parents) name)
  /\ (forall loc varName varType iterable body,
        lookup (scopes (resolveStmt
                          (ForStmt loc varName varType iterable body) r))
          name
        = lookup (cur :: parents) name)
  /\ (forall fd,
        lookup (scopes (resolveFunc fd r)) name
        = lookup (cur :: parents) name)
  /\ (forall s,
        tail (scopes (resolveStmt s r)) = parents
        /\ (is_Some (lookup (cur :: parents) name) ->
            is_Some (lookup (scopes (resolveStmt s r)) name))).
Proof.
  cbn zeta. repeat apply conj.
  - intros e. apply KeepsSymbols_lookup, resolveExpr_keeps_symbols.
  - intros loc statements. cbn [resolveStmt].
    apply (KeepsSymbols_lookup
             (fun r => exitScope
                         (fold_left (fun r s' => resolveStmt s' r) statements
                            (enterScope "block" r)))).
    apply (KeepsSymbols_scoped "block"
             (fold_left (fun r s' => resolveStmt s' r) statements)).
    apply resolveStmts_grow_head.
  - intros loc varName varType iterable body. cbn [resolveStmt].
    apply (KeepsSymbols_lookup
             (fun r =>
                exitScope
                  (resolveStmt body
                     (declare varName
                        (symbolOf SymbolKind.Variable_ varName loc Public
                           false)
                        (enterScope "for" (resolveExpr iterable r)))))).
    apply (KeepsSymbols_compose (resolveExpr iterable)
             (fun r =>
                exitScope
                  (resolveStmt body
                     (declare varName
                        (symbolOf SymbolKind.Variable_ varName loc Public
                           false)
                        (enterScope "for" r))))).
    + apply resolveExpr_keeps_symbols.
    + apply (KeepsSymbols_scoped "for"
               (fun r => resolveStmt body
                           (declare varName
                              (symbolOf SymbolKind.Variable_ varName loc
                                 Public false) r))).
      apply (GrowsHead_compose _ (resolveStmt body)).
      * apply GrowsHead_declare.
      * apply resolveStmt_grows_head.
  - intros fd. apply KeepsSymbols_lookup, resolveFunc_keeps_symbols.
  - intros s. split.
    + destruct (resolveStmt_grows_head s cur parents d) as (c1 & -> & _).
      reflexivity.
    + intros H. apply GrowsHead_lookup; [apply resolveStmt_grows_head | exact H].
Qed.

Lemma registerDecl_declares decl name cur ps d :
  declaredName decl = Some name ->
  is_Some (lookup
             (scopes (registerDecl decl {| scopes := cur :: ps; rdiag := d |}))
             name).
Proof.
  destruct cur as [n syms ch].
  assert (H : forall sym loc msg,
            is_Some (lookup
                       (scopes (declareOrError name sym loc msg
                                  {| scopes := mkScope n syms ch :: ps;
                                     rdiag := d |})) name)).
  { intros sym loc msg. unfold declareOrError, insert. cbn [scopes].
    destruct (syms !! name) eqn:Hs; cbn.
    - rewrite Hs. eauto.
    - rewrite lookup_insert_eq. eauto. }
  destruct decl; cbn [declaredName]; intros [= <-]; apply H.
Qed.

Lemma registered_names_are_bound (decls : list Decl) :
  forall cur ps d decl name,
    In decl decls -> declaredName decl = Some name ->
    is_Some (lookup
               (scopes (fold_left (fun r decl => registerDecl decl r) decls
                          {| scopes := cur :: ps; rdiag := d |})) name).
Proof.
  induction decls as [| x decls IH]; intros cur ps d decl name Hin Hn;
    [destruct Hin |].
  cbn [fold_left].
  pose proof (registerDecl_declares x name cur ps d) as Hx.
  destruct (registerDecl_grows_head x cur ps d) as (c1 & Hs & _).
  destruct (registerDecl x {| scopes := cur :: ps; rdiag := d |})
    as [sc1 d1].
  cbn [scopes] in *. subst sc1. destruct Hin as [<- | Hin].
  - apply GrowsHead_lookup; [apply registerDecls_grow_head | auto].
  - eapply IH; eassumption.
Qed.

(** X16: the first pass of the resolver binds the name of every function,
    struct, class, enum, trait and type alias of the module, and the names
    stay bound while the second pass resolves the declarations one after
    the other; so a declaration can refer to one that comes later in the
    module. *)
Theorem declared_names_are_bound_throughout (module : Module_)
    (cur : Scope) (parents : ScopeChain) (d : DiagnosticEngine) (k : nat) :
  let r := {| scopes := cur :: parents; rdiag := d |} in
  resolve module r
  = fold_left (fun r decl => resolveDecl decl r) (declarations module)
      (registerAll module r)
  /\ Forall
       (fun decl =>
          forall name,
            declaredName decl = Some name ->
            is_Some
              (lookup
                 (scopes
                    (fold_left (fun r decl => resolveDecl decl r)
                       (take k (declarations module))
                       (registerAll module r)))
                 name))
       (declarations module).
Proof.
  cbn zeta. split; [reflexivity |].
  apply Forall_forall. intros decl Hin name Hn.
  apply list_elem_of_In in Hin.
  pose proof (registered_names_are_bound (declarations module) cur parents d
                decl name Hin Hn) as Hreg.
  unfold registerAll.
  destruct (registerDecls_grow_head (declarations module) cur parents d)
    as (c1 & Hs & _).
  destruct (fold_left (fun r decl => registerDecl decl r)
              (declarations module)
              {| scopes := cur :: parents; rdiag := d |}) as [sc1 d1].
  cbn [scopes] in *. subst sc1.
  apply GrowsHead_lookup; [apply resolveDecls_grow_head | exact Hreg].
Qed.

(** ** The known types of the type checker *)

Lemma checkExpr_same_types e t :
  scope_ (snd (checkExpr e t)) = scope_ t
  /\ knownTypes_ (snd (checkExpr e t)) = knownTypes_ t
  /\ currentReturnType_ (snd (checkExpr e t)) = currentReturnType_ t.
Proof.
  destruct t as [d sc k c]. rewrite (checkExpr_blind e sc k c d).
  repeat split.
Qed.

Lemma SameTypes_id : SameTypes (fun t => t).
Proof. intros t. split; reflexivity. Qed.

Lemma SameTypes_compose f g :
  SameTypes f -> SameTypes g -> SameTypes (fun t => g (f t)).
Proof.
  intros Hf Hg t. destruct (Hf t) as [H1 H2].
  destruct (Hg (f t)) as [H3 H4]. split; congruence.
Qed.

Lemma SameTypes_fold {A : Type} (F : TypeChecker -> A -> TypeChecker)
    (l : list A) :
  list_all A (fun x => SameTypes (fun t => F t x)) l ->
  SameTypes (fold_left F l).
Proof.
  induction 1 as [| x Hx l Hl IH].
  - apply SameTypes_id.
  - apply (SameTypes_compose (fun t => F t x) (fold_left F l)); assumption.
Qed.

Ltac st_name lemma call :=
  generalize lemma; generalize call;
  let r := fresh "t" in intros r.

Ltac st_step :=
  match goal with
  | |- context [checkExpr ?e ?t0] =>
      generalize (checkExpr_same_types e t0);
      destruct (checkExpr e t0) as [? ?]; cbn [fst snd]
  | H : SameTypes (checkStmt ?s) |- context [checkStmt ?s ?t0] =>
      st_name (H t0) (checkStmt s t0)
  | H : SameTypes (fold_left ?F ?l) |- context [fold_left ?F ?l ?t0] =>
      st_name (H t0) (fold_left F l t0)
  | |- context [if ?c then _ else _] => destruct c
  | |- context [match ?x with _ => _ end] => destruct x
  end.

Ltac st_finish :=
  unfold tError, setCurrentReturnType; cbn [scope_ knownTypes_ fst snd];
  intros; destruct_and?; split; congruence.

Lemma checkStmt_same_types : forall s, SameTypes (checkStmt s).
Proof.
  apply (Stmt_mind (fun _ => True) (fun _ => True) (fun _ => True)
           (fun _ => True) (fun s => SameTypes (checkStmt s)));
    intros; try exact I; try apply SameTypes_id.
  all: repeat match goal with
         | X : list_all Stmt _ _ |- _ =>
             apply (SameTypes_fold (fun t a => checkStmt a t)) in X
         | X : option_all _ _ _ |- _ => destruct X
         end.
  all: intros t0; cbn [checkStmt]; unfold checkCondition.
  all: repeat st_step; st_finish.
Qed.

Lemma checkFuncDecl_same_types decl : SameTypes (checkFuncDecl decl).
Proof.
  intros t0. unfold checkFuncDecl.
  assert (Hbody : SameTypes
            (fun t => match fd_body decl with
                      | Some statements =>
                          fold_left (fun t s => checkStmt s t) statements t
                      | None => t
                      end)).
  { destruct (fd_body decl); [| apply SameTypes_id].
    apply SameTypes_fold, list_all_of_forall. intros s.
    apply checkStmt_same_types. }
  match goal with
  | |- context [fold_left ?F (fd_params decl) ?t1] =>
      assert (Hparams : SameTypes (fold_left F (fd_params decl)));
      [ apply SameTypes_fold, list_all_of_forall; intros p t;
        destruct (fp_type p); [destruct (negb _) |]; split; reflexivity
      | generalize (Hparams t1); generalize (fold_left F (fd_params decl) t1) ]
  end.
  intros t2 [H1 H2]. destruct (Hbody t2) as [H3 H4].
  cbn [setCurrentReturnType scope_ knownTypes_].
  revert H1 H2.
  destruct (fd_returnType decl); [destruct (negb _) |];
    cbn [tError setCurrentReturnType scope_ knownTypes_];
    intros; split; congruence.
Qed.

Lemma checkDecl_same_types decl : SameTypes (checkDecl decl).
Proof.
  assert (Hfuncs : forall methods,
            SameTypes (fold_left (fun t m => checkFuncDecl m t) methods)).
  { intros methods. apply SameTypes_fold, list_all_of_forall. intros m.
    apply checkFuncDecl_same_types. }
  assert (Hfields : forall loc what owner fields,
            SameTypes (checkFields loc what owner fields)).
  { intros loc what owner fields. unfold checkFields.
    apply SameTypes_fold, list_all_of_forall. intros f t.
    destruct (fld_type f); [destruct (negb _) |]; split; reflexivity. }
  destruct decl; try apply SameTypes_id; cbn [checkDecl].
  - apply checkFuncDecl_same_types.
  - apply Hfields.
  - apply (SameTypes_compose (checkFields loc "class" name fields)
             (fold_left (fun t m => checkFuncDecl m t) methods)); auto.
  - unfold checkEnumDecl.
    apply SameTypes_fold, list_all_of_forall. intros v. cbv beta zeta.
    match goal with
    | |- SameTypes (fun t => fold_left ?G (ev_structFields v)
                              (fold_left ?F (ev_tupleFields v) t)) =>
        apply (SameTypes_compose (fold_left F (ev_tupleFields v))
                 (fold_left G (ev_structFields v)))
    end.
    + apply SameTypes_fold, list_all_of_forall. intros [ty |] t;
        [destruct (negb _) |]; split; reflexivity.
    + apply SameTypes_fold, list_all_of_forall. intros f t.
      destruct (fld_type f); [destruct (negb _) |]; split; reflexivity.
  - apply Hfuncs.
  - apply Hfuncs.
Qed.

(** X17: the type checker takes a name for a type exactly when it is one of
    the 25 built-in names or the global scope binds it to a struct, class,
    enum, trait or type alias; checking the module, whatever it reports,
    neither adds to these names nor takes one away. *)
Theorem known_types_are_builtin_or_declared (module : Module_)
    (diag : DiagnosticEngine) (scope : Scope) (typeName : string) :
  let t := check module (newTypeChecker diag scope) in
  knownTypes_ t = list_to_set builtinTypes ∪ userTypes scope
  /\ scope_ t = scope
  /\ (isValidType t typeName = true
      <-> In typeName builtinTypes
          \/ exists sym, symbols scope !! typeName = Some sym
                         /\ namesType sym = true).
Proof.
  unfold check.
  assert (H : SameTypes
            (fold_left (fun t decl => checkDecl decl t)
               (declarations module))).
  { apply SameTypes_fold, list_all_of_forall. intros decl.
    apply checkDecl_same_types. }
  cbv zeta.
  match goal with
  | |- context [fold_left _ _ ?t1] => destruct (H t1) as [Hs Hk]
  end.
  unfold isValidType. rewrite Hk, Hs.
  cbn [setKnownTypes scope_ knownTypes_ newTypeChecker].
  fold (userTypes scope).
  split; [reflexivity |]. split; [reflexivity |].
  rewrite bool_decide_eq_true.
  rewrite elem_of_union, elem_of_list_to_set, list_elem_of_In.
  unfold userTypes. rewrite elem_of_dom. unfold is_Some.
  setoid_rewrite map_lookup_filter_Some. cbn [snd]. split.
  - intros [Hb | [sym [H1 H2]]]; [now left | right; eauto].
  - intros [Hb | [sym [H1 H2]]]; [now left | right; eauto].
Qed.

(** ** Invariants of the open scopes *)

Section ResolverInvariant.

Variable I : ScopeChain -> Prop.
Hypothesis I_enter : forall n sc, I sc -> I (mkScope n ∅ [] :: sc).
Hypothesis I_exit : forall sc d,
  I sc -> I (scopes (exitScope {| scopes := sc; rdiag := d |})).
Hypothesis I_insert : forall key k name loc vis m sc,
  I sc -> I (snd (insert key (symbolOf k name loc vis m) sc)).

Lemma Keeps_id : Keeps I (fun r => r).
Proof. intros sc d H. exact H. Qed.

Lemma Keeps_compose f g :
  Keeps I f -> Keeps I g -> Keeps I (fun r => g (f r)).
Proof.
  intros Hf Hg sc d H. specialize (Hf sc d H).
  destruct (f {| scopes := sc; rdiag := d |}) as [sc1 d1].
  apply Hg. exact Hf.
Qed.

Lemma Keeps_fold {A : Type} (F : Resolver -> A -> Resolver) (l : list A) :
  list_all A (fun x => Keeps I (fun r => F r x)) l ->
  Keeps I (fold_left F l).
Proof.
  induction 1 as [| x Hx l Hl IH].
  - apply Keeps_id.
  - apply (Keeps_compose (fun r => F r x) (fold_left F l)); assumption.
Qed.

Lemma Keeps_enterScope n : Keeps I (enterScope n).
Proof. intros sc d H. apply I_enter, H. Qed.

Lemma Keeps_exitScope : Keeps I exitScope.
Proof. intros sc d H. apply I_exit, H. Qed.

Lemma Keeps_declare key k name loc vis m :
  Keeps I (declare key (symbolOf k name loc vis m)).
Proof. intros sc d H. unfold declare. cbn. apply I_insert, H. Qed.

Lemma Keeps_declareOrError key k name loc vis m l msg :
  Keeps I (declareOrError key (symbolOf k name loc vis m) l msg).
Proof.
  intros sc d H. unfold declareOrError. cbn [scopes].
  pose proof (I_insert key k name loc vis m sc H) as Hi.
  destruct (insert key (symbolOf k name loc vis m) sc) as [[|] sc1] eqn:He;
    cbn in *; [exact Hi |].
  exact H.
Qed.

Lemma Keeps_closureParams params :
  Keeps I (fold_left declareClosureParam params).
Proof.
  apply Keeps_fold, list_all_of_forall. intros p. apply Keeps_declare.
Qed.

Ltac inv_hyps :=
  repeat match goal with
  | X : list_all Expr _ _ |- _ =>
      apply (Keeps_fold (fun r a => resolveExpr a r)) in X
  | X : list_all Stmt _ _ |- _ =>
      apply (Keeps_fold (fun r a => resolveStmt a r)) in X
  | X : list_all MatchArm _ _ |- _ =>
      apply (Keeps_fold
               (fun r arm =>
                  match arm with
                  | mkMatchArm _ _ body _ =>
                      exitScope (resolveExpr body (enterScope "match_arm" r))
                  end)) in X
  | X : list_all FieldInit _ _ |- _ =>
      apply (Keeps_fold
               (fun r fi => match fi with
                            | mkFieldInit _ value _ => resolveExpr value r
                            end)) in X
  | X : option_all _ _ _ |- _ => destruct X
  end.

Ltac inv_use H f s d :=
  match goal with
  | Hs : I s |- _ =>
      let sc1 := fresh "sc" in
      let d1 := fresh "d" in
      let H1 := fresh "H" in
      generalize (H s d Hs);
      destruct (f {| scopes := s; rdiag := d |}) as [sc1 d1];
      cbn [scopes]; intros H1
  end.

Ltac inv_step :=
  match goal with
  | H : Keeps I ?f |- context [?f {| scopes := ?s; rdiag := ?d |}] =>
      inv_use H f s d
  | |- context [enterScope ?n {| scopes := ?s; rdiag := ?d |}] =>
      inv_use (Keeps_enterScope n) (enterScope n) s d
  | |- context [exitScope {| scopes := ?s; rdiag := ?d |}] =>
      inv_use Keeps_exitScope exitScope s d
  | |- context [declare ?key (symbolOf ?k ?nm ?l ?v ?m)
                  {| scopes := ?s; rdiag := ?d |}] =>
      inv_use (Keeps_declare key k nm l v m)
        (declare key (symbolOf k nm l v m)) s d
  | |- context [declareOrError ?key (symbolOf ?k ?nm ?l ?v ?m) ?l' ?msg
                  {| scopes := ?s; rdiag := ?d |}] =>
      inv_use (Keeps_declareOrError key k nm l v m l' msg)
        (declareOrError key (symbolOf k nm l v m) l' msg) s d
  | |- context [fold_left declareClosureParam ?p
                  {| scopes := ?s; rdiag := ?d |}] =>
      inv_use (Keeps_closureParams p) (fold_left declareClosureParam p) s d
  | |- context [match lookup ?c ?n with _ => _ end] =>
      destruct (lookup c n)
  end.

Ltac inv_end := cbn [rError scopes]; assumption.

Ltac inv_run :=
  let sc := fresh "sc" in
  let d := fresh "d" in
  let H := fresh "H" in
  intros sc d H; cbv beta zeta;
  repeat inv_step; inv_end.

Lemma resolve_AST_keeps :
  (forall e, Keeps I (resolveExpr e))
  /\ (forall arm, Keeps I
        (fun r => match arm with
                  | mkMatchArm _ _ body _ =>
                      exitScope (resolveExpr body (enterScope "match_arm" r))
                  end))
  /\ (forall fi, Keeps I
        (fun r => match fi with
                  | mkFieldInit _ value _ => resolveExpr value r
                  end))
  /\ (forall p : Pattern, True)
  /\ (forall s, Keeps I (resolveStmt s)).
Proof.
  apply AST_mutind; intros; try exact Logic.I; inv_hyps.
  all: let sc := fresh "sc" in
       let d := fresh "d" in
       let H := fresh "H" in
       intros sc d H; cbn [resolveExpr resolveStmt].
  all: repeat inv_step; inv_end.
Qed.

Lemma registerDecl_keeps decl : Keeps I (registerDecl decl).
Proof.
  destruct decl; try apply Keeps_id; apply Keeps_declareOrError.
Qed.

Lemma resolveFunc_keeps decl : Keeps I (resolveFunc decl).
Proof.
  assert (Hg : Keeps I (fold_left (declareGenericParam (fd_location decl))
                          (fd_genericParams decl))).
  { apply Keeps_fold, list_all_of_forall. intros gp. apply Keeps_declare. }
  assert (Hp : Keeps I
            (fold_left
               (fun r param =>
                  declare (fp_name param)
                    (symbolOf SymbolKind.Variable_ (fp_name param)
                       (fd_location decl) Public false) r)
               (fd_params decl))).
  { apply Keeps_fold, list_all_of_forall. intros p. apply Keeps_declare. }
  unfold resolveFunc. cbv zeta.
  destruct (fd_body decl) as [body |].
  - assert (Hb : Keeps I (fold_left (fun r s => resolveStmt s r) body)).
    { apply Keeps_fold, list_all_of_forall. intros s.
      apply resolve_AST_keeps. }
    inv_run.
  - inv_run.
Qed.

Lemma resolveDecl_keeps decl : Keeps I (resolveDecl decl).
Proof.
  assert (Hg : forall loc gps,
            Keeps I (fold_left (declareGenericParam loc) gps)).
  { intros loc gps. apply Keeps_fold, list_all_of_forall. intros gp.
    apply Keeps_declare. }
  assert (Hf : forall methods,
            Keeps I (fold_left (fun r m => resolveFunc m r) methods)).
  { intros methods. apply Keeps_fold, list_all_of_forall. intros m.
    apply resolveFunc_keeps. }
  destruct decl; try apply Keeps_id; intros sc d HI; cbn [resolveDecl].
  - apply resolveFunc_keeps, HI.
  - pose proof (Hg loc genericParams). unfold resolveStruct.
    cbv beta zeta. repeat inv_step. inv_end.
  - pose proof (Hg loc genericParams). pose proof (Hf methods).
    unfold resolveClass. cbv beta zeta. repeat inv_step. inv_end.
  - unfold resolveEnum.
    apply (Keeps_fold _ variants); [| exact HI].
    apply list_all_of_forall. intros v. apply Keeps_declare.
  - assert (Keeps I
              (fold_left (fun r m => registerDecl (FuncDeclD m) r) methods)).
    { apply Keeps_fold, list_all_of_forall. intros m.
      apply (registerDecl_keeps (FuncDeclD m)). }
    unfold resolveTrait. cbv beta zeta. repeat inv_step. inv_end.
  - pose proof (Hf methods). unfold resolveImpl.
    cbv beta zeta. repeat inv_step. inv_end.
Qed.

Lemma resolve_keeps module : Keeps I (resolve module).
Proof.
  unfold resolve.
  apply (Keeps_compose
           (fold_left (fun r decl => registerDecl decl r)
              (declarations module))
           (fold_left (fun r decl => resolveDecl decl r)
              (declarations module))).
  - apply Keeps_fold, list_all_of_forall. intros decl.
    apply registerDecl_keeps.
  - apply Keeps_fold, list_all_of_forall. intros decl.
    apply resolveDecl_keeps.
Qed.

End ResolverInvariant.

Lemma Untyped_enter n sc : Untyped sc -> Untyped (mkScope n ∅ [] :: sc).
Proof.
  intros H. constructor; [| exact H]. cbn [symbols].
  apply map_Forall_empty.
Qed.

Lemma Untyped_exit sc d :
  Untyped sc -> Untyped (scopes (exitScope {| scopes := sc; rdiag := d |})).
Proof.
  intros H. unfold exitScope. cbn [scopes].
  destruct sc as [| child [| [n syms ch] ancestors]]; cbn [scopes withScopes];
    try exact H.
  inversion H as [| ? ? _ H1]; subst.
  inversion H1 as [| ? ? Hp Ha]; subst.
  constructor; [exact Hp | exact Ha].
Qed.

Lemma Untyped_insert key k name loc vis m sc :
  Untyped sc -> Untyped (snd (insert key (symbolOf k name loc vis m) sc)).
Proof.
  intros H. unfold insert.
  destruct sc as [| [n syms ch] parents]; cbn [snd]; [exact H |].
  destruct (syms !! key) eqn:Hk; cbn [snd]; [exact H |].
  inversion H as [| ? ? Hs Hp]; subst.
  constructor; [| exact Hp]. cbn [symbols] in *.
  apply map_Forall_insert_2; [reflexivity | exact Hs].
Qed.

Lemma resolve_keeps_untyped module d :
  Untyped (scopes (resolve module (newResolver d (mkScope "global" ∅ [])))).
Proof.
  apply (resolve_keeps Untyped Untyped_enter Untyped_exit Untyped_insert).
  constructor; [| constructor]. apply map_Forall_empty.
Qed.

Lemma Untyped_last sc name sym :
  Untyped sc ->
  symbols (List.last sc (mkScope "global" ∅ [])) !! name = Some sym ->
  sym_typeName sym = "".
Proof.
  induction 1 as [| s rest Hs Hrest IH].
  - cbn. rewrite lookup_empty. discriminate.
  - destruct rest as [| s' rest'].
    + cbn [List.last]. intros Hl. exact (Hs name sym Hl).
    + exact IH.
Qed.

(** X18: the symbols the resolver declares never carry a type name.  After
    name resolution of any module from the empty global scope, the type
    checker finds the empty (unknown) type for every identifier expression,
    whatever the name, and leaves its state as it is. *)
Theorem identifiers_are_untyped_after_resolution :
  forall module d loc name d' k c,
    let scope :=
      rootScope (resolve module (newResolver d (mkScope "global" ∅ []))) in
    let t := {| tdiag := d'; scope_ := scope; knownTypes_ := k;
                currentReturnType_ := c |} in
    checkExpr (IdentExpr loc name) t = ("", t).
Proof.
  intros module d loc name d' k c scope t.
  cbn [checkExpr]. f_equal.
  unfold checkIdentExpr. cbn [lookup scope_ t].
  destruct (symbols scope !! name) as [sym |] eqn:Hl; [| reflexivity].
  unfold scope, rootScope in Hl.
  rewrite (Untyped_last _ name sym (resolve_keeps_untyped module d) Hl).
  reflexivity.
Qed.

(** ** The lexer comes to an end *)

Lemma Ends_bind {A B} (b : bool) (m : M A) (k : A -> M B) L d
    (Q : B -> Lexer -> Prop) :
  Ends b (m L d) (fun a L1 => forall d1, Ends b (k a L1 d1) Q) ->
  Ends b ((m ≫= k) L d) Q.
Proof.
  unfold mbind, M_bind, Ends.
  destruct (m L d) as [[[a | e |] L1] d1]; auto.
  intros H. apply H.
Qed.

Lemma Ends_mono {A} {b : bool} (r : Outcome A * Lexer * DiagnosticEngine)
    (Q Q' : A -> Lexer -> Prop) :
  (forall a L, Q a L -> Q' a L) -> Ends b r Q -> Ends b r Q'.
Proof. unfold Ends. destruct r as [[[a | e |] L1] d1]; auto. Qed.

Lemma sourceSize_eq (L L' : Lexer) :
  source_ L' = source_ L -> sourceSize L' = sourceSize L.
Proof. unfold sourceSize. now intros ->. Qed.

Lemma Forward_refl (L : Lexer) : Good L -> Forward 0 L L.
Proof. intros (_ & H & _). unfold Forward. repeat split; lia. Qed.

Lemma isAtEnd_false (L : Lexer) :
  isAtEnd L = false <-> current_ L < sourceSize L.
Proof. unfold isAtEnd. apply N.leb_gt. Qed.

Lemma isAtEnd_true (L : Lexer) :
  isAtEnd L = true <-> sourceSize L <= current_ L.
Proof. unfold isAtEnd. apply N.leb_le. Qed.

Lemma peek_is (L : Lexer) (c : ascii) :
  Ascii.eqb (peek L) c = true -> c <> NUL -> current_ L < sourceSize L.
Proof.
  unfold peek. destruct (isAtEnd L) eqn:He.
  - intros H Hc. apply Ascii.eqb_eq in H. congruence.
  - intros _ _. now apply isAtEnd_false.
Qed.

Lemma peekNext_is (L : Lexer) (c : ascii) :
  Good L -> current_ L < sourceSize L ->
  Ascii.eqb (peekNext L) c = true -> c <> NUL ->
  current_ L + 1 < sourceSize L.
Proof.
  intros (Hm & Hb & _) Hlt. unfold peekNext.
  rewrite inc32_small by lia.
  destruct (sourceSize L <=? current_ L + 1) eqn:He.
  - intros H Hc. apply Ascii.eqb_eq in H. congruence.
  - intros _ _. now apply N.leb_gt in He.
Qed.

(** One [advance] from a character of the source. *)
Lemma advanceL_step (L : Lexer) :
  Good L -> current_ L < sourceSize L ->
  source_ (snd (advanceL L)) = source_ L
  /\ hasPeeked_ (snd (advanceL L)) = hasPeeked_ L
  /\ tokenStart_ (snd (advanceL L)) = tokenStart_ L
  /\ current_ (snd (advanceL L)) = current_ L + 1
  /\ fst (advanceL L) = charAt (source_ L) (current_ L).
Proof.
  intros (Hm & Hb & _) Hlt. rewrite <- (inc32_small (current_ L)) by lia.
  unfold advanceL. destruct (Ascii.eqb _ LF); repeat split.
Qed.

Lemma advanceL_Forward (L : Lexer) :
  Good L -> current_ L < sourceSize L -> Forward 1 L (snd (advanceL L)).
Proof.
  intros HG Hlt.
  destruct (advanceL_step L HG Hlt) as (Hs & Hp & Ht & Hc & _).
  unfold Forward. repeat split; auto; lia.
Qed.

Lemma advance_Ends (b : bool) (L : Lexer) d :
  Good L -> current_ L < sourceSize L ->
  Ends b (advance L d) (fun c L' =>
    Forward 1 L L' /\ current_ L' = current_ L + 1
    /\ c = charAt (source_ L) (current_ L)).
Proof.
  intros HG Hlt. unfold advance.
  pose proof (advanceL_Forward L HG Hlt) as HF.
  destruct (advanceL_step L HG Hlt) as (_ & _ & _ & Hc & Hch).
  destruct (advanceL L) as [c L']. cbn in *. auto.
Qed.

Lemma dec32_succ (n : N) : n + 1 < UINT32_MOD -> dec32 (n + 1) = n.
Proof.
  intros H. unfold dec32, wrap32.
  replace (n + 1 + (UINT32_MOD - 1)) with (n + 1 * UINT32_MOD)
    by (unfold UINT32_MOD in *; lia).
  rewrite N.Div0.mod_add. apply N.mod_small. lia.
Qed.

Ltac open_facts :=
  repeat match goal with
  | H : Good _ |- _ => destruct H as (? & ? & ?)
  | H : Forward _ _ _ |- _ => destruct H as (? & ? & ? & ? & ?)
  | H : _ /\ _ |- _ => destruct H
  | H : isAtEnd _ = false |- _ => apply isAtEnd_false in H
  | H : isAtEnd _ = true |- _ => apply isAtEnd_true in H
  end;
  repeat match goal with
  | H : source_ ?L' = source_ ?L |- _ =>
      lazymatch goal with
      | _ : sourceSize L' = sourceSize L |- _ => fail
      | _ => pose proof (sourceSize_eq _ _ H)
      end
  end.

Ltac solve_facts :=
  open_facts; unfold Good, Forward;
  repeat match goal with |- _ /\ _ => split end;
  first [ congruence | lia ].

(** The call at the head of a sequence, by what is known of it. *)
Ltac call_head lemma :=
  apply Ends_bind; eapply Ends_mono; [| apply lemma];
  [ cbv beta; intros ? ? ? ? | .. ].

(** The call a sequence ends with. *)
Ltac call_tail lemma :=
  eapply Ends_mono; [| apply lemma]; [ cbv beta; intros ? ? ? | .. ].

(** The same, with the result and the state after the call named. *)
Ltac call_to lemma a L H d :=
  apply Ends_bind; eapply Ends_mono; [| apply lemma];
  [ cbv beta; intros a L H d | .. ].

Ltac tail_to lemma a L H :=
  eapply Ends_mono; [| apply lemma]; [ cbv beta; intros a L H | .. ].

(** A sequence of its own at the head of a sequence. *)
Ltac block_to Q a L H d :=
  apply Ends_bind; apply (Ends_mono _ Q); [ intros a L H d |].

(** The end of a sequence that has no call left. *)
Ltac ends_run := cbv [mbind M_bind mret M_ret gets modify diagError Ends].

(** A plain assignment to members of the lexer. *)
Ltac assigned f L :=
  let L1 := fresh "L" in
  let Hs := fresh "Hs" in
  let Hp := fresh "Hp" in
  let Hc := fresh "Hc" in
  let Ht := fresh "Ht" in
  let v := eval cbn [current_ set_current set_line set_column
                     markTokenStart] in (current_ (f L)) in
  let w := eval cbn [tokenStart_ set_current set_line set_column
                     markTokenStart] in (tokenStart_ (f L)) in
  assert (Hs : source_ (f L) = source_ L) by reflexivity;
  assert (Hp : hasPeeked_ (f L) = hasPeeked_ L) by reflexivity;
  assert (Hc : current_ (f L) = v) by reflexivity;
  assert (Ht : tokenStart_ (f L) = w) by reflexivity;
  set (L1 := f L) in *; clearbody L1.

Ltac assign :=
  match goal with
  | |- Ends _ ((modify ?f ≫= _) ?L _) _ =>
      rewrite bind_modify; assigned f L
  end.

Ltac assign_to L1 Hs Hp Hc :=
  match goal with
  | |- Ends _ ((modify ?f ≫= _) ?L _) _ =>
      rewrite bind_modify;
      let Ht := fresh "Ht" in
      let v := eval cbn [current_ set_current set_line set_column
                         markTokenStart] in (current_ (f L)) in
      let w := eval cbn [tokenStart_ set_current set_line set_column
                         markTokenStart] in (tokenStart_ (f L)) in
      assert (Hs : source_ (f L) = source_ L) by reflexivity;
      assert (Hp : hasPeeked_ (f L) = hasPeeked_ L) by reflexivity;
      assert (Hc : current_ (f L) = v) by reflexivity;
      assert (Ht : tokenStart_ (f L) = w) by reflexivity;
      set (L1 := f L) in *; clearbody L1
  end.

Lemma advanceWhile_Ends (b : bool) (fuel : nat) (p : ascii -> bool) :
  forall L d,
    Good L -> sourceSize L < current_ L + N.of_nat fuel ->
    Ends b (advanceWhile fuel p L d) (fun _ L' =>
      Forward 0 L L'
      /\ (current_ L < sourceSize L -> p (peek L) = true ->
          current_ L + 1 <= current_ L')).
Proof.
  induction fuel as [| fuel IH]; intros L d HG Hf.
  - destruct HG as (? & ? & ?). lia.
  - cbn [advanceWhile]. rewrite !bind_gets.
    destruct (isAtEnd L) eqn:He; cbn [negb andb].
    + split; [now apply Forward_refl |]. intros. solve_facts.
    + destruct (p (peek L)) eqn:Hp.
      * call_head advance_Ends; [| exact HG | solve_facts].
        call_tail IH; [| solve_facts | solve_facts].
        split; [| intros _ _]; solve_facts.
      * split; [now apply Forward_refl |]. intros. congruence.
Qed.

Lemma matchChar_Ends (b : bool) (expected : ascii) L d :
  Good L -> Ends b (matchChar expected L d) (fun _ L' => Forward 0 L L').
Proof.
  intros HG. unfold matchChar. rewrite !bind_gets.
  destruct (isAtEnd L) eqn:He; cbn [orb].
  - now apply Forward_refl.
  - destruct (negb _).
    + now apply Forward_refl.
    + call_head advance_Ends; [| exact HG | solve_facts].
      ends_run. solve_facts.
Qed.

(** Building a token leaves the lexer where it is. *)
Lemma substr_Ends (b : bool) (s : string) (pos n : N) L d :
  pos <= N.of_nat (String.length s) ->
  Ends b (substr s pos n L d) (fun _ L' => L' = L).
Proof.
  intros H. unfold substr. destruct (_ <? _) eqn:Hlt; [| reflexivity].
  apply N.ltb_lt in Hlt. lia.
Qed.

Lemma lexeme_Ends (b : bool) L d :
  Good L -> Ends b (lexeme L d) (fun _ L' => L' = L).
Proof.
  intros (_ & _ & H). unfold lexeme, getLexer. rewrite bind_gets.
  now apply substr_Ends.
Qed.

Lemma makeToken_Ends (b : bool) (k : TokenKind) L d :
  Good L -> Ends b (makeToken k L d) (fun _ L' => L' = L).
Proof.
  intros HG. unfold makeToken.
  call_to lexeme_Ends txt L1 H1 d1; [| exact HG]. subst L1.
  unfold makeTokenText. rewrite bind_gets. reflexivity.
Qed.

Lemma errorToken_Ends (b : bool) (msg : string) L d :
  Good L -> Ends b (errorToken msg L d) (fun _ L' => L' = L).
Proof.
  intros HG. unfold errorToken. rewrite bind_gets.
  apply Ends_bind. unfold diagError. cbn [Ends]. intros d1.
  call_to lexeme_Ends txt L1 H1 d2; [| exact HG]. subst L1. reflexivity.
Qed.

Lemma stoll_Ends (s : string) (base : N) L d :
  Ends true (stoll s base L d) (fun _ L' => L' = L).
Proof.
  unfold stoll. destruct (parseDigits base s None); [| reflexivity].
  destruct (_ <? _); reflexivity.
Qed.

Lemma skipLineComment_Ends (b : bool) (fuel : nat) L d :
  Good L -> current_ L + 2 <= sourceSize L ->
  sourceSize L < current_ L + 2 + N.of_nat fuel ->
  Ends b (skipLineComment fuel L d) (fun _ L' => Forward 2 L L').
Proof.
  intros HG Hlt Hf. unfold skipLineComment.
  call_head advance_Ends; [| exact HG | lia].
  call_head advance_Ends; [| solve_facts | solve_facts].
  call_tail advanceWhile_Ends; [| solve_facts | solve_facts].
  solve_facts.
Qed.

Lemma skipBlockCommentLoop_Ends (b : bool) (fuel : nat) :
  forall depth L d,
    Good L -> sourceSize L < current_ L + N.of_nat fuel ->
    Ends b (skipBlockCommentLoop fuel depth L d) (fun _ L' => Forward 0 L L').
Proof.
  induction fuel as [| fuel IH]; intros depth L d HG Hf.
  - destruct HG as (? & ? & ?). lia.
  - cbn [skipBlockCommentLoop]. rewrite !bind_gets.
    destruct (isAtEnd L) eqn:He; cbn [negb andb];
      [now apply Forward_refl |].
    destruct (0 <? depth); [| now apply Forward_refl].
    rewrite !bind_gets.
    assert (Hlt : current_ L < sourceSize L) by now apply isAtEnd_false.
    destruct (Ascii.eqb (peek L) "/" && Ascii.eqb (peekNext L) "*") eqn:Ho;
      [| destruct (Ascii.eqb (peek L) "*" && Ascii.eqb (peekNext L) "/")
           eqn:Hc].
    + apply andb_true_iff in Ho. destruct Ho as [_ Hn].
      apply (peekNext_is L _ HG Hlt) in Hn; [| discriminate].
      call_head advance_Ends; [| exact HG | lia].
      call_head advance_Ends; [| solve_facts | solve_facts].
      call_tail IH; [| solve_facts | solve_facts].
      solve_facts.
    + apply andb_true_iff in Hc. destruct Hc as [_ Hn].
      apply (peekNext_is L _ HG Hlt) in Hn; [| discriminate].
      call_head advance_Ends; [| exact HG | lia].
      call_head advance_Ends; [| solve_facts | solve_facts].
      call_tail IH; [| solve_facts | solve_facts].
      solve_facts.
    + call_head advance_Ends; [| exact HG | lia].
      call_tail IH; [| solve_facts | solve_facts].
      solve_facts.
Qed.

Lemma skipBlockComment_Ends (b : bool) (fuel : nat) L d :
  Good L -> current_ L + 2 <= sourceSize L ->
  sourceSize L < current_ L + 2 + N.of_nat fuel ->
  Ends b (skipBlockComment fuel L d) (fun _ L' => Forward 2 L L').
Proof.
  intros HG Hlt Hf. unfold skipBlockComment.
  call_head advance_Ends; [| exact HG | lia].
  call_head advance_Ends; [| solve_facts | solve_facts].
  call_head skipBlockCommentLoop_Ends; [| solve_facts | solve_facts].
  destruct (0 <? _).
  - ends_run. solve_facts.
  - ends_run. solve_facts.
Qed.

Lemma skipWhitespace_Ends (b : bool) (fuel : nat) :
  forall L d,
    Good L -> sourceSize L < current_ L + N.of_nat fuel ->
    Ends b (skipWhitespace fuel L d) (fun _ L' => Forward 0 L L').
Proof.
  induction fuel as [| fuel IH]; intros L d HG Hf.
  - destruct HG as (? & ? & ?). lia.
  - cbn [skipWhitespace]. rewrite bind_gets.
    destruct (isAtEnd L) eqn:He; [now apply Forward_refl |].
    assert (Hlt : current_ L < sourceSize L) by now apply isAtEnd_false.
    rewrite bind_gets.
    destruct (_ || _).
    { call_head advance_Ends; [| exact HG | lia].
      call_tail IH; [| solve_facts | solve_facts].
      solve_facts. }
    destruct (Ascii.eqb (peek L) "/"); [| now apply Forward_refl].
    rewrite bind_gets.
    destruct (Ascii.eqb (peekNext L) "/") eqn:Hn;
      [| destruct (Ascii.eqb (peekNext L) "*") eqn:Hn'].
    + apply (peekNext_is L _ HG Hlt) in Hn; [| discriminate].
      call_head skipLineComment_Ends; [| exact HG | lia | lia].
      call_tail IH; [| solve_facts | solve_facts].
      solve_facts.
    + apply (peekNext_is L _ HG Hlt) in Hn'; [| discriminate].
      call_head skipBlockComment_Ends; [| exact HG | lia | lia].
      match goal with |- Ends _ ((if ?b then _ else _) _ _) _ => destruct b end.
      * call_tail IH; [| solve_facts | solve_facts].
        solve_facts.
      * ends_run. solve_facts.
    + now apply Forward_refl.
Qed.

Lemma lexIdentifierOrKeyword_Ends (b : bool) (fuel : nat) L d :
  Good L -> sourceSize L < current_ L + N.of_nat fuel ->
  Ends b (lexIdentifierOrKeyword fuel L d) (fun _ L' => Forward 0 L L').
Proof.
  intros HG Hf. unfold lexIdentifierOrKeyword.
  call_to advanceWhile_Ends u L1 H1 d1; [| exact HG | exact Hf].
  call_to lexeme_Ends txt L2 H2 d2; [| solve_facts]. subst L2.
  unfold makeTokenText. rewrite bind_gets. ends_run. solve_facts.
Qed.

Section LexerEnds.

Variable stod_oor : string -> bool.

Lemma stod_Ends (s : string) L d :
  Ends true (stod stod_oor s L d) (fun _ L' => L' = L).
Proof. unfold stod. destruct (stod_oor s); reflexivity. Qed.

Lemma finishPrefixed_Ends (base : N) L d :
  Good L -> Ends true (finishPrefixed base L d) (fun _ L' => L' = L).
Proof.
  intros HG. unfold finishPrefixed.
  call_to makeToken_Ends token L1 H1 d1; [| exact HG]. subst L1.
  call_to stoll_Ends v L2 H2 d2. subst L2. reflexivity.
Qed.

(** The ends of [lexDecimal], from [makeToken] on. *)
Ltac finish_number :=
  match goal with
  | |- Ends _ ((if ?b then _ else _) _ _) _ => destruct b
  | _ => idtac
  end;
  (let token := fresh "token" in
   let L1 := fresh "L" in
   let H1 := fresh "H" in
   let d1 := fresh "d" in
   call_to makeToken_Ends token L1 H1 d1; [| solve_facts]; subst L1);
  (let v := fresh "v" in
   let L2 := fresh "L" in
   let H2 := fresh "H" in
   let d2 := fresh "d" in
   first [ call_to stod_Ends v L2 H2 d2 | call_to stoll_Ends v L2 H2 d2 ];
   subst L2);
  ends_run; solve_facts.

Lemma lexDecimal_Ends (fuel : nat) L d :
  Good L -> sourceSize L < current_ L + N.of_nat fuel ->
  current_ L < sourceSize L -> isDecChar (peek L) = true ->
  Ends true (lexDecimal stod_oor fuel L d) (fun _ L' => Forward 1 L L').
Proof.
  intros HG Hf Hlt Hp. unfold lexDecimal.
  call_to advanceWhile_Ends u L1 H1 d1; [| exact HG | exact Hf].
  destruct H1 as [HF1 Hadv]. specialize (Hadv Hlt Hp).
  rewrite !bind_gets.
  block_to (fun (_ : bool) L' => Forward 0 L1 L') isFloat L2 H2 d2.
  2: { destruct (Ascii.eqb (peek L1) "." && _) eqn:Hdot.
       - apply andb_true_iff in Hdot. destruct Hdot as [Hdot _].
         apply peek_is in Hdot; [| discriminate].
         call_to advance_Ends c L2 H2 d2; [| solve_facts | exact Hdot].
         call_to advanceWhile_Ends u2 L3 H3 d3;
           [| solve_facts | solve_facts].
         ends_run. solve_facts.
       - ends_run. solve_facts. }
  rewrite bind_gets. cbv zeta.
  destruct (Ascii.eqb (peek L2) "e" || Ascii.eqb (peek L2) "E") eqn:He.
  - assert (Hlt2 : current_ L2 < sourceSize L2).
    { apply orb_true_iff in He.
      destruct He as [He | He]; apply peek_is in He; auto; discriminate. }
    call_to advance_Ends c L3 H3 d3; [| solve_facts | exact Hlt2].
    rewrite bind_gets.
    block_to (fun (_ : unit) L' => Forward 0 L3 L') u3 L4 H4 d4.
    2: { destruct (Ascii.eqb (peek L3) "+" || Ascii.eqb (peek L3) "-")
           eqn:Hs.
         - assert (Hlt3 : current_ L3 < sourceSize L3).
           { apply orb_true_iff in Hs.
             destruct Hs as [Hs | Hs]; apply peek_is in Hs; auto;
               discriminate. }
           call_to advance_Ends c' L4 H4 d4; [| solve_facts | exact Hlt3].
           ends_run. solve_facts.
         - ends_run. solve_facts. }
    rewrite bind_gets.
    destruct (negb (isdigit (peek L4))).
    + tail_to errorToken_Ends t L5 H5; [| solve_facts]. subst L5. solve_facts.
    + call_to advanceWhile_Ends u5 L5 H5 d5; [| solve_facts | solve_facts].
      finish_number.
  - finish_number.
Qed.

Lemma lexNumber_Ends (fuel : nat) L d :
  Good L -> sourceSize L < current_ L + N.of_nat fuel ->
  current_ L < sourceSize L -> isdigit (peek L) = true ->
  Ends true (lexNumber stod_oor fuel L d) (fun _ L' => Forward 1 L L').
Proof.
  intros HG Hf Hlt Hp. unfold lexNumber. rewrite !bind_gets.
  assert (HpD : isDecChar (peek L) = true)
    by (unfold isDecChar; rewrite Hp; reflexivity).
  destruct (Ascii.eqb (peek L) "0" && negb (isAtEnd L));
    [| now apply lexDecimal_Ends].
  rewrite bind_gets.
  destruct (Ascii.eqb (peekNext L) "x" || Ascii.eqb (peekNext L) "X") eqn:Hx;
    [| destruct (Ascii.eqb (peekNext L) "b" || Ascii.eqb (peekNext L) "B")
         eqn:Hb;
       [| destruct (Ascii.eqb (peekNext L) "o"
                    || Ascii.eqb (peekNext L) "O") eqn:Ho;
          [| now apply lexDecimal_Ends]]].
  - assert (Hn : current_ L + 1 < sourceSize L).
    { apply orb_true_iff in Hx.
      destruct Hx as [Hx | Hx]; apply (peekNext_is L _ HG Hlt) in Hx; auto;
        discriminate. }
    call_to advance_Ends c1 L1 H1 d1; [| exact HG | exact Hlt].
    call_to advance_Ends c2 L2 H2 d2; [| solve_facts | solve_facts].
    rewrite !bind_gets.
    destruct (negb (isAtEnd L2) && negb (isxdigit (peek L2))).
    + tail_to errorToken_Ends t L3 H3; [| solve_facts]. subst L3. solve_facts.
    + call_to advanceWhile_Ends u L3 H3 d3; [| solve_facts | solve_facts].
      tail_to finishPrefixed_Ends t L4 H4; [| solve_facts]. subst L4.
      solve_facts.
  - assert (Hn : current_ L + 1 < sourceSize L).
    { apply orb_true_iff in Hb.
      destruct Hb as [Hb | Hb]; apply (peekNext_is L _ HG Hlt) in Hb; auto;
        discriminate. }
    call_to advance_Ends c1 L1 H1 d1; [| exact HG | exact Hlt].
    call_to advance_Ends c2 L2 H2 d2; [| solve_facts | solve_facts].
    rewrite !bind_gets.
    destruct (negb (isAtEnd L2) && negb (Ascii.eqb (peek L2) "0")
              && negb (Ascii.eqb (peek L2) "1")).
    + tail_to errorToken_Ends t L3 H3; [| solve_facts]. subst L3. solve_facts.
    + call_to advanceWhile_Ends u L3 H3 d3; [| solve_facts | solve_facts].
      tail_to finishPrefixed_Ends t L4 H4; [| solve_facts]. subst L4.
      solve_facts.
  - assert (Hn : current_ L + 1 < sourceSize L).
    { apply orb_true_iff in Ho.
      destruct Ho as [Ho | Ho]; apply (peekNext_is L _ HG Hlt) in Ho; auto;
        discriminate. }
    call_to advance_Ends c1 L1 H1 d1; [| exact HG | exact Hlt].
    call_to advance_Ends c2 L2 H2 d2; [| solve_facts | solve_facts].
    call_to advanceWhile_Ends u L3 H3 d3; [| solve_facts | solve_facts].
    tail_to finishPrefixed_Ends t L4 H4; [| solve_facts]. subst L4.
      solve_facts.
Qed.

Lemma lexStringLoop_Ends (b : bool) (fuel : nat) :
  forall L d,
    Good L -> sourceSize L < current_ L + N.of_nat fuel ->
    Ends b (lexStringLoop fuel L d) (fun _ L' => Forward 0 L L').
Proof.
  induction fuel as [| fuel IH]; intros L d HG Hf.
  - destruct HG as (? & ? & ?). lia.
  - cbn [lexStringLoop]. rewrite !bind_gets.
    destruct (isAtEnd L) eqn:He; cbn [negb andb];
      [now apply Forward_refl |].
    assert (Hlt : current_ L < sourceSize L) by now apply isAtEnd_false.
    destruct (negb (Ascii.eqb (peek L) DQUOTE));
      [| now apply Forward_refl].
    destruct (Ascii.eqb (peek L) BACKSLASH);
      [| destruct (Ascii.eqb (peek L) LF)].
    + call_to advance_Ends c1 L1 H1 d1; [| exact HG | exact Hlt].
      rewrite bind_gets. destruct (isAtEnd L1) eqn:He1.
      * call_to errorToken_Ends t L2 H2 d2; [| solve_facts]. subst L2.
        ends_run. solve_facts.
      * call_to advance_Ends c2 L2 H2 d2; [| solve_facts | solve_facts].
        tail_to IH r L3 H3; [| solve_facts | solve_facts].
        solve_facts.
    + call_to errorToken_Ends t L2 H2 d2; [| solve_facts]. subst L2.
      ends_run. solve_facts.
    + call_to advance_Ends c1 L1 H1 d1; [| exact HG | exact Hlt].
      tail_to IH r L3 H3; [| solve_facts | solve_facts].
      solve_facts.
Qed.

Lemma lexString_Ends (b : bool) (fuel : nat) L d :
  Good L -> sourceSize L < current_ L + N.of_nat fuel ->
  current_ L < sourceSize L ->
  Ends b (lexString fuel L d) (fun _ L' => Forward 1 L L').
Proof.
  intros HG Hf Hlt. unfold lexString.
  call_to advance_Ends c1 L1 H1 d1; [| exact HG | exact Hlt].
  rewrite bind_gets.
  call_to lexStringLoop_Ends r L2 H2 d2; [| solve_facts | solve_facts].
  destruct r as [t |].
  - ends_run. solve_facts.
  - rewrite bind_gets. destruct (isAtEnd L2) eqn:He.
    + tail_to errorToken_Ends t L3 H3; [| solve_facts]. subst L3. solve_facts.
    + rewrite bind_gets.
      call_to advance_Ends c2 L3 H3 d3; [| solve_facts | solve_facts].
      call_to makeToken_Ends token L4 H4 d4; [| solve_facts]. subst L4.
      rewrite bind_gets.
      call_to substr_Ends txt L4 H4 d5;
        [| change (current_ L1 <= sourceSize L3); solve_facts ].
      subst L4.
      ends_run. solve_facts.
Qed.

(** The end of [lexChar], from the closing quote on. *)
Ltac closing_quote L :=
  rewrite !bind_gets;
  let Hc := fresh "Hc" in
  let t := fresh "t" in
  let c := fresh "c" in
  let L1 := fresh "L" in
  let H1 := fresh "H" in
  let d1 := fresh "d" in
  let L2 := fresh "L" in
  let H2 := fresh "H" in
  destruct (isAtEnd L) eqn:Hc; cbn [orb];
    [ tail_to errorToken_Ends t L1 H1; [| solve_facts]; subst L1; solve_facts
    | destruct (negb (Ascii.eqb (peek L) SQUOTE));
      [ tail_to errorToken_Ends t L1 H1; [| solve_facts]; subst L1; solve_facts
      | call_to advance_Ends c L1 H1 d1; [| solve_facts | solve_facts];
        tail_to makeToken_Ends t L2 H2; [| solve_facts]; subst L2; solve_facts ] ].

Lemma lexChar_Ends (b : bool) L d :
  Good L -> current_ L < sourceSize L ->
  Ends b (lexChar L d) (fun _ L' => Forward 1 L L').
Proof.
  intros HG Hlt. unfold lexChar.
  call_to advance_Ends c1 L1 H1 d1; [| exact HG | exact Hlt].
  rewrite bind_gets. destruct (isAtEnd L1) eqn:He1.
  { tail_to errorToken_Ends t L2 H2; [| solve_facts]. subst L2. solve_facts. }
  rewrite bind_gets. cbv zeta.
  destruct (Ascii.eqb (peek L1) BACKSLASH).
  - call_to advance_Ends c2 L2 H2 d2; [| solve_facts | solve_facts].
    rewrite bind_gets. destruct (isAtEnd L2) eqn:He2.
    { tail_to errorToken_Ends t L3 H3; [| solve_facts]. subst L3. solve_facts. }
    call_to advance_Ends c3 L3 H3 d3; [| solve_facts | solve_facts].
    closing_quote L3.
  - call_to advance_Ends c2 L2 H2 d2; [| solve_facts | solve_facts].
    closing_quote L2.
Qed.

Lemma lexAnnotation_Ends (b : bool) (fuel : nat) L d :
  Good L -> sourceSize L < current_ L + N.of_nat fuel ->
  current_ L < sourceSize L ->
  Ends b (lexAnnotation fuel L d) (fun _ L' => Forward 1 L L').
Proof.
  intros HG Hf Hlt. unfold lexAnnotation.
  call_to advance_Ends c1 L1 H1 d1; [| exact HG | exact Hlt].
  rewrite bind_gets.
  call_to advanceWhile_Ends u L2 H2 d2; [| solve_facts | solve_facts].
  unfold getLexer. rewrite bind_gets.
  call_to substr_Ends name L3 H3 d3;
    [| change (current_ L1 <= sourceSize L2); solve_facts ].
  subst L3.
  destruct (String.eqb name "doc");
    [| destruct (String.eqb name "deprecated");
       [| destruct (String.eqb name "test")]].
  - tail_to makeToken_Ends t L3 H3; [| solve_facts]. subst L3. solve_facts.
  - tail_to makeToken_Ends t L3 H3; [| solve_facts]. subst L3. solve_facts.
  - tail_to makeToken_Ends t L3 H3; [| solve_facts]. subst L3. solve_facts.
  - assign.
    tail_to makeToken_Ends t L3 H3; [| solve_facts]. subst L3. solve_facts.
Qed.

(** The branches of [lexPunctuation]. *)
Ltac punctuation :=
  let t := fresh "t" in
  let L1 := fresh "L" in
  let H1 := fresh "H" in
  let d1 := fresh "d" in
  first
    [ tail_to makeToken_Ends t L1 H1; [| solve_facts]; subst L1; solve_facts
    | tail_to errorToken_Ends t L1 H1; [| solve_facts]; subst L1; solve_facts
    | call_to matchChar_Ends t L1 H1 d1; [| solve_facts];
      destruct t; punctuation ].

Lemma lexPunctuation_Ends (b : bool) (c : ascii) L d :
  Good L -> Ends b (lexPunctuation c L d) (fun _ L' => Forward 0 L L').
Proof.
  intros HG. unfold lexPunctuation. cbv zeta.
  repeat match goal with
         | |- Ends _ ((if Ascii.eqb c ?x then _ else _) _ _) _ =>
             destruct (Ascii.eqb c x)
         end; punctuation.
Qed.

Lemma peek_charAt (L : Lexer) :
  current_ L < sourceSize L -> peek L = charAt (source_ L) (current_ L).
Proof.
  intros H. apply isAtEnd_false in H. unfold peek. now rewrite H.
Qed.

Lemma makeToken_kind (b : bool) (k : TokenKind) L d :
  Good L -> Ends b (makeToken k L d) (fun t L' => L' = L /\ kind t = k).
Proof.
  intros HG. unfold makeToken.
  call_to lexeme_Ends txt L1 H1 d1; [| exact HG]. subst L1.
  unfold makeTokenText. rewrite bind_gets. split; reflexivity.
Qed.

Lemma hasDigit_charAt (s : string) (i : N) :
  hasDigit s = false -> isdigit (charAt s i) = false.
Proof.
  unfold hasDigit, charAt. intros H.
  rewrite get_list_ascii_of_string.
  destruct (list_ascii_of_string s !! N.to_nat i) as [c |] eqn:Hl;
    [| reflexivity].
  destruct (isdigit c) eqn:Hc; [| reflexivity].
  rewrite <- H. symmetry. apply existsb_exists. exists c. split; [| exact Hc].
  apply list_elem_of_In. eapply list_elem_of_lookup_2. exact Hl.
Qed.

(** [nextToken] comes to an end, and past the end of the source it gives
    [Eof]; any other token takes at least one character.  It leaves by an
    exception only where it reads a number. *)
Lemma nextToken_Ends (b : bool) (fuel : nat) L d :
  Good L -> hasPeeked_ L = false ->
  sourceSize L < current_ L + N.of_nat fuel ->
  (b = false -> hasDigit (source_ L) = false) ->
  Ends b (nextToken stod_oor fuel L d) (fun t L' =>
    Good L' /\ source_ L' = source_ L /\ hasPeeked_ L' = false
    /\ current_ L <= current_ L'
    /\ (kind t = Eof \/ current_ L < current_ L')).
Proof.
  intros HG Hhp Hf Hnd. unfold nextToken. rewrite bind_gets, Hhp.
  call_to skipWhitespace_Ends u L1 H1 d1; [| exact HG | exact Hf].
  assign_to Ls Hss Hps Hcs. rewrite bind_gets.
  assert (HGs : Good Ls) by solve_facts.
  destruct (isAtEnd Ls) eqn:He.
  { tail_to makeToken_kind t L2 H2; [| exact HGs]. destruct H2 as [-> Hk].
    split; [exact HGs |]. open_facts.
    repeat split; try congruence; try lia. now left. }
  assert (Hlt : current_ Ls < sourceSize Ls) by now apply isAtEnd_false.
  call_to advance_Ends c L2 H2 d2; [| exact HGs | exact Hlt].
  destruct H2 as (HF2 & Hc2 & Hch).
  assert (Hm : sourceSize Ls < UINT32_MOD) by solve_facts.
  assert (Hsrc : source_ Ls = source_ L) by solve_facts.
  apply (Ends_mono _ (fun _ L' => Forward 0 L2 L')).
  { intros t L3 HF3. assert (HG3 : Good L3) by solve_facts.
    split; [exact HG3 |]. open_facts.
    repeat split; try congruence; lia. }
  destruct (isalpha c || Ascii.eqb c "_");
    [| destruct (isdigit c) eqn:Hdigit;
       [| destruct (Ascii.eqb c DQUOTE);
          [| destruct (Ascii.eqb c SQUOTE);
             [| destruct (Ascii.eqb c "@")]]]].
  - (* identifiers and keywords *)
    rewrite !bind_gets.
    match goal with
    | |- Ends _ ((if ?b then _ else _) _ _) _ => destruct b
    end.
    + tail_to makeToken_Ends t L3 H3; [| solve_facts]. subst L3.
      solve_facts.
    + tail_to lexIdentifierOrKeyword_Ends t L3 H3;
        [| solve_facts | solve_facts].
      solve_facts.
  - (* numbers *)
    destruct b.
    2: { rewrite Hch, Hsrc, hasDigit_charAt in Hdigit by now apply Hnd.
         discriminate Hdigit. }
    assign_to L3 Hs3 Hp3 Hc3. rewrite Hc2, dec32_succ in Hc3 by lia.
    assert (Hpk : charAt (source_ L3) (current_ L3) = c).
    { rewrite Hs3, Hc3. destruct HF2 as (-> & _). now rewrite <- Hch. }
    assert (Hnum : forall L4 d4,
              source_ L4 = source_ L3 -> hasPeeked_ L4 = hasPeeked_ L3 ->
              current_ L4 = current_ L3 ->
              tokenStart_ L4 = tokenStart_ L3 ->
              Ends true (lexNumber stod_oor fuel L4 d4)
                (fun _ L' => Forward 0 L2 L')).
    { intros L4 d4 Hs4 Hp4 Hc4 Ht4.
      tail_to lexNumber_Ends t L5 H5;
        [| solve_facts | solve_facts | solve_facts | ].
      - solve_facts.
      - rewrite peek_charAt by solve_facts. now rewrite Hs4, Hc4, Hpk. }
    destruct (Ascii.eqb c LF); assign_to L4 Hs4 Hp4 Hc4; now apply Hnum.
  - (* strings *)
    unfold backUp. assign_to L3 Hs3 Hp3 Hc3.
    rewrite Hc2, dec32_succ in Hc3 by lia.
    tail_to lexString_Ends t L5 H5;
      [| solve_facts | solve_facts | solve_facts].
    solve_facts.
  - (* characters and lifetimes *)
    rewrite !bind_gets.
    destruct (negb (isAtEnd L2) && isalpha (peek L2)) eqn:Ha;
      [| destruct (negb (isAtEnd L2) && Ascii.eqb (peek L2) BACKSLASH)].
    + apply andb_true_iff in Ha. destruct Ha as [Ha _].
      apply negb_true_iff in Ha.
      rewrite bind_gets. cbv beta iota zeta.
      call_to advance_Ends c' L3 H3 d3; [| solve_facts | solve_facts].
      rewrite !bind_gets.
      destruct (negb (isAtEnd L3) && Ascii.eqb (peek L3) SQUOTE).
      * assign_to L4 Hs4 Hp4 Hc4. unfold backUp.
        assign_to L5 Hs5 Hp5 Hc5.
        rewrite Hc4, Hc2, dec32_succ in Hc5 by lia.
        tail_to lexChar_Ends t L6 H6; [| solve_facts | solve_facts].
        solve_facts.
      * call_to advanceWhile_Ends u' L4 H4 d4;
          [| solve_facts | solve_facts].
        tail_to makeToken_Ends t L5 H5; [| solve_facts]. subst L5.
        solve_facts.
    + unfold backUp. assign_to L3 Hs3 Hp3 Hc3.
      rewrite Hc2, dec32_succ in Hc3 by lia.
      tail_to lexChar_Ends t L5 H5; [| solve_facts | solve_facts].
      solve_facts.
    + tail_to makeToken_Ends t L3 H3; [| solve_facts]. subst L3.
      solve_facts.
  - (* annotations *)
    rewrite !bind_gets.
    destruct (negb (isAtEnd L2) && isalpha (peek L2)).
    + unfold backUp. assign_to L3 Hs3 Hp3 Hc3.
      rewrite Hc2, dec32_succ in Hc3 by lia.
      tail_to lexAnnotation_Ends t L5 H5;
        [| solve_facts | solve_facts | solve_facts].
      solve_facts.
    + tail_to makeToken_Ends t L3 H3; [| solve_facts]. subst L3.
      solve_facts.
  - (* operators and punctuation *)
    tail_to lexPunctuation_Ends t L3 H3; [| solve_facts].
    solve_facts.
Qed.

Lemma lexAllLoop_Ends (b : bool) (fuel n : nat) :
  forall tokens L d,
    Good L -> hasPeeked_ L = false ->
    sourceSize L < current_ L + N.of_nat fuel ->
    sourceSize L < current_ L + N.of_nat n ->
    (b = false -> hasDigit (source_ L) = false) ->
    Ends b (lexAllLoop stod_oor fuel n tokens L d) (fun _ _ => True).
Proof.
  induction n as [| n IH]; intros tokens L d HG Hhp Hf Hn Hnd.
  - destruct HG as (? & ? & ?). lia.
  - cbn [lexAllLoop].
    call_to nextToken_Ends t L1 H1 d1;
      [| exact HG | exact Hhp | exact Hf | exact Hnd].
    destruct H1 as (HG1 & Hs1 & Hp1 & Hc1 & Hk).
    pose proof (sourceSize_eq _ _ Hs1) as Hsz.
    destruct (isEofKind (kind t)) eqn:He; [exact Logic.I |].
    apply IH; auto.
    + lia.
    + destruct Hk as [Hk | Hk]; [| lia].
      rewrite Hk in He. discriminate He.
    + now rewrite Hs1.
Qed.

Lemma Good_newLexer (source filename : string) :
  N.of_nat (String.length source) < UINT32_MOD ->
  Good (newLexer source filename).
Proof.
  intros H. unfold Good, sourceSize, newLexer. cbn. repeat split; lia.
Qed.

Lemma lexAll_Ends (b : bool) (fuel : nat) (source filename : string) d :
  N.of_nat (String.length source) < UINT32_MOD ->
  (String.length source < fuel)%nat ->
  (b = false -> hasDigit source = false) ->
  Ends b (lexAll stod_oor fuel (newLexer source filename) d)
    (fun ts _ => endsInEof ts).
Proof.
  intros Hm Hf Hnd.
  pose proof (lexAllLoop_Ends b fuel fuel [] (newLexer source filename) d
                (Good_newLexer source filename Hm) eq_refl) as H.
  unfold sourceSize in H. cbn [source_ current_ newLexer] in H.
  specialize (H ltac:(lia) ltac:(lia) Hnd).
  fold (lexAll stod_oor fuel) in H.
  pose proof (lexAll_returned_tokens_end_in_Eof stod_oor fuel
                (newLexer source filename) d) as Hend.
  unfold Ends in *.
  destruct (lexAll stod_oor fuel (newLexer source filename) d)
    as [[[ts | e |] L'] d']; auto.
  exact (Hend ts L' d' eq_refl).
Qed.

End LexerEnds.

(** X19: on a source shorter than 2^32 characters, with fuel for more loop
    rounds than the source has characters, [lexAll] from a fresh lexer never
    stays in a loop: it returns a token sequence whose last token, and no
    other, is [Eof], or it leaves by an exception. *)
Theorem lexAll_comes_to_an_end :
  forall (stod_oor : string -> bool) (fuel : nat) (source filename : string)
         (d : DiagnosticEngine),
    N.of_nat (String.length source) < UINT32_MOD ->
    (String.length source < fuel)%nat ->
    (exists ts L' d',
        lexAll stod_oor fuel (newLexer source filename) d = (Ok ts, L', d')
        /\ endsInEof ts)
    \/ (exists e L' d',
          lexAll stod_oor fuel (newLexer source filename) d
          = (Throw e, L', d')).
Proof.
  intros stod_oor fuel source filename d Hm Hf.
  pose proof (lexAll_Ends stod_oor true fuel source filename d Hm Hf
                ltac:(discriminate)) as H.
  unfold Ends in H.
  destruct (lexAll stod_oor fuel (newLexer source filename) d)
    as [[[ts | e |] L'] d'].
  - left. exists ts, L', d'. auto.
  - right. exists e, L', d'. reflexivity.
  - contradiction.
Qed.

Lemma lexAll_comes_to_an_end_on_a_let :
  (exists ts L' d',
      lexAll (fun _ => false) 16 (newLexer "let x = 1;" "<test>") newEngine
      = (Ok ts, L', d')
      /\ endsInEof ts)
  \/ (exists e L' d',
        lexAll (fun _ => false) 16 (newLexer "let x = 1;" "<test>") newEngine
        = (Throw e, L', d')).
Proof.
  apply (lexAll_comes_to_an_end (fun _ => false) 16 "let x = 1;" "<test>"
           newEngine).
  - vm_compute. reflexivity.
  - cbn. lia.
Defined.

(** X20: the lexer leaves by an exception only where it reads a number.
    On a source shorter than 2^32 characters in which no decimal digit
    occurs, with fuel for more loop rounds than the source has characters,
    [lexAll] from a fresh lexer returns, and the sequence it returns has
    [Eof] as its last token and nowhere else. *)
Theorem lexAll_returns_when_no_digit_occurs :
  forall (stod_oor : string -> bool) (fuel : nat) (source filename : string)
         (d : DiagnosticEngine),
    N.of_nat (String.length source) < UINT32_MOD ->
    (String.length source < fuel)%nat ->
    hasDigit source = false ->
    exists ts L' d',
      lexAll stod_oor fuel (newLexer source filename) d = (Ok ts, L', d')
      /\ endsInEof ts.
Proof.
  intros stod_oor fuel source filename d Hm Hf Hnd.
  pose proof (lexAll_Ends stod_oor false fuel source filename d Hm Hf
                (fun _ => Hnd)) as H.
  unfold Ends in H.
  destruct (lexAll stod_oor fuel (newLexer source filename) d)
    as [[[ts | e |] L'] d'].
  - exists ts, L', d'. auto.
  - discriminate H.
  - contradiction.
Qed.

Lemma lexAll_returns_on_a_call :
  exists ts L' d',
    lexAll (fun _ => false) 16 (newLexer "f(x, 'a');" "<test>") newEngine
    = (Ok ts, L', d')
    /\ endsInEof ts.
Proof.
  apply (lexAll_returns_when_no_digit_occurs (fun _ => false) 16
           "f(x, 'a');" "<test>" newEngine).
  - vm_compute. reflexivity.
  - cbn. lia.
  - vm_compute. reflexivity.
Defined.

(** X21: from a lexer that stands inside a source shorter than 2^32
    characters with nothing peeked, and with fuel for more loop rounds than
    characters are left, [nextToken] never stays in a loop.  When it returns
    a token the lexer has the same source, still stands inside it and has
    not gone backward, and unless the token is [Eof] it has gone at least
    one character forward. *)
Theorem nextToken_goes_forward :
  forall (stod_oor : string -> bool) (fuel : nat) (L : Lexer)
         (d : DiagnosticEngine),
    Good L -> hasPeeked_ L = false ->
    sourceSize L < current_ L + N.of_nat fuel ->
    Ends true (nextToken stod_oor fuel L d) (fun t L' =>
      source_ L' = source_ L
      /\ current_ L <= current_ L' /\ current_ L' <= sourceSize L
      /\ (kind t <> Eof -> current_ L < current_ L')).
Proof.
  intros stod_oor fuel L d HG Hhp Hf.
  eapply Ends_mono;
    [| apply (nextToken_Ends stod_oor true fuel L d HG Hhp Hf);
       discriminate ].
  cbv beta. intros t L' (HG' & Hs & _ & Hc & Hk).
  pose proof (sourceSize_eq _ _ Hs) as Hsz. destruct HG' as (_ & Hb & _).
  repeat split; auto; try lia.
  intros Hne. destruct Hk as [Hk | Hk]; [contradiction | exact Hk].
Qed.

Lemma nextToken_goes_forward_on_a_sum :
  Ends true (nextToken (fun _ => false) 4 (newLexer "x+1" "<test>") newEngine)
    (fun t L' =>
       source_ L' = source_ (newLexer "x+1" "<test>")
       /\ current_ (newLexer "x+1" "<test>") <= current_ L'
       /\ current_ L' <= sourceSize (newLexer "x+1" "<test>")
       /\ (kind t <> Eof -> current_ (newLexer "x+1" "<test>") < current_ L')).
Proof.
  apply (nextToken_goes_forward (fun _ => false) 4 (newLexer "x+1" "<test>")
           newEngine).
  - repeat split; vm_compute; (reflexivity || discriminate).
  - reflexivity.
  - vm_compute. reflexivity.
Defined.
